(** * go-geojson: a shallow embedding of [geojson.go] and its checked properties

    The development follows the source file top to bottom:
    - [GoValues]: the Go values the package computes with (float64, slices,
      panics, the [error] results of [encoding/json]);
    - [Fmt]: [fmt.Sprintf] with the verb [%f], as used by [Position.MarshalJSON];
    - [Json]: the part of [encoding/json] the package calls: the scanner, the
      check applied to the text a [MarshalJSON] method returns, string
      quoting, slices, maps and dynamic values;
    - [GeoJSON]: the package itself, definition by definition;
    - [SliceStore]: slices as headers over shared backing arrays, for
      [FeatureCollection.With];
    - the notions the statements use, and the properties: the builders,
      [With], the texts at concrete inputs, the texts the check of
      [encoding/json] lets through, geometries with finite coordinates, and
      the properties of a Feature;
    - further properties: which geometries, Features and collections are
      written and with which text, the errors, the depth limit of the check,
      [With] called twice or with nothing, and what every returned text
      has. *)

From Stdlib Require Import ZArith NArith List String Ascii Bool Lia.
From Stdlib Require Import SpecFloat Decimal DecimalString DecimalN DecimalFacts.
From stdpp Require Import base list sorting.
Import ListNotations.

#[local] Open Scope string_scope.

(* ===================================================================== *)
(** * Go values *)
(* ===================================================================== *)

Module GoValues.

(** A [float64] is an IEEE-754 binary64 datum: a signed zero, a signed
    infinity, a NaN, or [(-1)^s * m * 2^e].  The values of the Go type are the
    data accepted by [valid_binary 53 1024]. *)
Definition float64 : Type := spec_float.

Definition is_float64 (x : float64) : bool := valid_binary 53 1024 x.

(** Go's [==] on [float64]: IEEE equality, so NaN differs from itself and the
    two zeros are equal. *)
Definition float64_eq (x y : float64) : bool := SFeqb x y.

(** [math.IsNaN] and [math.IsInf] together, negated. *)
Definition finite (x : float64) : bool :=
  match x with
  | S754_zero _ | S754_finite _ _ _ => true
  | S754_infinity _ | S754_nan => false
  end.

(** A slice seen as a value: [None] is the nil slice, [Some l] a non-nil slice
    holding [l].  Backing arrays and capacities are the subject of
    [SliceStore]; the constructors of the package allocate their own arrays, so
    their results are determined by this view. *)
Definition slice (A : Type) : Type := option (list A).

Definition elems {A} (s : slice A) : list A :=
  match s with
  | None => []
  | Some l => l
  end.

(** [len(s)]. *)
Definition len {A} (s : slice A) : nat := List.length (elems s).

(** [make(T, 0, n)]: a non-nil slice of length 0. *)
Definition make0 {A} (n : nat) : slice A := Some [].

(** [append(s, xs...)] as a value: appending nothing to the nil slice gives
    the nil slice back. *)
Definition append {A} (s : slice A) (xs : list A) : slice A :=
  match s, xs with
  | None, [] => None
  | _, _ => Some (elems s ++ xs)%list
  end.

(** A Go function either returns or panics. *)
Inductive outcome (A P : Type) : Type :=
| Returned (a : A)
| Panicked (p : P).
Arguments Returned {A P} a.
Arguments Panicked {A P} p.

(** The [error] values [json.Marshal] can return in this package. *)
Inductive error : Type :=
| UnsupportedTypeError          (* json: unsupported type *)
| SyntaxError                   (* invalid JSON text *)
| MarshalerError (cause : error). (* json: error calling MarshalJSON *)

(** The pair [([]byte, error)] of a marshalling function. *)
Inductive result : Type :=
| Ok (text : string)
| Err (e : error).

Definition bind (r : result) (k : string -> result) : result :=
  match r with
  | Ok t => k t
  | Err e => Err e
  end.

Definition is_ok (r : result) : bool :=
  match r with
  | Ok _ => true
  | Err _ => false
  end.

End GoValues.
Export GoValues.

Notation "'do' x <- r ; k" := (bind r (fun x => k))
  (at level 10, x name, r at level 100, k at level 200).

(* ===================================================================== *)
(** * fmt.Sprintf with the verb %f *)
(* ===================================================================== *)

(** [fmt] hands a float64 to [strconv], which converts the binary value to
    its exact decimal expansion and rounds that to the digits asked for. *)

Module Fmt.

(** The decimal digit [d] (0..9) as a character. *)
Definition digit (d : N) : ascii := ascii_of_N (48 + d).

(** A natural number in decimal, without leading zeros. *)
Definition decimal (n : N) : string := NilZero.string_of_uint (N.to_uint n).

(** Exactly six decimal digits of [n mod 10^6]. *)
Definition six_digits (n : N) : string :=
  String (digit (n / 100000 mod 10))
 (String (digit (n / 10000 mod 10))
 (String (digit (n / 1000 mod 10))
 (String (digit (n / 100 mod 10))
 (String (digit (n / 10 mod 10))
 (String (digit (n mod 10)) EmptyString))))).

(** [m * 2^e * 10^6] rounded to the nearest integer, ties to even: the
    rounding [strconv] applies to the exact decimal expansion when asked for
    six digits after the point. *)
Definition round_micro (m : positive) (e : Z) : N :=
  if (0 <=? e)%Z then Z.to_N (Z.pos m * 2 ^ e * 1000000)
  else
    let num := (Z.pos m * 1000000)%Z in
    let den := (2 ^ (- e))%Z in
    let q := (num / den)%Z in
    let r := (num mod den)%Z in
    Z.to_N (if (2 * r <? den)%Z then q
            else if (den <? 2 * r)%Z then q + 1
            else if Z.even q then q else q + 1)%Z.

(** The digits of a rounded magnitude: integer part, point, six digits. *)
Definition fixed6 (micro : N) : string :=
  decimal (micro / 1000000) ++ "." ++ six_digits micro.

Definition sign (s : bool) : string := if s then "-" else EmptyString.

(** [fmt.Sprintf("%f", x)]: NaN and the infinities print by name, every other
    value in fixed-point notation with six digits after the point.  The sign
    of a negative zero, and of a negative value that rounds to zero, is
    kept. *)
Definition Sprintf_f (x : float64) : string :=
  match x with
  | S754_nan => "NaN"
  | S754_infinity false => "+Inf"
  | S754_infinity true => "-Inf"
  | S754_zero s => sign s ++ fixed6 0
  | S754_finite s m e => sign s ++ fixed6 (round_micro m e)
  end.

End Fmt.


(* ===================================================================== *)
(** * encoding/json *)
(* ===================================================================== *)

(** The library as of Go 1.22, after its files scanner.go, indent.go and
    encode.go.  [json.Marshal] sets [escapeHTML].  In this version only the
    text a [MarshalJSON] method returns passes through the scanner and its
    limit [maxNestingDepth]; later versions refuse every text that nests
    deeper, so the statements about success are made for texts within that
    depth. *)

Module Json.

#[local] Open Scope char_scope.

(** The byte value of a character. *)
Definition code (c : ascii) : N := N_of_ascii c.

(** The double-quote character, byte 34. *)
Definition dquote : ascii := ascii_of_N 34.

(** The backslash, byte 92. *)
Definition backslash : ascii := ascii_of_N 92.

Definition isSpace (c : ascii) : bool :=
  (code c <=? 32)%N &&
  ((code c =? 32) || (code c =? 9) || (code c =? 13) || (code c =? 10))%N.

Definition isDigit (c : ascii) : bool := ((48 <=? code c) && (code c <=? 57))%N.

Definition isDigit19 (c : ascii) : bool := ((49 <=? code c) && (code c <=? 57))%N.

Definition isHex (c : ascii) : bool :=
  isDigit c || ((97 <=? code c) && (code c <=? 102))%N
            || ((65 <=? code c) && (code c <=? 70))%N.

(** [hex[n]] for the table [hex = "0123456789abcdef"]. *)
Definition hex (n : N) : ascii :=
  if (n <? 10)%N then ascii_of_N (48 + n) else ascii_of_N (87 + n).

(** ** The scanner (scanner.go)

    A byte-at-a-time state machine with a stack of the enclosing arrays and
    objects.  [step] names the current state function. *)

Inductive stepfn : Type :=
| stateBeginValueOrEmpty | stateBeginValue | stateBeginStringOrEmpty
| stateBeginString | stateEndValue | stateEndTop
| stateInString | stateInStringEsc | stateInStringEscU | stateInStringEscU1
| stateInStringEscU12 | stateInStringEscU123
| stateNeg | state1 | state0 | stateDot | stateDot0 | stateE | stateESign
| stateE0
| stateT | stateTr | stateTru | stateF | stateFa | stateFal | stateFals
| stateN | stateNu | stateNul
| stateError.

Inductive parseKind : Type := parseObjectKey | parseObjectValue | parseArrayValue.

(** The scan codes the callers in this development tell apart; all the codes
    below [scanSkipSpace] are [scanContinue] here. *)
Inductive scanCode : Type := scanContinue | scanSkipSpace | scanEnd | scanError.

(** The head of [parseState] is the innermost enclosing array or object. *)
Record scanner : Type := mkScanner {
  step : stepfn;
  parseState : list parseKind;
  err : bool;
  endTop : bool
}.

Definition maxNestingDepth : N := 10000.

Definition newScanner : scanner := mkScanner stateBeginValue [] false false.

Definition goto (s : scanner) (f : stepfn) : scanner * scanCode :=
  (mkScanner f (parseState s) (err s) (endTop s), scanContinue).

(** [s.error(c, _)]. *)
Definition error_at (s : scanner) : scanner :=
  mkScanner stateError (parseState s) true (endTop s).

Definition fail (s : scanner) : scanner * scanCode := (error_at s, scanError).

Definition pushParseState (s : scanner) (k : parseKind) (next : stepfn)
  : scanner * scanCode :=
  let ps := k :: parseState s in
  let s' := mkScanner next ps (err s) (endTop s) in
  if (N.of_nat (List.length ps) <=? maxNestingDepth)%N then (s', scanContinue)
  else fail s'.

Definition popParseState (s : scanner) : scanner :=
  match List.tl (parseState s) with
  | [] => mkScanner stateEndTop [] (err s) true
  | ps => mkScanner stateEndValue ps (err s) (endTop s)
  end.

Definition do_stateEndTop (s : scanner) (c : ascii) : scanner * scanCode :=
  if isSpace c then (s, scanEnd) else (error_at s, scanEnd).

Definition do_stateEndValue (s : scanner) (c : ascii) : scanner * scanCode :=
  match parseState s with
  | [] => do_stateEndTop (mkScanner stateEndTop [] (err s) true) c
  | ps :: rest =>
    if isSpace c then (mkScanner stateEndValue (parseState s) (err s) (endTop s), scanSkipSpace)
    else match ps with
    | parseObjectKey =>
      if c =? ":" then
        (mkScanner stateBeginValue (parseObjectValue :: rest) (err s) (endTop s), scanContinue)
      else fail s
    | parseObjectValue =>
      if c =? "," then
        (mkScanner stateBeginString (parseObjectKey :: rest) (err s) (endTop s), scanContinue)
      else if c =? "}" then (popParseState s, scanContinue)
      else fail s
    | parseArrayValue =>
      if c =? "," then goto s stateBeginValue
      else if c =? "]" then (popParseState s, scanContinue)
      else fail s
    end
  end.

Definition do_stateBeginValue (s : scanner) (c : ascii) : scanner * scanCode :=
  if isSpace c then (s, scanSkipSpace)
  else if c =? "{" then pushParseState s parseObjectKey stateBeginStringOrEmpty
  else if c =? "[" then pushParseState s parseArrayValue stateBeginValueOrEmpty
  else if c =? dquote then goto s stateInString
  else if c =? "-" then goto s stateNeg
  else if c =? "0" then goto s state0
  else if c =? "t" then goto s stateT
  else if c =? "f" then goto s stateF
  else if c =? "n" then goto s stateN
  else if isDigit19 c then goto s state1
  else fail s.

Definition do_stateBeginValueOrEmpty (s : scanner) (c : ascii) : scanner * scanCode :=
  if isSpace c then (s, scanSkipSpace)
  else if c =? "]" then do_stateEndValue s c
  else do_stateBeginValue s c.

Definition do_stateBeginString (s : scanner) (c : ascii) : scanner * scanCode :=
  if isSpace c then (s, scanSkipSpace)
  else if c =? dquote then goto s stateInString
  else fail s.

Definition do_stateBeginStringOrEmpty (s : scanner) (c : ascii) : scanner * scanCode :=
  if isSpace c then (s, scanSkipSpace)
  else if c =? "}" then
    do_stateEndValue
      (mkScanner (step s) (parseObjectValue :: List.tl (parseState s)) (err s) (endTop s)) c
  else do_stateBeginString s c.

Definition do_stateInString (s : scanner) (c : ascii) : scanner * scanCode :=
  if c =? dquote then goto s stateEndValue
  else if c =? backslash then goto s stateInStringEsc
  else if (code c <? 32)%N then fail s
  else (s, scanContinue).

Definition do_stateInStringEsc (s : scanner) (c : ascii) : scanner * scanCode :=
  if (c =? "b") || (c =? "f") || (c =? "n") || (c =? "r") || (c =? "t")
     || (c =? backslash) || (c =? "/") || (c =? dquote)
  then goto s stateInString
  else if c =? "u" then goto s stateInStringEscU
  else fail s.

Definition hex_then (s : scanner) (c : ascii) (next : stepfn) : scanner * scanCode :=
  if isHex c then goto s next else fail s.

Definition do_state0 (s : scanner) (c : ascii) : scanner * scanCode :=
  if c =? "." then goto s stateDot
  else if (c =? "e") || (c =? "E") then goto s stateE
  else do_stateEndValue s c.

Definition do_state1 (s : scanner) (c : ascii) : scanner * scanCode :=
  if isDigit c then goto s state1 else do_state0 s c.

Definition do_stateNeg (s : scanner) (c : ascii) : scanner * scanCode :=
  if c =? "0" then goto s state0
  else if isDigit19 c then goto s state1
  else fail s.

Definition do_stateDot (s : scanner) (c : ascii) : scanner * scanCode :=
  if isDigit c then goto s stateDot0 else fail s.

Definition do_stateDot0 (s : scanner) (c : ascii) : scanner * scanCode :=
  if isDigit c then (s, scanContinue)
  else if (c =? "e") || (c =? "E") then goto s stateE
  else do_stateEndValue s c.

Definition do_stateESign (s : scanner) (c : ascii) : scanner * scanCode :=
  if isDigit c then goto s stateE0 else fail s.

Definition do_stateE (s : scanner) (c : ascii) : scanner * scanCode :=
  if (c =? "+") || (c =? "-") then goto s stateESign else do_stateESign s c.

Definition do_stateE0 (s : scanner) (c : ascii) : scanner * scanCode :=
  if isDigit c then (s, scanContinue) else do_stateEndValue s c.

Definition expect (s : scanner) (c want : ascii) (next : stepfn) : scanner * scanCode :=
  if c =? want then goto s next else fail s.

(** [s.step(s, c)]. *)
Definition scan_step (s : scanner) (c : ascii) : scanner * scanCode :=
  match step s with
  | stateBeginValueOrEmpty => do_stateBeginValueOrEmpty s c
  | stateBeginValue => do_stateBeginValue s c
  | stateBeginStringOrEmpty => do_stateBeginStringOrEmpty s c
  | stateBeginString => do_stateBeginString s c
  | stateEndValue => do_stateEndValue s c
  | stateEndTop => do_stateEndTop s c
  | stateInString => do_stateInString s c
  | stateInStringEsc => do_stateInStringEsc s c
  | stateInStringEscU => hex_then s c stateInStringEscU1
  | stateInStringEscU1 => hex_then s c stateInStringEscU12
  | stateInStringEscU12 => hex_then s c stateInStringEscU123
  | stateInStringEscU123 => hex_then s c stateInString
  | stateNeg => do_stateNeg s c
  | state1 => do_state1 s c
  | state0 => do_state0 s c
  | stateDot => do_stateDot s c
  | stateDot0 => do_stateDot0 s c
  | stateE => do_stateE s c
  | stateESign => do_stateESign s c
  | stateE0 => do_stateE0 s c
  | stateT => expect s c "r" stateTr
  | stateTr => expect s c "u" stateTru
  | stateTru => expect s c "e" stateEndValue
  | stateF => expect s c "a" stateFa
  | stateFa => expect s c "l" stateFal
  | stateFal => expect s c "s" stateFals
  | stateFals => expect s c "e" stateEndValue
  | stateN => expect s c "u" stateNu
  | stateNu => expect s c "l" stateNul
  | stateNul => expect s c "l" stateEndValue
  | stateError => (s, scanError)
  end.

(** [s.eof()]: the input is complete when the top-level value has ended,
    possibly only once a space is fed after it. *)
Definition eof (s : scanner) : bool :=
  if err s then false
  else if endTop s then true
  else endTop (fst (scan_step s " ")).

(** ** Compact (indent.go)

    [appendCompact] checks a JSON text with the scanner and copies it without
    insignificant space, escaping [<], [>], [&], U+2028 and U+2029.
    [skip] counts the bytes after the current one that an escape already
    covers.  The loop stops at the first [scanError]. *)

Definition isHTMLbyte (c : ascii) : bool := (c =? "<") || (c =? ">") || (c =? "&").

Definition escape00 (c : ascii) : string :=
  "\u00" ++ String (hex (N.shiftr (code c) 4)) (String (hex (N.land (code c) 15)) EmptyString).

Definition escape202 (c : ascii) : string :=
  "\u202" ++ String (hex (N.land (code c) 15)) EmptyString.

(** The escape written at the current byte, with the number of following
    bytes it covers. *)
Definition compactEscape (c : ascii) (rest : string) : option (string * nat) :=
  if isHTMLbyte c then Some (escape00 c, 0)
  else if (code c =? 226)%N then
    match rest with
    | String c1 (String c2 _) =>
      if ((code c1 =? 128) && ((code c2 =? 168) || (code c2 =? 169)))%N
      then Some (escape202 c2, 2%nat) else None
    | _ => None
    end
  else None.

Fixpoint compactLoop (s : scanner) (skip : nat) (src : string) : scanner * string :=
  match src with
  | EmptyString => (s, EmptyString)
  | String c rest =>
    let esc := compactEscape c rest in
    let written := match esc with Some (e, _) => e | None => EmptyString end in
    let (s', v) := scan_step s c in
    match v with
    | scanError => (s', EmptyString)
    | scanSkipSpace | scanEnd =>
      let (sf, out) := compactLoop s' 0 rest in (sf, written ++ out)
    | scanContinue =>
      match esc, skip with
      | Some (e, k), _ => let (sf, out) := compactLoop s' k rest in (sf, e ++ out)
      | None, O => let (sf, out) := compactLoop s' 0 rest in (sf, String c out)
      | None, S k => let (sf, out) := compactLoop s' k rest in (sf, out)
      end
    end
  end.

Definition appendCompact (src : string) : result :=
  let (s, out) := compactLoop newScanner 0 src in
  if eof s then Ok out else Err SyntaxError.

(** [marshalerEncoder] and [addrMarshalerEncoder]: the text returned by a
    [MarshalJSON] method is compacted, hence checked, before it is written;
    an error of the method or of the check is wrapped. *)
Definition marshalerEncoder (returned : result) : result :=
  match returned with
  | Ok b =>
    match appendCompact b with
    | Ok out => Ok out
    | Err e => Err (MarshalerError e)
    end
  | Err e => Err (MarshalerError e)
  end.

(** ** Strings (encode.go, [appendString] with [escapeHTML] set) *)

(** [htmlSafeSet]: the ASCII bytes copied as they are. *)
Definition htmlSafe (c : ascii) : bool :=
  ((32 <=? code c) && (code c <? 128))%N
  && negb ((c =? dquote) || (c =? backslash) || isHTMLbyte c).

Definition in_range (lo hi : N) (c : ascii) : bool :=
  ((lo <=? code c) && (code c <=? hi))%N.

Definition low6 (c : ascii) : N := N.land (code c) 63.

(** [utf8.DecodeRuneInString] on [String b0 rest]: the rune and its size, or
    [None] for [(RuneError, 1)]. *)
Definition decodeRune (b0 : ascii) (rest : string) : option (N * nat) :=
  let x := code b0 in
  let accept : option (nat * N * N) :=
    if ((194 <=? x) && (x <=? 223))%N then Some (2%nat, 128%N, 191%N)
    else if (x =? 224)%N then Some (3%nat, 160%N, 191%N)
    else if (x =? 237)%N then Some (3%nat, 128%N, 159%N)
    else if ((225 <=? x) && (x <=? 239))%N then Some (3%nat, 128%N, 191%N)
    else if (x =? 240)%N then Some (4%nat, 144%N, 191%N)
    else if (x =? 244)%N then Some (4%nat, 128%N, 143%N)
    else if ((241 <=? x) && (x <=? 243))%N then Some (4%nat, 128%N, 191%N)
    else None in
  match accept, rest with
  | Some (2%nat, lo, hi), String b1 _ =>
    if in_range lo hi b1
    then Some (N.lor (N.shiftl (N.land x 31) 6) (low6 b1), 2%nat) else None
  | Some (3%nat, lo, hi), String b1 (String b2 _) =>
    if in_range lo hi b1 && in_range 128 191 b2
    then Some (N.lor (N.shiftl (N.land x 15) 12)
                 (N.lor (N.shiftl (low6 b1) 6) (low6 b2)), 3%nat)
    else None
  | Some (4%nat, lo, hi), String b1 (String b2 (String b3 _)) =>
    if in_range lo hi b1 && in_range 128 191 b2 && in_range 128 191 b3
    then Some (N.lor (N.shiftl (N.land x 7) 18)
                 (N.lor (N.shiftl (low6 b1) 12)
                    (N.lor (N.shiftl (low6 b2) 6) (low6 b3))), 4%nat)
    else None
  | _, _ => None
  end.

Definition escapeASCII (c : ascii) : string :=
  if (c =? backslash) || (c =? dquote) then String backslash (String c EmptyString)
  else if (code c =? 8)%N then String backslash "b"
  else if (code c =? 12)%N then String backslash "f"
  else if (code c =? 10)%N then String backslash "n"
  else if (code c =? 13)%N then String backslash "r"
  else if (code c =? 9)%N then String backslash "t"
  else escape00 c.

(** Where the loop of [appendString] stands: at a fresh byte, or inside a
    multi-byte rune whose remaining bytes are copied or dropped. *)
Inductive runeRest : Type := Fresh | CopyRest (n : nat) | DropRest (n : nat).

Definition after (k : nat) (mk : nat -> runeRest) : runeRest :=
  match k with
  | O => Fresh
  | S _ => mk k
  end.

(** A byte that starts no valid rune is written as the six-byte escape of
    U+FFFD, as Go 1.22 writes it. *)
Fixpoint appendStringLoop (m : runeRest) (src : string) : string :=
  match src with
  | EmptyString => EmptyString
  | String c rest =>
    match m with
    | CopyRest (S k) => String c (appendStringLoop (after k CopyRest) rest)
    | DropRest (S k) => appendStringLoop (after k DropRest) rest
    | _ =>
      if (code c <? 128)%N then
        (if htmlSafe c then String c EmptyString else escapeASCII c)
        ++ appendStringLoop Fresh rest
      else
        match decodeRune c rest with
        | None => "\ufffd" ++ appendStringLoop Fresh rest
        | Some (r, size) =>
          if ((r =? 8232) || (r =? 8233))%N
          then "\u202" ++ String (hex (N.land r 15)) (appendStringLoop (after (size - 1) DropRest) rest)
          else String c (appendStringLoop (after (size - 1) CopyRest) rest)
        end
    end
  end.

Definition appendString (src : string) : string :=
  String dquote (appendStringLoop Fresh src ++ String dquote EmptyString).

(** ** Values *)

Definition stringEncoder (s : string) : result := Ok (appendString s).

Definition boolEncoder (b : bool) : result := Ok (if b then "true" else "false").

(** [strconv.AppendInt(_, n, 10)]. *)
Definition intEncoder (n : Z) : result :=
  Ok (if (n <? 0)%Z then "-" ++ Fmt.decimal (Z.to_N (- n)) else Fmt.decimal (Z.to_N n)).

(** [interfaceEncoder]: a nil interface is [null], any other value is encoded
    by its dynamic type. *)
Definition interfaceEncoder {A} (enc : A -> result) (v : option A) : result :=
  match v with
  | None => Ok "null"
  | Some a => enc a
  end.

(** Already encoded items separated by commas; the first error wins. *)
Fixpoint commaSeparated (items : list result) : result :=
  match items with
  | [] => Ok EmptyString
  | r :: rest =>
    do t <- r;
    match rest with
    | [] => Ok t
    | _ => do ts <- commaSeparated rest; Ok (t ++ "," ++ ts)
    end
  end.

(** [sliceEncoder]: a nil slice is [null], any other slice a JSON array. *)
Definition sliceEncoder {A} (enc : A -> result) (s : slice A) : result :=
  match s with
  | None => Ok "null"
  | Some l => do ts <- commaSeparated (List.map enc l); Ok ("[" ++ ts ++ "]")
  end.

(** A struct with the given JSON field names, in field order. *)
Definition member (kv : string * result) : result :=
  do t <- snd kv; Ok (appendString (fst kv) ++ ":" ++ t).

Definition structEncoder (fields : list (string * result)) : result :=
  do ts <- commaSeparated (List.map member fields); Ok ("{" ++ ts ++ "}").

(** Map entries are written in the byte order of their keys. *)
Fixpoint insertEntry {V} (kv : string * V) (sorted : list (string * V)) : list (string * V) :=
  match sorted with
  | [] => [kv]
  | kv' :: rest =>
    if String.leb (fst kv) (fst kv') then kv :: sorted
    else kv' :: insertEntry kv rest
  end.

Definition sortEntries {V} (m : list (string * V)) : list (string * V) :=
  List.fold_right insertEntry [] m.

(** A [map[string]V]: nil, or its entries (with distinct keys, in no
    particular order). *)
Definition gomap (V : Type) : Type := option (list (string * V)).

(** [mapEncoder]: a nil map is [null], any other map a JSON object. *)
Definition mapEncoder {V} (enc : V -> result) (m : gomap V) : result :=
  match m with
  | None => Ok "null"
  | Some entries =>
    structEncoder (sortEntries (List.map (fun kv => (fst kv, enc (snd kv))) entries))
  end.

(** The dynamic values of type [any] this development covers: nil, booleans,
    integers, strings, [[]any], [map[string]any], and a channel, which
    [encoding/json] cannot encode. *)
#[warning="-register-all"]
Inductive any : Type :=
| any_nil
| any_bool (b : bool)
| any_int (n : Z)
| any_string (s : string)
| any_slice (l : slice any)
| any_map (m : gomap any)
| any_chan.

Fixpoint anyEncoder (v : any) : result :=
  match v with
  | any_nil => Ok "null"
  | any_bool b => boolEncoder b
  | any_int n => intEncoder n
  | any_string s => stringEncoder s
  | any_slice l => sliceEncoder anyEncoder l
  | any_map m => mapEncoder anyEncoder m
  | any_chan => Err UnsupportedTypeError
  end.

End Json.

(* ===================================================================== *)
(** * Package geojson *)
(* ===================================================================== *)

Module GeoJSON.
Import Json.

(** ** Position *)

Record Position : Type := mkPosition {
  Longitude : float64;
  Latitude : float64
}.

(** [p == q] on the struct: field by field. *)
Definition Position_eq (p q : Position) : bool :=
  float64_eq (Longitude p) (Longitude q) && float64_eq (Latitude p) (Latitude q).

Definition Position_finite (p : Position) : bool :=
  finite (Longitude p) && finite (Latitude p).

(** [fmt.Sprintf("[%f,%f]", p.Longitude, p.Latitude)], with a nil error. *)
Definition Position_MarshalJSON (p : Position) : result :=
  Ok ("[" ++ Fmt.Sprintf_f (Longitude p) ++ "," ++ Fmt.Sprintf_f (Latitude p) ++ "]").

(** ** Coordinate arrays *)

Record geometryWithCoordinates (C : Type) : Type := mkGeometry {
  Coordinates : C
}.
Arguments mkGeometry {C} _.
Arguments Coordinates {C} _.

Definition LineStringCoordinates : Type := slice Position.
Definition LinearRing : Type := slice Position.
Definition PolygonCoordinates : Type := slice LinearRing.

(** A variadic parameter [cn ...T] is a slice: nil when the call passes no
    argument for it. *)
Definition variadic (T : Type) : Type := slice T.

Definition NewLineStringCoordinates (c0 c1 : Position) (cn : variadic Position)
  : LineStringCoordinates :=
  let coordinates : LineStringCoordinates := make0 (2 + len cn) in
  append (append coordinates [c0; c1]) (elems cn).

(** What a panicking call of the package carries. *)
Inductive panic : Type :=
| InvalidRing (start last : Position) (* start position ... doesn't match end position ... *)
| IndexOutOfRange.                    (* the runtime error of an index expression *)

(** [s[i]]. *)
Definition index {A} (s : slice A) (i : nat) : option A := nth_error (elems s) i.

Definition NewLinearRing (c0 c1 c2 c3 : Position) (cn : variadic Position)
  : outcome LinearRing panic :=
  let coordinates : LinearRing := make0 (4 + len cn) in
  let coordinates := append (append coordinates [c0; c1; c2; c3]) (elems cn) in
  match index coordinates (len coordinates - 1) with
  | None => Panicked IndexOutOfRange
  | Some last =>
    if negb (Position_eq last c0) then Panicked (InvalidRing c0 last)
    else Returned coordinates
  end.

Definition NewPolygonCoordinates (outerBoundary : LinearRing) (holes : variadic LinearRing)
  : PolygonCoordinates :=
  let coordinates : PolygonCoordinates := make0 (1 + len holes) in
  append (append coordinates [outerBoundary]) (elems holes).

(** ** Geometries *)

Definition Point : Type := geometryWithCoordinates Position.
Definition MultiPoint : Type := geometryWithCoordinates (slice Position).
Definition LineString : Type := geometryWithCoordinates LineStringCoordinates.
Definition MultiLineString : Type := geometryWithCoordinates (slice LineStringCoordinates).
Definition Polygon : Type := geometryWithCoordinates PolygonCoordinates.
Definition MultiPolygon : Type := geometryWithCoordinates (slice PolygonCoordinates).

(** A non-nil value of the interface [Geometry]: a pointer to one of the seven
    geometry types.  A slot of type [Geometry] that may hold the nil interface
    is an [option Geometry].  [GeometryCollection] is [[]Geometry]. *)
#[warning="-register-all"]
Inductive Geometry : Type :=
| PointPtr (g : Point)
| MultiPointPtr (g : MultiPoint)
| LineStringPtr (g : LineString)
| MultiLineStringPtr (g : MultiLineString)
| PolygonPtr (g : Polygon)
| MultiPolygonPtr (g : MultiPolygon)
| GeometryCollectionPtr (g : slice (option Geometry)).

Definition GeometryCollection : Type := slice (option Geometry).

Definition NewPoint (p : Position) : Geometry := PointPtr (mkGeometry p).

Definition NewMultiPoint (pn : variadic Position) : Geometry :=
  MultiPointPtr (mkGeometry pn).

Definition NewLineString (c0 c1 : Position) (cn : variadic Position) : Geometry :=
  LineStringPtr (mkGeometry (NewLineStringCoordinates c0 c1 cn)).

Definition NewMultiLineString (coordinates : variadic LineStringCoordinates) : Geometry :=
  MultiLineStringPtr (mkGeometry coordinates).

Definition NewPolygon (outerBoundary : LinearRing) (holes : variadic LinearRing) : Geometry :=
  PolygonPtr (mkGeometry (NewPolygonCoordinates outerBoundary holes)).

Definition NewMultiPolygon (coordinates : variadic PolygonCoordinates) : Geometry :=
  MultiPolygonPtr (mkGeometry coordinates).

Definition NewGeometryCollection (geometries : variadic (option Geometry)) : Geometry :=
  GeometryCollectionPtr geometries.

(** The [Type] methods. *)
Definition Point_Type (g : Point) : string := "Point".
Definition MultiPoint_Type (g : MultiPoint) : string := "MultiPoint".
Definition LineString_Type (g : LineString) : string := "LineString".
Definition MultiLineString_Type (g : MultiLineString) : string := "MultiLineString".
Definition Polygon_Type (g : Polygon) : string := "Polygon".
Definition MultiPolygon_Type (g : MultiPolygon) : string := "MultiPolygon".
Definition GeometryCollection_Type (g : GeometryCollection) : string := "GeometryCollection".

(** [g.Type()] on a value of the interface. *)
Definition Geometry_Type (g : Geometry) : string :=
  match g with
  | PointPtr p => Point_Type p
  | MultiPointPtr p => MultiPoint_Type p
  | LineStringPtr p => LineString_Type p
  | MultiLineStringPtr p => MultiLineString_Type p
  | PolygonPtr p => Polygon_Type p
  | MultiPolygonPtr p => MultiPolygon_Type p
  | GeometryCollectionPtr p => GeometryCollection_Type p
  end.

(** How [encoding/json] writes the coordinate types. *)
Definition encodePosition (p : Position) : result :=
  marshalerEncoder (Position_MarshalJSON p).

Definition encodePositions : slice Position -> result := sliceEncoder encodePosition.

Definition encodePositions2 : slice (slice Position) -> result :=
  sliceEncoder encodePositions.

Definition encodePositions3 : slice (slice (slice Position)) -> result :=
  sliceEncoder encodePositions2.

(** [json.Marshal] of the struct with the fields [type] and [coordinates];
    [encodeC] is the encoder of the coordinate type [C]. *)
Definition marshalGeoJSONGeometryWithCoordinates {C} (encodeC : C -> result)
    (g : Geometry) (c : C) : result :=
  structEncoder [("type", stringEncoder (Geometry_Type g)); ("coordinates", encodeC c)].

(** The [MarshalJSON] methods.  [GeometryCollection] has none. *)
Definition Point_MarshalJSON (g : Point) : result :=
  marshalGeoJSONGeometryWithCoordinates encodePosition (PointPtr g) (Coordinates g).

Definition MultiPoint_MarshalJSON (g : MultiPoint) : result :=
  marshalGeoJSONGeometryWithCoordinates encodePositions (MultiPointPtr g) (Coordinates g).

Definition LineString_MarshalJSON (g : LineString) : result :=
  marshalGeoJSONGeometryWithCoordinates encodePositions (LineStringPtr g) (Coordinates g).

Definition MultiLineString_MarshalJSON (g : MultiLineString) : result :=
  marshalGeoJSONGeometryWithCoordinates encodePositions2 (MultiLineStringPtr g) (Coordinates g).

Definition Polygon_MarshalJSON (g : Polygon) : result :=
  marshalGeoJSONGeometryWithCoordinates encodePositions2 (PolygonPtr g) (Coordinates g).

Definition MultiPolygon_MarshalJSON (g : MultiPolygon) : result :=
  marshalGeoJSONGeometryWithCoordinates encodePositions3 (MultiPolygonPtr g) (Coordinates g).

(** [encoding/json] on a non-nil [Geometry]: the six types with a
    [MarshalJSON] method are written by it, a [*GeometryCollection] is written
    as the slice it points to. *)
Fixpoint encodeGeometry (g : Geometry) : result :=
  match g with
  | PointPtr p => marshalerEncoder (Point_MarshalJSON p)
  | MultiPointPtr p => marshalerEncoder (MultiPoint_MarshalJSON p)
  | LineStringPtr p => marshalerEncoder (LineString_MarshalJSON p)
  | MultiLineStringPtr p => marshalerEncoder (MultiLineString_MarshalJSON p)
  | PolygonPtr p => marshalerEncoder (Polygon_MarshalJSON p)
  | MultiPolygonPtr p => marshalerEncoder (MultiPolygon_MarshalJSON p)
  | GeometryCollectionPtr gs => sliceEncoder (interfaceEncoder encodeGeometry) gs
  end.

(** ** Features *)

Record Feature : Type := mkFeature {
  Feature_Geometry : option Geometry;
  Properties : gomap any
}.

Definition NewFeature (geometry : option Geometry) (properties : gomap any) : Feature :=
  mkFeature geometry properties.

(** The [ToFeature] methods: each is [Feature{g, properties}]. *)
Definition Point_ToFeature (g : Point) (properties : gomap any) : Feature :=
  mkFeature (Some (PointPtr g)) properties.
Definition MultiPoint_ToFeature (g : MultiPoint) (properties : gomap any) : Feature :=
  mkFeature (Some (MultiPointPtr g)) properties.
Definition LineString_ToFeature (g : LineString) (properties : gomap any) : Feature :=
  mkFeature (Some (LineStringPtr g)) properties.
Definition MultiLineString_ToFeature (g : MultiLineString) (properties : gomap any) : Feature :=
  mkFeature (Some (MultiLineStringPtr g)) properties.
Definition Polygon_ToFeature (g : Polygon) (properties : gomap any) : Feature :=
  mkFeature (Some (PolygonPtr g)) properties.
Definition MultiPolygon_ToFeature (g : MultiPolygon) (properties : gomap any) : Feature :=
  mkFeature (Some (MultiPolygonPtr g)) properties.
Definition GeometryCollection_ToFeature (g : GeometryCollection) (properties : gomap any)
  : Feature :=
  mkFeature (Some (GeometryCollectionPtr g)) properties.

(** [g.ToFeature(properties)] on a value of the interface. *)
Definition ToFeature (g : Geometry) (properties : gomap any) : Feature :=
  match g with
  | PointPtr p => Point_ToFeature p properties
  | MultiPointPtr p => MultiPoint_ToFeature p properties
  | LineStringPtr p => LineString_ToFeature p properties
  | MultiLineStringPtr p => MultiLineString_ToFeature p properties
  | PolygonPtr p => Polygon_ToFeature p properties
  | MultiPolygonPtr p => MultiPolygon_ToFeature p properties
  | GeometryCollectionPtr p => GeometryCollection_ToFeature p properties
  end.

Definition Feature_Type (f : Feature) : string := "Feature".

(** The two fields of [Feature], and of its method-less copy [Raw]. *)
Definition Feature_fields (f : Feature) : list (string * result) :=
  [("geometry", interfaceEncoder encodeGeometry (Feature_Geometry f));
   ("properties", mapEncoder anyEncoder (Properties f))].

(** [MarshalJSON] has the receiver [*Feature]: [json.Marshal] of the struct
    made of [Type] and the embedded [*Raw]. *)
Definition Feature_MarshalJSON (f : Feature) : result :=
  structEncoder (("type", stringEncoder (Feature_Type f)) :: Feature_fields f).

(** [encoding/json] on a [Feature] it can take the address of (a [*Feature],
    an element of a slice): the method is called. *)
Definition encodeFeatureAddr (f : Feature) : result :=
  marshalerEncoder (Feature_MarshalJSON f).

(** [encoding/json] on a [Feature] it cannot take the address of (a [Feature]
    held in an interface): the method set of [Feature] has no [MarshalJSON], so
    the value is written as a plain struct. *)
Definition encodeFeatureValue (f : Feature) : result :=
  structEncoder (Feature_fields f).

(** ** Feature collections *)

Definition FeatureCollection : Type := slice Feature.

Definition NewFeatureCollection (features : variadic Feature) : FeatureCollection :=
  features.

Definition FeatureCollection_Type (c : FeatureCollection) : string := "FeatureCollection".

(** [append(c, features...)], as a value. *)
Definition With (c : FeatureCollection) (features : variadic Feature) : FeatureCollection :=
  append c (elems features).

Definition FeatureCollection_MarshalJSON (c : FeatureCollection) : result :=
  structEncoder [("type", stringEncoder (FeatureCollection_Type c));
                 ("features", sliceEncoder encodeFeatureAddr c)].

(** ** Objects and ToText *)

(** A non-nil value of the interface [Object].  [Type] has a value receiver on
    [Feature], so both [Feature] and [*Feature] are Objects; it has a pointer
    receiver on [FeatureCollection], so only [*FeatureCollection] is. *)
Inductive Object : Type :=
| GeometryObject (g : Geometry)
| FeatureValue (f : Feature)
| FeaturePtr (f : Feature)
| FeatureCollectionPtr (c : FeatureCollection).

(** [json.Marshal(o)]. *)
Definition ToText (o : option Object) : result :=
  match o with
  | None => Ok "null"
  | Some (GeometryObject g) => encodeGeometry g
  | Some (FeatureValue f) => encodeFeatureValue f
  | Some (FeaturePtr f) => encodeFeatureAddr f
  | Some (FeatureCollectionPtr c) => marshalerEncoder (FeatureCollection_MarshalJSON c)
  end.

(** Expected texts are written with an apostrophe for each double quote. *)
Fixpoint json (s : string) : string :=
  match s with
  | EmptyString => EmptyString
  | String c rest => String (if (c =? "'")%char then dquote else c) (json rest)
  end.

(** The float64 values 0, 1, 2 and 4, and a NaN. *)
Definition f0 : float64 := S754_zero false.
Definition f1 : float64 := S754_finite false 4503599627370496 (-52).
Definition f2 : float64 := S754_finite false 4503599627370496 (-51).
Definition f4 : float64 := S754_finite false 4503599627370496 (-50).
Definition NaN : float64 := S754_nan.

End GeoJSON.


(* ===================================================================== *)
(** * Slices over shared backing arrays *)
(* ===================================================================== *)

Module SliceStore.
#[local] Open Scope list_scope.

(** The store: the backing arrays, by address. *)
Abbreviation store A := (list (list A)).

Section Store.

Context {A : Type}.

(** The zero value of the element type, which fills a fresh array. *)
Variable zero : A.

(** The capacity the runtime adds beyond what is needed when [append] has to
    allocate, from the old capacity and the needed length.  The language only
    promises a sufficiently large array. *)
Variable growslice : nat -> nat -> nat.

(** A slice header: the array it points into ([None] for the nil slice), the
    index of its first element there, its length and its capacity. *)
Record header : Type := mkHeader {
  array : option nat;
  offset : nat;
  hlen : nat;
  hcap : nat
}.

Definition nil_slice : header := mkHeader None 0 0 0.

(** A header is well formed in a store when its length is within its
    capacity and its capacity within its array. *)
Definition well_formed (st : store A) (s : header) : bool :=
  (hlen s <=? hcap s)%nat &&
  match array s with
  | None => (hcap s =? 0)%nat
  | Some p =>
    match st !! p with
    | Some a => (offset s + hcap s <=? length a)%nat
    | None => false
    end
  end.

(** The elements [s[0], ..., s[len(s)-1]]. *)
Definition read (st : store A) (s : header) : list A :=
  match array s with
  | None => []
  | Some p =>
    match st !! p with
    | Some a => take (hlen s) (drop (offset s) a)
    | None => []
    end
  end.

(** The slice as a value: nil, or its elements. *)
Definition view (st : store A) (s : header) : slice A :=
  match array s with
  | None => None
  | Some _ => Some (read st s)
  end.

(** Overwrite the cells [i, i+1, ...] of the array at [p] with [xs]. *)
Definition write (st : store A) (p i : nat) (xs : list A) : store A :=
  match st !! p with
  | Some a => <[p := take i a ++ xs ++ drop (i + length xs) a]> st
  | None => st
  end.

(** [append(s, xs...)]: within capacity the new elements are written into the
    array of [s], after its last element, and the result shares that array;
    otherwise the elements of [s] and [xs] are copied to a fresh array. *)
Definition append (st : store A) (s : header) (xs : list A) : store A * header :=
  let needed := hlen s + length xs in
  if (needed <=? hcap s)%nat then
    match array s with
    | Some p =>
      (write st p (offset s + hlen s) xs, mkHeader (Some p) (offset s) needed (hcap s))
    | None => (st, s)
    end
  else
    let newcap := needed + growslice (hcap s) needed in
    (st ++ [read st s ++ xs ++ replicate (newcap - needed) zero],
     mkHeader (Some (length st)) 0 needed newcap).

(** [c.With(features...)] is [append(c, features...)]: the elements of
    [features] are read, then appended. *)
Definition With (st : store A) (c features : header) : store A * header :=
  append st c (read st features).

End Store.
End SliceStore.

(* ===================================================================== *)
(** * Notions used in the statements *)
(* ===================================================================== *)

Import Json GeoJSON.

(** ** Sample values *)

(** The zero value of [Feature]: a nil geometry and a nil map. *)
Definition zeroFeature : Feature := mkFeature None None.

Definition origin : Position := mkPosition f0 f0.
Definition p12 : Position := mkPosition f1 f2.

(** The ring (0,0) (4,0) (4,4) (0,4) (0,0). *)
Definition squareRing : LinearRing :=
  Some [origin; mkPosition f4 f0; mkPosition f4 f4; mkPosition f0 f4; origin].

Definition namedX : gomap any := Some [("name", any_string "x")].

Definition featureA : Feature := ToFeature (NewPoint origin) None.
Definition featureB : Feature := ToFeature (NewPoint p12) None.
Definition featureC : Feature := ToFeature (NewPoint p12) namedX.

(** A store with one array of capacity three holding one feature, and two
    one-element arrays that hold the features to append. *)
Definition sampleStore : SliceStore.store Feature :=
  [[featureA; zeroFeature; zeroFeature]; [featureB]; [featureC]].

Definition sliceA : SliceStore.header := SliceStore.mkHeader (Some 0) 0 1 3.
Definition sliceB : SliceStore.header := SliceStore.mkHeader (Some 1) 0 1 1.
Definition sliceC : SliceStore.header := SliceStore.mkHeader (Some 2) 0 1 1.

(** A growth policy: as much spare capacity as the needed length. *)
Definition doubling (oldcap needed : nat) : nat := needed.

(** ** Finite coordinates *)

Definition Positions_finite (s : slice Position) : bool :=
  forallb Position_finite (elems s).

Definition Positions2_finite (s : slice (slice Position)) : bool :=
  forallb Positions_finite (elems s).

Definition Positions3_finite (s : slice (slice (slice Position))) : bool :=
  forallb Positions2_finite (elems s).

(** Every coordinate reachable from the geometry is neither a NaN nor an
    infinity. *)
Fixpoint Geometry_finite (g : Geometry) : bool :=
  match g with
  | PointPtr p => Position_finite (Coordinates p)
  | MultiPointPtr p => Positions_finite (Coordinates p)
  | LineStringPtr p => Positions_finite (Coordinates p)
  | MultiLineStringPtr p => Positions2_finite (Coordinates p)
  | PolygonPtr p => Positions2_finite (Coordinates p)
  | MultiPolygonPtr p => Positions3_finite (Coordinates p)
  | GeometryCollectionPtr gs =>
    match gs with
    | None => true
    | Some l => forallb (fun o => match o with
                                  | None => true
                                  | Some g' => Geometry_finite g'
                                  end) l
    end
  end.

Definition isCollection (g : Geometry) : bool :=
  match g with
  | GeometryCollectionPtr _ => true
  | _ => false
  end.

(** ** Texts *)

(** The text [Position.MarshalJSON] returns. *)
Definition positionText (p : Position) : string :=
  "[" ++ Fmt.Sprintf_f (Longitude p) ++ "," ++ Fmt.Sprintf_f (Latitude p) ++ "]".

(** Texts separated by commas. *)
Fixpoint joinComma (ts : list string) : string :=
  match ts with
  | [] => EmptyString
  | t :: rest =>
    match rest with
    | [] => t
    | _ :: _ => t ++ "," ++ joinComma rest
    end
  end.

(** The text of a struct with the members [type] and [coordinates]. *)
Definition geometryText (T c : string) : string :=
  "{" ++ ((appendString "type" ++ ":" ++ appendString T) ++ ","
          ++ (appendString "coordinates" ++ ":" ++ c)) ++ "}".

(** The same text up to the coordinates. *)
Definition geometryPrefix (T : string) : string :=
  "{" ++ appendString "type" ++ ":" ++ appendString T ++ ","
      ++ appendString "coordinates" ++ ":".

(** The seven discriminators. *)
Definition typeNames : list string :=
  ["Point"; "MultiPoint"; "LineString"; "MultiLineString"; "Polygon"; "MultiPolygon";
   "GeometryCollection"].

(** The members of the object written for a non-nil map: each entry as
    key, colon, value, in the byte order of the keys. *)
Definition propertyMembers (entries : list (string * any)) : result :=
  commaSeparated
    (List.map member (sortEntries (List.map (fun kv => (fst kv, anyEncoder (snd kv))) entries))).

(** ** Runs of the scanner *)

(** Running the scanner over a text. *)
Fixpoint scan (s : scanner) (src : string) : scanner :=
  match src with
  | EmptyString => s
  | String c rest => scan (fst (scan_step s c)) rest
  end.

(** A byte that is no space, is never escaped by [appendCompact], and
    neither opens nor closes a string literal nor starts an escape in one. *)
Definition plain (c : ascii) : bool :=
  negb (isSpace c) && negb (isHTMLbyte c) && negb (code c =? 226)%N
  && negb (c =? dquote)%char && negb (c =? backslash)%char.

Fixpoint all_plain (s : string) : bool :=
  match s with
  | EmptyString => true
  | String c rest => plain c && all_plain rest
  end.

Fixpoint all_digits (s : string) : bool :=
  match s with
  | EmptyString => true
  | String c rest => isDigit c && all_digits rest
  end.

(** The digits of a number in normal form: a lone zero, or a first digit
    from 1 to 9. *)
Definition nonzero_head (u : uint) : bool :=
  match u with
  | Nil | D0 _ => false
  | _ => true
  end.

(** The error state is only entered with the error recorded. *)
Definition consistent (s : scanner) : Prop := step s = stateError -> err s = true.

(** The scanner in state [f] under the enclosing [ps], with no error. *)
Definition at_state (f : stepfn) (ps : list parseKind) : scanner :=
  mkScanner f ps false false.

(** The states in which a value may start. *)
Definition begins (f : stepfn) : Prop :=
  f = stateBeginValue \/ f = stateBeginValueOrEmpty.

(** [d] more levels fit above the enclosing [ps]. *)
Definition fits (ps : list parseKind) (d : N) : Prop :=
  (N.of_nat (List.length ps) + d <= maxNestingDepth)%N.

(** The scanner after the array or object enclosed by [ps] has been closed. *)
Definition closed (ps : list parseKind) : scanner :=
  match ps with
  | [] => mkScanner stateEndTop [] false true
  | _ :: _ => at_state stateEndValue ps
  end.

(** A value text of nesting depth at most [d]: inside any array or object
    with room for [d] levels, the scanner reads it from the start of a value
    to the end of a value. *)
Definition accepted (d : N) (t : string) : Prop :=
  forall f k ps, begins f -> fits (k :: ps) d ->
    scan (at_state f (k :: ps)) t = at_state stateEndValue (k :: ps).

(** Where a scanner stands with respect to string literals: outside of
    them, inside one, or inside an escape sequence. *)
Inductive inString : Type :=
| Outside | Inside | Escape | EscapeU | EscapeU1 | EscapeU12 | EscapeU123.

Definition position (s : scanner) : inString :=
  match step s with
  | stateInString => Inside
  | stateInStringEsc => Escape
  | stateInStringEscU => EscapeU
  | stateInStringEscU1 => EscapeU1
  | stateInStringEscU12 => EscapeU12
  | stateInStringEscU123 => EscapeU123
  | _ => Outside
  end.

(** How a byte moves that position, when the scanner does not reject it. *)
Definition move (a : inString) (c : ascii) : inString :=
  match a with
  | Outside => if (c =? dquote)%char then Inside else Outside
  | Inside =>
    if (c =? dquote)%char then Outside
    else if (c =? backslash)%char then Escape else Inside
  | Escape => if (c =? "u")%char then EscapeU else Inside
  | EscapeU => EscapeU1
  | EscapeU1 => EscapeU12
  | EscapeU12 => EscapeU123
  | EscapeU123 => Inside
  end.

Fixpoint moves (a : inString) (t : string) : inString :=
  match t with
  | EmptyString => a
  | String c rest => moves (move a c) rest
  end.

(** A text [appendCompact] copies byte for byte when read from position [a]:
    no byte [<], [>] or [&], no byte 226 unless two bytes follow that do not
    make it U+2028 or U+2029, and spaces only inside string literals. *)
Fixpoint kept (a : inString) (t : string) : bool :=
  match t with
  | EmptyString => true
  | String c rest =>
    negb (isHTMLbyte c)
    && (if (code c =? 226)%N then
          match rest with
          | String c1 (String c2 _) =>
            negb ((code c1 =? 128) && ((code c2 =? 168) || (code c2 =? 169)))%N
          | _ => false
          end
        else true)
    && (negb (isSpace c) || match a with Inside => true | _ => false end)
    && kept (move a c) rest
  end.

(** A kept text whose string literals are all closed. *)
Definition balanced (t : string) : Prop :=
  kept Outside t = true /\ moves Outside t = Outside.

(** Kept from inside a string literal, and back inside it at the end. *)
Definition inside_ok (t : string) : Prop :=
  kept Inside t = true /\ moves Inside t = Inside.

(** A continuation byte of a rune. *)
Definition continuation (b : ascii) : Prop := in_range 128 191 b = true.

(** An encoding that succeeded with a plain text of depth at most [d]. *)
Definition good (d : N) (r : result) : Prop :=
  exists t, r = Ok t /\ all_plain t = true /\ accepted d t.

(** ** Reference texts *)

(** The text of a slice whose elements are written by [text]: [null] for the
    nil slice, otherwise the bracketed texts of the elements in order. *)
Definition arrayText {A} (text : A -> string) (s : slice A) : string :=
  match s with
  | None => "null"
  | Some l => "[" ++ joinComma (List.map text l) ++ "]"
  end.

(** The object with the members [type] and [coordinates]. *)
Definition objectText (T c : string) : string :=
  json "{'type':'" ++ T ++ json "','coordinates':" ++ c ++ "}".

(** The text of a geometry, written out directly: the six coordinate types as
    objects, a collection as the array of its members. *)
Fixpoint geometryJSON (g : Geometry) : string :=
  match g with
  | PointPtr p => objectText "Point" (positionText (Coordinates p))
  | MultiPointPtr p => objectText "MultiPoint" (arrayText positionText (Coordinates p))
  | LineStringPtr p => objectText "LineString" (arrayText positionText (Coordinates p))
  | MultiLineStringPtr p =>
    objectText "MultiLineString" (arrayText (arrayText positionText) (Coordinates p))
  | PolygonPtr p => objectText "Polygon" (arrayText (arrayText positionText) (Coordinates p))
  | MultiPolygonPtr p =>
    objectText "MultiPolygon" (arrayText (arrayText (arrayText positionText)) (Coordinates p))
  | GeometryCollectionPtr gs =>
    arrayText (fun o => match o with
                        | Some g' => geometryJSON g'
                        | None => "null"
                        end) gs
  end.

(** ** Dynamic values that can be written *)

(** No channel anywhere in the value. *)
Fixpoint encodable (v : any) : bool :=
  match v with
  | any_chan => false
  | any_slice l =>
    match l with
    | None => true
    | Some vs => forallb encodable vs
    end
  | any_map m =>
    match m with
    | None => true
    | Some entries => forallb (fun kv => encodable (snd kv)) entries
    end
  | _ => true
  end.

(** No channel anywhere in the values of a property map. *)
Definition properties_encodable (m : gomap any) : bool := encodable (any_map m).

(** ** Coordinates and texts *)

(** Neither of the two zeros. *)
Definition nonzero (x : float64) : bool :=
  match x with
  | S754_zero _ => false
  | _ => true
  end.

(** A finite value [m * 2^e] of magnitude below half a millionth. *)
Definition below_half_micro (m : positive) (e : Z) : bool :=
  (e <? 0)%Z && (2 * (Z.pos m * 1000000) <? 2 ^ (- e))%Z.

(** Some byte of the text satisfies [P]. *)
Fixpoint has_byte (P : ascii -> bool) (t : string) : bool :=
  match t with
  | EmptyString => false
  | String c rest => P c || has_byte P rest
  end.

(** [json.Valid]: the scanner reads the whole text without an error and the
    text ends where a top-level value ends. *)
Definition Valid (t : string) : bool := eof (scan newScanner t).

(** The Objects whose text passes through the check of [encoding/json]: those
    written by a [MarshalJSON] method. *)
Definition written_by_method (o : Object) : bool :=
  match o with
  | GeometryObject g => negb (isCollection g)
  | FeatureValue _ => false
  | FeaturePtr _ => true
  | FeatureCollectionPtr _ => true
  end.

(** ** Values the scanner reads *)

(** The states in which a value has just ended: after its closing byte or
    its last letter, or in the digits of an integer, which only the next byte
    ends. *)
Definition value_ended (f : stepfn) : Prop :=
  f = stateEndValue \/ f = state0 \/ f = state1.

(** A value text of nesting depth at most [d], an integer included: inside
    any array or object with room for [d] levels, the scanner reads it from
    the start of a value to its end. *)
Definition taken (d : N) (t : string) : Prop :=
  forall f k ps, begins f -> fits (k :: ps) d ->
    exists f', value_ended f' /\ scan (at_state f (k :: ps)) t = at_state f' (k :: ps).

(** The text of an array or an object of nesting depth at most [d]: wherever
    [d] levels fit, at the top level too, the scanner reads it from the start
    of a value to the byte that closes it. *)
Definition bracketed (d : N) (t : string) : Prop :=
  forall f ps, begins f -> fits ps d -> scan (at_state f ps) t = closed ps.

(** The state of the scanner at a position in a string literal. *)
Definition state_of (a : inString) : stepfn :=
  match a with
  | Outside => stateEndValue
  | Inside => stateInString
  | Escape => stateInStringEsc
  | EscapeU => stateInStringEscU
  | EscapeU1 => stateInStringEscU1
  | EscapeU12 => stateInStringEscU12
  | EscapeU123 => stateInStringEscU123
  end.

(** The bytes the scanner lets through at a position in a string literal,
    the closing quote apart. *)
Definition passes (a : inString) (c : ascii) : bool :=
  match a with
  | Outside => false
  | Inside => negb (c =? dquote)%char && negb (code c <? 32)%N
  | Escape =>
    ((c =? "b") || (c =? "f") || (c =? "n") || (c =? "r") || (c =? "t")
     || (c =? backslash) || (c =? "/") || (c =? dquote) || (c =? "u"))%char
  | _ => isHex c
  end.

(** A text the scanner lets through from position [a] in a string literal. *)
Fixpoint body (a : inString) (t : string) : bool :=
  match t with
  | EmptyString => true
  | String c rest => passes a c && body (move a c) rest
  end.

(** A member of an object: the quoted key, a colon, the value. *)
Definition memberText (kv : string * string) : string :=
  appendString (fst kv) ++ ":" ++ snd kv.


(** ** Nesting depths *)

(** The largest depth among the elements of a list. *)
Definition max_depth {A} (depth : A -> N) (l : list A) : N :=
  List.fold_right (fun x d => N.max (depth x) d) 0%N l.

(** The nesting depth of the text of a dynamic value. *)
Fixpoint any_depth (v : any) : N :=
  match v with
  | any_slice (Some vs) => (max_depth any_depth vs + 1)%N
  | any_map (Some entries) => (max_depth (fun kv => any_depth (snd kv)) entries + 1)%N
  | _ => 0%N
  end.

(** A bound on the nesting depth of the text of a geometry: the object and
    its coordinate arrays for the six coordinate types, one more than the
    deepest member for a collection. *)
Fixpoint Geometry_depth (g : Geometry) : N :=
  match g with
  | PointPtr _ => 2
  | MultiPointPtr _ | LineStringPtr _ => 3
  | MultiLineStringPtr _ | PolygonPtr _ => 4
  | MultiPolygonPtr _ => 5
  | GeometryCollectionPtr gs =>
    match gs with
    | None => 0
    | Some l => max_depth (fun o => match o with
                                    | Some g' => Geometry_depth g'
                                    | None => 0
                                    end) l + 1
    end
  end%N.

(** A bound on the nesting depth of the text of a Feature: the object
    around its geometry and its properties. *)
Definition Feature_depth (f : Feature) : N :=
  (N.max (match Feature_Geometry f with
          | Some g => Geometry_depth g
          | None => 0
          end)
         (any_depth (any_map (Properties f))) + 1)%N.

(** A bound on the nesting depth of the text of a collection: the object and
    the array around its features. *)
Definition FeatureCollection_depth (c : FeatureCollection) : N :=
  (max_depth Feature_depth (elems c) + 1 + 1)%N.

(** A Feature [encoding/json] can write: finite coordinates and no channel
    among the properties. *)
Definition Feature_writable (f : Feature) : bool :=
  match Feature_Geometry f with
  | Some g => Geometry_finite g
  | None => true
  end && properties_encodable (Properties f).

(** ** The order of map entries *)

(** The order in which [encoding/json] writes the entries of a map: the byte
    order of the keys. *)
Definition key_le {V} (kv kv' : string * V) : Prop :=
  String.leb (fst kv) (fst kv') = true.

(** ** Deeply nested properties *)

(** [nil] inside [n] one-element slices. *)
Definition nested (n : nat) : any :=
  Nat.iter n (fun v => any_slice (Some [v])) any_nil.

(** The Feature without a geometry whose only property holds [nested n]. *)
Definition deepFeature (n : nat) : Feature :=
  NewFeature None (Some [("a", nested n)]).

(* ===================================================================== *)
(** * Properties *)
(* ===================================================================== *)

(** ** FeatureCollection.With over the store *)

Section WithStore.

#[local] Open Scope list_scope.

Context {A : Type} (zero : A) (growslice : nat -> nat -> nat).

Import SliceStore.

Lemma well_formed_inv (st : store A) (s : header) :
  well_formed st s = true ->
  hlen s <= hcap s /\
  match array s with
  | None => hcap s = 0
  | Some p => exists a, st !! p = Some a /\ offset s + hcap s <= length a
  end.
Proof.
  unfold well_formed. intros H. apply andb_prop in H as [Hle Harr].
  apply Nat.leb_le in Hle. split; [exact Hle|].
  destruct (array s) as [p|].
  - destruct (st !! p) as [a|]; [|discriminate].
    exists a. split; [reflexivity|]. now apply Nat.leb_le.
  - now apply Nat.eqb_eq.
Qed.

Lemma read_length (st : store A) (s : header) :
  well_formed st s = true -> length (read st s) = hlen s.
Proof.
  intros H. apply well_formed_inv in H as [Hle Harr]. unfold read.
  destruct (array s) as [p|].
  - destruct Harr as (a & -> & Hcap).
    rewrite length_take, length_drop. lia.
  - simpl. lia.
Qed.

Lemma read_prefix_app (a : list A) (off n : nat) (xs rest : list A) :
  off + n <= length a ->
  drop off (take (off + n) a ++ xs ++ rest) = take n (drop off a) ++ xs ++ rest.
Proof.
  intros Hlen.
  rewrite drop_app_le by (rewrite length_take; lia).
  f_equal. revert off Hlen. induction a as [|x a IH]; intros [|off] Hlen; simpl in *.
  - now rewrite take_nil.
  - now rewrite take_nil.
  - reflexivity.
  - apply IH. lia.
Qed.

Lemma write_lookup (st : store A) (p i : nat) (xs a : list A) :
  st !! p = Some a ->
  write st p i xs !! p = Some (take i a ++ xs ++ drop (i + length xs) a).
Proof.
  intros Hp. unfold write. rewrite Hp.
  apply list_lookup_insert_eq. now apply lookup_lt_Some in Hp.
Qed.

(** Appending within capacity: the result reads as the old elements followed
    by the new ones, and the receiver reads as before. *)
Lemma append_in_place (st : store A) (s : header) (xs a : list A) (p : nat) :
  array s = Some p -> st !! p = Some a ->
  hlen s + length xs <= hcap s -> offset s + hcap s <= length a ->
  let st' := write st p (offset s + hlen s) xs in
  let r := mkHeader (Some p) (offset s) (hlen s + length xs) (hcap s) in
  read st' r = read st s ++ xs /\ read st' s = read st s /\ well_formed st' r = true.
Proof.
  intros Hs Hp Hfit Hcap st' r.
  pose proof (write_lookup st p (offset s + hlen s) xs a Hp) as Hw.
  fold st' in Hw.
  assert (Hpre : offset s + hlen s <= length a) by lia.
  unfold read, well_formed. subst r. simpl. rewrite Hs, Hw, Hp.
  rewrite (read_prefix_app a (offset s) (hlen s) xs _ Hpre).
  assert (Hl : length (take (hlen s) (drop (offset s) a)) = hlen s)
    by (rewrite length_take, length_drop; lia).
  repeat split.
  - rewrite app_assoc. apply take_app_length'. rewrite length_app. lia.
  - rewrite take_app_le by lia. now rewrite take_take, Nat.min_id.
  - apply andb_true_intro. split; apply Nat.leb_le; [lia|].
    rewrite !length_app, length_take, length_drop. lia.
Qed.

(** Appending beyond capacity: the result lives in a fresh array and no
    existing array changes. *)
Lemma append_fresh (st : store A) (s : header) (xs : list A) (extra : nat) :
  well_formed st s = true ->
  let needed := hlen s + length xs in
  let st' := st ++ [read st s ++ xs ++ replicate extra zero] in
  let r := mkHeader (Some (length st)) 0 needed (needed + extra) in
  read st' r = read st s ++ xs /\ read st' s = read st s /\ well_formed st' r = true.
Proof.
  intros Hwf needed st' r.
  pose proof (read_length st s Hwf) as Hlen.
  apply well_formed_inv in Hwf as [Hle Harr].
  assert (Hnew : st' !! length st = Some (read st s ++ xs ++ replicate extra zero)).
  { subst st'. rewrite lookup_app_r by lia. now rewrite Nat.sub_diag. }
  repeat split.
  - unfold read at 1. subst r. simpl. rewrite Hnew. rewrite drop_0, app_assoc.
    apply take_app_length'. rewrite length_app. subst needed. lia.
  - unfold read. destruct (array s) as [p|]; [|reflexivity].
    destruct Harr as (a & Hp & _). subst st'.
    rewrite (lookup_app_l_Some _ _ _ _ Hp). now rewrite Hp.
  - unfold well_formed. subst r. simpl. rewrite Hnew.
    apply andb_true_intro. split; apply Nat.leb_le; [lia|].
    rewrite !length_app, length_replicate. subst needed. lia.
Qed.

Lemma append_spec (st : store A) (s : header) (xs : list A) :
  well_formed st s = true ->
  forall st' r, append zero growslice st s xs = (st', r) ->
  read st' r = read st s ++ xs /\
  hlen r = hlen s + length xs /\
  read st' s = read st s /\
  view st' r = GoValues.append (view st s) xs /\
  well_formed st' r = true.
Proof.
  intros Hwf st' r. unfold append.
  destruct (Nat.leb_spec (hlen s + length xs) (hcap s)) as [Hfit|Hgrow].
  - pose proof Hwf as Hwf'. apply well_formed_inv in Hwf' as [Hle Harr].
    destruct (array s) as [p|] eqn:Hs.
    + destruct Harr as (a & Hp & Hcap). intros [= <- <-].
      destruct (append_in_place st s xs a p Hs Hp Hfit Hcap) as (Hr & Hc & Hw).
      repeat split; try assumption.
      unfold view at 1 2. simpl. rewrite Hs, Hr.
      unfold GoValues.append. simpl. now destruct xs.
    + intros [= <- <-]. assert (xs = []) as -> by (destruct xs; simpl in *; [reflexivity|lia]).
      unfold read, view. rewrite Hs. simpl. repeat split; try lia; assumption.
  - intros [= <- <-].
    destruct (append_fresh st s xs (growslice (hcap s) (hlen s + length xs)) Hwf)
      as (Hr & Hc & Hw).
    replace (hlen s + length xs + growslice (hcap s) (hlen s + length xs)
             - (hlen s + length xs))
      with (growslice (hcap s) (hlen s + length xs)) by lia.
    repeat split; try assumption.
    unfold view at 1. simpl. rewrite Hr.
    unfold GoValues.append, view.
    destruct (array s) eqn:Hs; simpl.
    + now destruct xs.
    + unfold read. rewrite Hs. simpl. destruct xs; [simpl in *|reflexivity].
      apply well_formed_inv in Hwf as [Hle Harr]. rewrite Hs in Harr. lia.
Qed.

End WithStore.

(** ** The coordinate-array builders *)

Section Builders.

#[local] Open Scope list_scope.

Lemma NewLineStringCoordinates_unfold (c0 c1 : Position) (cn : variadic Position) :
  NewLineStringCoordinates c0 c1 cn = Some (c0 :: c1 :: elems cn).
Proof. destruct cn as [[|c cn]|]; reflexivity. Qed.

Lemma NewPolygonCoordinates_unfold (outerBoundary : LinearRing) (holes : variadic LinearRing) :
  NewPolygonCoordinates outerBoundary holes = Some (outerBoundary :: elems holes).
Proof. destruct holes as [[|h holes]|]; reflexivity. Qed.

(** C7: the builders keep their arguments in input order:
    [NewLineStringCoordinates(first, second, rest...)] is first, second,
    rest... and has length 2 + len(rest); [NewPolygonCoordinates(outer,
    holes...)] is outer, holes... and has length 1 + len(holes). *)
Theorem builders_keep_input_order :
  forall (c0 c1 : Position) (cn : variadic Position)
         (outerBoundary : LinearRing) (holes : variadic LinearRing),
    NewLineStringCoordinates c0 c1 cn = Some (c0 :: c1 :: elems cn) /\
    len (NewLineStringCoordinates c0 c1 cn) = 2 + len cn /\
    NewPolygonCoordinates outerBoundary holes = Some (outerBoundary :: elems holes) /\
    len (NewPolygonCoordinates outerBoundary holes) = 1 + len holes.
Proof.
  intros c0 c1 cn outerBoundary holes.
  rewrite NewLineStringCoordinates_unfold, NewPolygonCoordinates_unfold.
  repeat split.
Qed.

Lemma nth_error_last {T} (x d : T) (l : list T) :
  nth_error (x :: l) (List.length l) = Some (List.last (x :: l) d).
Proof.
  revert x. induction l as [|y l IH]; intros x; [reflexivity|].
  simpl List.length. simpl nth_error. rewrite (IH y). reflexivity.
Qed.

(** The last element of a non-empty list, by index as the source takes it. *)
Lemma index_last (c0 c1 c2 c3 : Position) (cn : list Position) :
  index (Some (c0 :: c1 :: c2 :: c3 :: cn)) (len (Some (c0 :: c1 :: c2 :: c3 :: cn)) - 1)
  = Some (List.last (c3 :: cn) c3).
Proof.
  unfold index, len, elems.
  change (c0 :: c1 :: c2 :: c3 :: cn) with ([c0; c1; c2] ++ (c3 :: cn)).
  rewrite List.length_app. simpl List.length.
  rewrite nth_error_app2 by (simpl; lia).
  replace (3 + S (List.length cn) - 1 - List.length [c0; c1; c2]) with (List.length cn)
    by (simpl; lia).
  apply nth_error_last.
Qed.

Lemma NewLinearRing_unfold (c0 c1 c2 c3 : Position) (cn : variadic Position) :
  NewLinearRing c0 c1 c2 c3 cn =
  if Position_eq (List.last (c3 :: elems cn) c3) c0
  then Returned (Some (c0 :: c1 :: c2 :: c3 :: elems cn))
  else Panicked (InvalidRing c0 (List.last (c3 :: elems cn) c3)).
Proof.
  unfold NewLinearRing, make0.
  assert (Happ : append (append (Some []) [c0; c1; c2; c3]) (elems cn)
                 = Some (c0 :: c1 :: c2 :: c3 :: elems cn))
    by (destruct cn as [[|c cn]|]; reflexivity).
  rewrite Happ, index_last. simpl.
  destruct (Position_eq _ c0); reflexivity.
Qed.

(** C2: [NewLinearRing(p0, p1, p2, p3, rest...)] panics with the InvalidRing
    condition when the last supplied position differs from [p0] under Go's
    [==]; when it equals [p0] the call returns the ring p0, p1, p2, p3,
    rest..., of length 4 + len(rest), whose first and last elements are
    equal. *)
Theorem NewLinearRing_closed_or_panics :
  forall (c0 c1 c2 c3 : Position) (cn : variadic Position),
    let last := List.last (c3 :: elems cn) c3 in
    (Position_eq last c0 = false ->
       NewLinearRing c0 c1 c2 c3 cn = Panicked (InvalidRing c0 last)) /\
    (Position_eq last c0 = true ->
       exists ring : LinearRing,
         NewLinearRing c0 c1 c2 c3 cn = Returned ring /\
         elems ring = c0 :: c1 :: c2 :: c3 :: elems cn /\
         len ring = 4 + len cn /\
         index ring 0 = Some c0 /\
         index ring (len ring - 1) = Some last /\
         Position_eq last c0 = true).
Proof.
  intros c0 c1 c2 c3 cn last. rewrite NewLinearRing_unfold. fold last. split.
  - intros ->. reflexivity.
  - intros Heq. rewrite Heq.
    exists (Some (c0 :: c1 :: c2 :: c3 :: elems cn)).
    repeat split; try reflexivity; try assumption.
    apply index_last.
Qed.

Lemma NewLinearRing_closed_or_panics_witness :
  NewLinearRing origin p12 p12 p12 None = Panicked (InvalidRing origin p12) /\
  exists ring : LinearRing,
    NewLinearRing origin p12 p12 p12 (Some [p12; origin]) = Returned ring /\
    elems ring = [origin; p12; p12; p12; p12; origin] /\
    len ring = 6 /\
    index ring 0 = Some origin /\
    index ring (len ring - 1) = Some origin /\
    Position_eq origin origin = true.
Proof.
  split.
  - apply (NewLinearRing_closed_or_panics origin p12 p12 p12 None). reflexivity.
  - apply (NewLinearRing_closed_or_panics origin p12 p12 p12 (Some [p12; origin])).
    reflexivity.
Defined.

(** A position holding a NaN differs from itself, so a ring that starts and
    ends with it is rejected. *)
Remark NewLinearRing_NaN_panics :
  let p := mkPosition NaN f0 in
  NewLinearRing p p12 p12 p None = Panicked (InvalidRing p p).
Proof. reflexivity. Qed.

(** C10: [NewMultiPoint], [NewMultiLineString] and [NewMultiPolygon] called
    with no argument return a geometry whose coordinate sequence has length
    0, whereas the coordinates of [NewLineString] have at least two elements
    and a ring returned by [NewLinearRing] at least four. *)
Theorem multi_constructors_take_no_arguments :
  NewMultiPoint None = MultiPointPtr (mkGeometry None) /\
  NewMultiLineString None = MultiLineStringPtr (mkGeometry None) /\
  NewMultiPolygon None = MultiPolygonPtr (mkGeometry None) /\
  len (A := Position) None = 0 /\
  len (A := LineStringCoordinates) None = 0 /\
  len (A := PolygonCoordinates) None = 0 /\
  (forall c0 c1 cn, 2 <= len (NewLineStringCoordinates c0 c1 cn)) /\
  (forall c0 c1 c2 c3 cn ring,
     NewLinearRing c0 c1 c2 c3 cn = Returned ring -> 4 <= len ring).
Proof.
  repeat split.
  - intros c0 c1 cn. rewrite NewLineStringCoordinates_unfold. unfold len. simpl. lia.
  - intros c0 c1 c2 c3 cn ring. rewrite NewLinearRing_unfold. simpl.
    destruct (Position_eq _ c0); [|discriminate].
    intros [= <-]. unfold len. simpl. lia.
Qed.

Lemma multi_constructors_take_no_arguments_witness :
  4 <= len (A := Position) (Some [origin; p12; p12; origin]).
Proof.
  destruct multi_constructors_take_no_arguments as (_ & _ & _ & _ & _ & _ & _ & Hring).
  apply (Hring origin p12 p12 origin None). reflexivity.
Defined.

(** The sample coordinates are values of the Go type. *)
Remark samples_are_float64 :
  forallb is_float64 [f0; f1; f2; f4; NaN] = true.
Proof. reflexivity. Qed.

End Builders.

(** ** FeatureCollection.With *)

Section WithFeatures.

#[local] Open Scope list_scope.
Import SliceStore.

(** C4: for every collection [c] and features [fs], [c.With(fs...)] holds the
    features of [c] in order followed by those of [fs] in order, its length is
    len(c) + len(fs), and [c] reads after the call as it did before, whether
    the result shares the backing array of [c] or not. *)
Theorem With_extends_and_keeps_receiver :
  forall (growslice : nat -> nat -> nat) (st : store Feature) (c features : header),
    well_formed st c = true ->
    well_formed st features = true ->
    let st' := fst (SliceStore.With zeroFeature growslice st c features) in
    let r := snd (SliceStore.With zeroFeature growslice st c features) in
    read st' r = read st c ++ read st features /\
    hlen r = hlen c + hlen features /\
    view st' r = GeoJSON.With (view st c) (view st features) /\
    read st' c = read st c /\
    view st' c = view st c /\
    well_formed st' r = true.
Proof.
  intros growslice st c features Hc Hf st' r.
  destruct (SliceStore.With zeroFeature growslice st c features) as [st1 r1] eqn:HW.
  simpl in st', r. subst st' r.
  destruct (append_spec zeroFeature growslice st c (read st features) Hc st1 r1 HW)
    as (Hr & Hl & Hsame & Hview & Hwf).
  rewrite (read_length st features Hf) in Hl.
  repeat split; try assumption.
  - rewrite Hview. unfold GeoJSON.With. f_equal.
    unfold view, elems, read. destruct (array features); reflexivity.
  - unfold view. destruct (array c); [now rewrite Hsame|reflexivity].
Qed.

Lemma With_extends_and_keeps_receiver_witness :
  let st' := fst (SliceStore.With zeroFeature doubling sampleStore sliceA sliceB) in
  let r := snd (SliceStore.With zeroFeature doubling sampleStore sliceA sliceB) in
  read st' r = [featureA; featureB] /\ hlen r = 2 /\ read st' sliceA = [featureA].
Proof.
  intros st' r.
  destruct (With_extends_and_keeps_receiver doubling sampleStore sliceA sliceB
              eq_refl eq_refl) as (Hr & Hl & _ & Hc & _).
  split; [exact Hr | split; [exact Hl | exact Hc]].
Defined.

(** What the receiver does not see: a collection returned earlier from the
    same receiver shares its spare capacity, and a later [With] overwrites
    it. *)
Remark With_overwrites_earlier_result :
  let '(st1, d) := SliceStore.With zeroFeature doubling sampleStore sliceA sliceB in
  let '(st2, e) := SliceStore.With zeroFeature doubling st1 sliceA sliceC in
  read st1 d = [featureA; featureB] /\
  read st2 e = [featureA; featureC] /\
  read st2 d = [featureA; featureC] /\
  read st2 sliceA = [featureA].
Proof. vm_compute. repeat split. Qed.

End WithFeatures.

(** ** Texts at concrete inputs *)

(** C1: a GeometryCollection is written as the bare array of its members'
    encodings, and as [null] when built from no argument; no object with the
    keys [type] and [geometries] is produced. *)
Theorem GeometryCollection_text :
  ToText (Some (GeometryObject
    (NewGeometryCollection
       (Some [Some (NewPoint p12); Some (NewPolygon squareRing None)]))))
  = Ok (json ("[{'type':'Point','coordinates':[1.000000,2.000000]},"
           ++ "{'type':'Polygon','coordinates':[[[0.000000,0.000000],"
           ++ "[4.000000,0.000000],[4.000000,4.000000],[0.000000,4.000000],"
           ++ "[0.000000,0.000000]]]}]"))
  /\ ToText (Some (GeometryObject (NewGeometryCollection (Some [])))) = Ok "[]"
  /\ ToText (Some (GeometryObject (NewGeometryCollection None))) = Ok "null".
Proof. vm_compute. repeat split. Qed.

(** Whatever its members, a GeometryCollection is written as [null] or as an
    array, never as an object. *)
Remark GeometryCollection_written_as_array (gs : GeometryCollection) (t : string) :
  ToText (Some (GeometryObject (GeometryCollectionPtr gs))) = Ok t ->
  t = "null" \/ exists body, t = "[" ++ body ++ "]".
Proof.
  simpl. destruct gs as [l|]; simpl; [|intros [= <-]; now left].
  destruct (commaSeparated _) as [body|e]; simpl; [|discriminate].
  intros [= <-]. right. now exists body.
Qed.

(** C3: the collection built from no feature is the nil slice, and its
    [features] member is written as [null]; an empty non-nil slice is written
    as the empty array. *)
Theorem empty_FeatureCollection_text :
  ToText (Some (FeatureCollectionPtr (NewFeatureCollection None)))
  = Ok (json "{'type':'FeatureCollection','features':null}")
  /\ ToText (Some (FeatureCollectionPtr (NewFeatureCollection (Some []))))
  = Ok (json "{'type':'FeatureCollection','features':[]}").
Proof. vm_compute. repeat split. Qed.

(** C5: the Feature value returned by [NewPoint(1, 2).ToFeature(name: x)],
    handed to [ToText] as it is, is written without the [type] member; handed
    over by address it is written with it. *)
Theorem point_feature_text :
  ToText (Some (FeatureValue (ToFeature (NewPoint p12) namedX)))
  = Ok (json ("{'geometry':{'type':'Point','coordinates':[1.000000,2.000000]},"
           ++ "'properties':{'name':'x'}}"))
  /\ ToText (Some (FeaturePtr (ToFeature (NewPoint p12) namedX)))
  = Ok (json ("{'type':'Feature','geometry':{'type':'Point',"
           ++ "'coordinates':[1.000000,2.000000]},'properties':{'name':'x'}}")).
Proof. vm_compute. repeat split. Qed.

(** C6: [Type] returns the discriminator of each variant, but the text of a
    GeometryCollection is a bare array and carries no [type] member. *)
Theorem GeometryCollection_Type_not_in_text :
  Geometry_Type (NewPoint p12) = "Point" /\
  Geometry_Type (NewMultiPoint None) = "MultiPoint" /\
  Geometry_Type (NewLineString origin p12 None) = "LineString" /\
  Geometry_Type (NewMultiLineString None) = "MultiLineString" /\
  Geometry_Type (NewPolygon squareRing None) = "Polygon" /\
  Geometry_Type (NewMultiPolygon None) = "MultiPolygon" /\
  Geometry_Type (NewGeometryCollection (Some [Some (NewPoint p12)])) = "GeometryCollection" /\
  ToText (Some (GeometryObject (NewGeometryCollection (Some [Some (NewPoint p12)]))))
  = Ok (json "[{'type':'Point','coordinates':[1.000000,2.000000]}]").
Proof. vm_compute. repeat split. Qed.

(** [Type] depends on the variant alone. *)
Lemma Geometry_Type_by_variant (g : Geometry) :
  Geometry_Type g =
  match g with
  | PointPtr _ => "Point"
  | MultiPointPtr _ => "MultiPoint"
  | LineStringPtr _ => "LineString"
  | MultiLineStringPtr _ => "MultiLineString"
  | PolygonPtr _ => "Polygon"
  | MultiPolygonPtr _ => "MultiPolygon"
  | GeometryCollectionPtr _ => "GeometryCollection"
  end.
Proof. destruct g; reflexivity. Qed.

(** C9, as stated, fails: a Point holding a NaN cannot be written. *)
Lemma NaN_point_is_not_encoded :
  ToText (Some (GeometryObject (NewPoint (mkPosition NaN f2))))
  = Err (MarshalerError (MarshalerError SyntaxError)).
Proof. vm_compute. reflexivity. Qed.

(** ** What the check lets through unchanged *)

Lemma scan_cons (s : scanner) (c : ascii) (rest : string) :
  scan s (String c rest) = scan (fst (scan_step s c)) rest.
Proof. reflexivity. Qed.

Lemma scan_app (s : scanner) (a b : string) : scan s (a ++ b) = scan (scan s a) b.
Proof. revert s. induction a as [|c a IH]; intros s; simpl; [reflexivity|apply IH]. Qed.

Lemma string_app_assoc (a b c : string) : (a ++ b) ++ c = a ++ (b ++ c).
Proof. induction a as [|x a IH]; simpl; [reflexivity|now rewrite IH]. Qed.

Ltac split_ifs :=
  repeat match goal with
         | |- context [if ?b then _ else _] => destruct b eqn:?
         | |- context [match ?l with [] => _ | _ :: _ => _ end] => destruct l eqn:?
         | |- context [match ?k with parseObjectKey => _ | _ => _ end] => destruct k eqn:?
         end.

Ltac unfold_step :=
  unfold scan_step; simpl step;
  unfold do_stateBeginValueOrEmpty, do_stateBeginStringOrEmpty, do_stateBeginString,
    do_stateBeginValue, do_state1, do_state0, do_stateNeg, do_stateDot, do_stateDot0,
    do_stateE, do_stateESign, do_stateE0, do_stateInString, do_stateInStringEsc,
    hex_then, expect, do_stateEndValue, do_stateEndTop, pushParseState, popParseState,
    goto, fail, error_at;
  simpl parseState; simpl err; simpl endTop.

(** Replace a byte known by a test to be a given character. *)
Ltac known_bytes :=
  repeat match goal with
         | H : (?c =? ?x)%char = true |- _ => apply Ascii.eqb_eq in H; subst c
         end.

Lemma scan_step_err (s : scanner) (c : ascii) :
  err s = true -> err (fst (scan_step s c)) = true.
Proof.
  destruct s as [f ps e t]. simpl. intros ->.
  destruct f; unfold_step; split_ifs; reflexivity.
Qed.

Lemma scan_err (s : scanner) (src : string) : err s = true -> err (scan s src) = true.
Proof.
  revert s. induction src as [|c src IH]; intros s Hs; simpl; [exact Hs|].
  apply IH, scan_step_err, Hs.
Qed.

Lemma compactLoop_err (src : string) :
  forall (s : scanner) (k : nat), err s = true -> err (fst (compactLoop s k src)) = true.
Proof.
  induction src as [|c src IH]; intros s k Hs; simpl; [exact Hs|].
  pose proof (scan_step_err s c Hs) as Hs'.
  destruct (scan_step s c) as [s' v]. simpl in Hs'.
  destruct v; [destruct (compactEscape c src) as [[e n]|]; [|destruct k]| | |];
    try exact Hs';
    match goal with
    | |- context [compactLoop s' ?n src] =>
      specialize (IH s' n Hs'); destruct (compactLoop s' n src); exact IH
    end.
Qed.

(** One step of the scanner on a byte that is no space, or on any byte
    inside a string literal: unless the scanner rejects the byte, the byte is
    to be copied and the position moves as [move] says. *)
Lemma scan_step_position (s : scanner) (c : ascii) :
  consistent s -> err s = false ->
  isSpace c = false \/ position s = Inside ->
  consistent (fst (scan_step s c)) /\
  (err (fst (scan_step s c)) = true \/
   (snd (scan_step s c) = scanContinue /\
    position (fst (scan_step s c)) = move (position s) c)).
Proof.
  unfold consistent, position. intros Hs He Hc.
  destruct s as [f ps e t]. simpl in Hs, He, Hc. subst e.
  destruct f; try (specialize (Hs eq_refl); discriminate Hs);
    (destruct Hc as [Hsp | Hin]; [|try discriminate Hin]);
    unfold_step; rewrite ?Hsp; split_ifs; simpl;
    (split; [intros; try reflexivity; try discriminate|]);
    try (left; reflexivity);
    try (right; split; [reflexivity|]);
    known_bytes; try reflexivity; try discriminate;
    simpl in *; try congruence;
    repeat match goal with
           | H : (_ =? _)%char = false |- _ => rewrite H
           end;
    try reflexivity;
    split_ifs; known_bytes; try reflexivity;
    repeat match goal with
           | H : _ = _ |- _ => first [discriminate H | vm_compute in H; discriminate H | clear H]
           end.
Qed.

Lemma kept_cons (a : inString) (c : ascii) (rest : string) :
  kept a (String c rest) = true ->
  isHTMLbyte c = false /\
  compactEscape c rest = None /\
  (isSpace c = false \/ a = Inside) /\
  kept (move a c) rest = true.
Proof.
  simpl. intros H.
  apply andb_prop in H as [H Hrest]. apply andb_prop in H as [H Hspace].
  apply andb_prop in H as [Hhtml Hrune]. apply negb_true_iff in Hhtml.
  repeat split; try assumption.
  - unfold compactEscape. rewrite Hhtml.
    destruct (code c =? 226)%N; [|reflexivity].
    destruct rest as [|c1 [|c2 rest]]; try discriminate Hrune.
    apply negb_true_iff in Hrune. now rewrite Hrune.
  - apply orb_prop in Hspace as [Hs | Ha]; [left; now apply negb_true_iff|right].
    destruct a; try discriminate Ha; reflexivity.
Qed.

(** On a kept text the loop copies every byte, unless the scanner reports an
    error. *)
Lemma compactLoop_kept (src : string) :
  forall s : scanner,
    consistent s -> err s = false -> kept (position s) src = true ->
    compactLoop s 0 src = (scan s src, src) \/
    (err (fst (compactLoop s 0 src)) = true /\ err (scan s src) = true).
Proof.
  induction src as [|c src IH]; intros s Hs He Hk; simpl; [left; reflexivity|].
  apply kept_cons in Hk as (_ & Hesc & Hsp & Hk). rewrite Hesc.
  destruct (scan_step_position s c Hs He Hsp) as [Hs' Hv].
  destruct (scan_step s c) as [s' v]. simpl in Hs', Hv |- *.
  destruct Hv as [He' | [-> Hpos]].
  - right. split; [|apply scan_err, He'].
    destruct v; try exact He';
      pose proof (compactLoop_err src s' 0 He') as H;
      destruct (compactLoop s' 0 src); exact H.
  - destruct (err s') eqn:He'.
    + right. split; [|apply scan_err, He'].
      pose proof (compactLoop_err src s' 0 He') as H.
      destruct (compactLoop s' 0 src); exact H.
    + rewrite <- Hpos in Hk.
      destruct (IH s' Hs' He' Hk) as [-> | [H1 H2]]; [left; reflexivity|].
      right. destruct (compactLoop s' 0 src). split; assumption.
Qed.

Lemma newScanner_consistent : consistent newScanner.
Proof. unfold consistent. simpl. discriminate. Qed.

Lemma eof_no_err (s : scanner) : eof s = true -> err s = false.
Proof. unfold eof. destruct (err s); [discriminate|reflexivity]. Qed.

(** A kept text that passes the check is returned as it is. *)
Lemma appendCompact_kept_inv (b t : string) :
  kept Outside b = true -> appendCompact b = Ok t -> t = b.
Proof.
  intros Hk. unfold appendCompact.
  destruct (compactLoop_kept b newScanner newScanner_consistent eq_refl Hk)
    as [-> | [He _]].
  - destruct (eof _); [|discriminate]. now intros [= <-].
  - destruct (compactLoop newScanner 0 b) as [s out]. simpl in He.
    unfold eof. rewrite He. discriminate.
Qed.

(** A kept text the scanner accepts passes the check. *)
Lemma appendCompact_kept_ok (b : string) :
  kept Outside b = true -> eof (scan newScanner b) = true -> appendCompact b = Ok b.
Proof.
  intros Hk Heof. unfold appendCompact.
  destruct (compactLoop_kept b newScanner newScanner_consistent eq_refl Hk)
    as [-> | [_ He]].
  - now rewrite Heof.
  - apply eof_no_err in Heof. congruence.
Qed.

Lemma marshalerEncoder_inv (r : result) (t : string) :
  marshalerEncoder r = Ok t -> exists b, r = Ok b /\ appendCompact b = Ok t.
Proof.
  unfold marshalerEncoder. destruct r as [b|e]; [|discriminate].
  destruct (appendCompact b) as [out|e] eqn:H; [|discriminate].
  intros [= <-]. now exists b.
Qed.

(** The text a [MarshalJSON] method returned, when kept, is written as it
    is. *)
Lemma marshalerEncoder_kept (r : result) (t : string) :
  (forall b, r = Ok b -> kept Outside b = true) ->
  marshalerEncoder r = Ok t -> r = Ok t.
Proof.
  intros Hk H. apply marshalerEncoder_inv in H as (b & -> & Ht).
  f_equal. symmetry. apply appendCompact_kept_inv; [now apply Hk|exact Ht].
Qed.

(** ** Kept and balanced texts *)

Lemma moves_app (a : inString) (t1 t2 : string) :
  moves a (t1 ++ t2) = moves (moves a t1) t2.
Proof. revert a. induction t1 as [|c t1 IH]; intros a; simpl; [reflexivity|apply IH]. Qed.

Lemma kept_app (a : inString) (t1 t2 : string) :
  kept a t1 = true -> kept (moves a t1) t2 = true -> kept a (t1 ++ t2) = true.
Proof.
  revert a. induction t1 as [|c t1 IH]; intros a H1 H2; [exact H2|].
  simpl in H1 |- *.
  apply andb_prop in H1 as [H1 Hrest]. apply andb_prop in H1 as [H1 Hspace].
  apply andb_prop in H1 as [Hhtml Hrune].
  rewrite Hhtml, Hspace, (IH _ Hrest H2), !andb_true_r. simpl.
  destruct (code c =? 226)%N; [|reflexivity].
  destruct t1 as [|c1 [|c2 t1]]; try discriminate Hrune. exact Hrune.
Qed.

Lemma balanced_app (t1 t2 : string) : balanced t1 -> balanced t2 -> balanced (t1 ++ t2).
Proof.
  intros [K1 M1] [K2 M2]. split.
  - apply kept_app; [exact K1|now rewrite M1].
  - now rewrite moves_app, M1.
Qed.

Lemma balanced_kept (t : string) : balanced t -> kept Outside t = true.
Proof. now intros [H _]. Qed.

Lemma all_plain_app (a b : string) : all_plain (a ++ b) = all_plain a && all_plain b.
Proof.
  induction a as [|c a IH]; simpl; [reflexivity|]. rewrite IH. apply andb_assoc.
Qed.

Lemma plain_inv (c : ascii) :
  plain c = true ->
  isSpace c = false /\ isHTMLbyte c = false /\ (code c =? 226)%N = false /\
  (c =? dquote)%char = false /\ (c =? backslash)%char = false.
Proof.
  unfold plain. intros H.
  repeat (apply andb_prop in H as [H ?]).
  repeat split; now apply negb_true_iff.
Qed.

(** A text of plain bytes is kept and leaves the position where it is. *)
Lemma plain_kept (t : string) :
  all_plain t = true ->
  forall a, (a = Outside \/ a = Inside) -> kept a t = true /\ moves a t = a.
Proof.
  induction t as [|c t IH]; intros H a Ha; [split; reflexivity|].
  simpl in H. apply andb_prop in H as [Hc Ht].
  apply plain_inv in Hc as (Hsp & Hhtml & H226 & Hdq & Hbs).
  assert (Hmove : move a c = a) by (destruct Ha as [-> | ->]; simpl; now rewrite Hdq, ?Hbs).
  simpl. rewrite Hhtml, H226, Hsp, Hmove. simpl. now apply IH.
Qed.

Lemma plain_balanced (t : string) : all_plain t = true -> balanced t.
Proof. intros H. apply (plain_kept t H Outside). now left. Qed.
(** ** The scanner on the numbers that %f prints *)

Lemma isDigit_cases (c : ascii) :
  isDigit c = true ->
  (c = "0" \/ c = "1" \/ c = "2" \/ c = "3" \/ c = "4" \/
   c = "5" \/ c = "6" \/ c = "7" \/ c = "8" \/ c = "9")%char.
Proof.
  destruct c as [[] [] [] [] [] [] [] []]; vm_compute; intros H;
    try discriminate H; auto 10.
Qed.

Lemma isDigit19_cases (c : ascii) :
  isDigit19 c = true ->
  (c = "1" \/ c = "2" \/ c = "3" \/ c = "4" \/
   c = "5" \/ c = "6" \/ c = "7" \/ c = "8" \/ c = "9")%char.
Proof.
  destruct c as [[] [] [] [] [] [] [] []]; vm_compute; intros H;
    try discriminate H; auto 10.
Qed.

Lemma isDigit_plain (c : ascii) : isDigit c = true -> plain c = true.
Proof.
  intros H. apply isDigit_cases in H.
  repeat (destruct H as [-> | H]; [reflexivity|]). now subst.
Qed.

Lemma all_digits_plain (s : string) : all_digits s = true -> all_plain s = true.
Proof.
  induction s as [|c s IH]; simpl; [reflexivity|]. intros H.
  apply andb_prop in H as [Hc Hs]. now rewrite (isDigit_plain c Hc), IH.
Qed.

Lemma digit_isDigit (k : N) : (k < 10)%N -> isDigit (Fmt.digit k) = true.
Proof.
  intros Hk.
  assert (H : (k = 0 \/ k = 1 \/ k = 2 \/ k = 3 \/ k = 4 \/
               k = 5 \/ k = 6 \/ k = 7 \/ k = 8 \/ k = 9)%N) by lia.
  repeat (destruct H as [-> | H]; [reflexivity|]). now subst.
Qed.

Lemma six_digits_all_digits (n : N) : all_digits (Fmt.six_digits n) = true.
Proof.
  unfold Fmt.six_digits. simpl.
  rewrite !digit_isDigit by (apply N.mod_lt; discriminate). reflexivity.
Qed.

Lemma nzhead_cases (u : uint) : nzhead u = Nil \/ nonzero_head (nzhead u) = true.
Proof. induction u; simpl; auto. Qed.

Lemma string_of_uint_all_digits (u : uint) :
  all_digits (NilEmpty.string_of_uint u) = true.
Proof. induction u; simpl; auto. Qed.

Lemma decimal_cases (n : N) :
  Fmt.decimal n = "0" \/
  exists d ds, Fmt.decimal n = String d ds /\ isDigit19 d = true /\ all_digits ds = true.
Proof.
  unfold Fmt.decimal.
  assert (Hn : N.to_uint n = unorm (N.to_uint n)).
  { rewrite <- (DecimalN.Unsigned.to_of (N.to_uint n)).
    now rewrite DecimalN.Unsigned.of_to. }
  rewrite Hn. unfold unorm.
  destruct (nzhead_cases (N.to_uint n)) as [-> | H]; [left; reflexivity|].
  right. destruct (nzhead (N.to_uint n)) as [|u|u|u|u|u|u|u|u|u|u];
    try discriminate H; simpl;
    eexists; eexists; (split; [reflexivity|]); (split; [reflexivity|]);
    apply string_of_uint_all_digits.
Qed.

Lemma decimal_all_digits (n : N) : all_digits (Fmt.decimal n) = true.
Proof.
  destruct (decimal_cases n) as [-> | (d & ds & -> & Hd & Hds)]; [reflexivity|].
  simpl. rewrite Hds, andb_true_r.
  apply isDigit19_cases in Hd.
  repeat (destruct Hd as [-> | Hd]; [reflexivity|]). now subst.
Qed.

Lemma scan_digits_state1 (ps : list parseKind) (ds : string) :
  all_digits ds = true -> scan (at_state state1 ps) ds = at_state state1 ps.
Proof.
  induction ds as [|c ds IH]; simpl; [reflexivity|]. intros H.
  apply andb_prop in H as [Hc Hds].
  unfold scan_step at 1. simpl step. unfold do_state1. rewrite Hc. simpl. now apply IH.
Qed.

Lemma scan_digits_stateDot0 (ps : list parseKind) (ds : string) :
  all_digits ds = true -> scan (at_state stateDot0 ps) ds = at_state stateDot0 ps.
Proof.
  induction ds as [|c ds IH]; simpl; [reflexivity|]. intros H.
  apply andb_prop in H as [Hc Hds].
  unfold scan_step at 1. simpl step. unfold do_stateDot0. rewrite Hc. simpl. now apply IH.
Qed.

Lemma scan_fraction (ps : list parseKind) (c : ascii) (ds : string) :
  all_digits (String c ds) = true ->
  scan (at_state stateDot ps) (String c ds) = at_state stateDot0 ps.
Proof.
  simpl. intros H. apply andb_prop in H as [Hc Hds].
  unfold scan_step at 1. simpl step. unfold do_stateDot. rewrite Hc. simpl fst.
  now apply scan_digits_stateDot0.
Qed.

(** The integer digits, from the start of a value or after a minus sign. *)
Lemma scan_decimal (f : stepfn) (ps : list parseKind) (n : N) :
  begins f \/ f = stateNeg ->
  scan (at_state f ps) (Fmt.decimal n ++ ".") = at_state stateDot ps.
Proof.
  intros Hf.
  destruct (decimal_cases n) as [-> | (d & ds & -> & Hd & Hds)].
  - destruct Hf as [[-> | ->] | ->]; reflexivity.
  - simpl. rewrite scan_app.
    assert (H1 : fst (scan_step (at_state f ps) d) = at_state state1 ps).
    { apply isDigit19_cases in Hd.
      destruct Hf as [[-> | ->] | ->];
        repeat (destruct Hd as [-> | Hd]; [reflexivity|]); now subst. }
    rewrite H1, (scan_digits_state1 ps ds Hds). reflexivity.
Qed.

(** A number as %f prints it, up to its last digit. *)
Lemma scan_fixed (f : stepfn) (ps : list parseKind) (sgn : bool) (micro : N) :
  begins f ->
  scan (at_state f ps) (Fmt.sign sgn ++ Fmt.fixed6 micro) = at_state stateDot0 ps.
Proof.
  intros Hf. unfold Fmt.fixed6.
  assert (Hfrac : scan (at_state stateDot ps) (Fmt.six_digits micro) = at_state stateDot0 ps).
  { pose proof (six_digits_all_digits micro) as H.
    unfold Fmt.six_digits in *. now apply scan_fraction. }
  assert (Hnum : forall g, begins g \/ g = stateNeg ->
            scan (at_state g ps) (Fmt.decimal (micro / 1000000) ++ "." ++ Fmt.six_digits micro)
            = at_state stateDot0 ps).
  { intros g Hg.
    change (Fmt.decimal (micro / 1000000) ++ "." ++ Fmt.six_digits micro)
      with (Fmt.decimal (micro / 1000000) ++ String "." (Fmt.six_digits micro)).
    replace (Fmt.decimal (micro / 1000000) ++ String "." (Fmt.six_digits micro))
      with ((Fmt.decimal (micro / 1000000) ++ ".") ++ Fmt.six_digits micro).
    - rewrite scan_app, (scan_decimal g ps _ Hg). exact Hfrac.
    - generalize (Fmt.decimal (micro / 1000000)).
      intros s0. induction s0 as [|c s0 IH]; simpl; [reflexivity|]. now rewrite IH. }
  destruct sgn; simpl Fmt.sign.
  - change ("-" ++ ?x) with (String "-" x). simpl scan at 1.
    assert (H1 : fst (scan_step (at_state f ps) "-") = at_state stateNeg ps)
      by (destruct Hf as [-> | ->]; reflexivity).
    rewrite H1. apply Hnum. now right.
  - apply Hnum. now left.
Qed.

Lemma Sprintf_f_finite (x : float64) :
  finite x = true ->
  exists sgn micro, Fmt.Sprintf_f x = Fmt.sign sgn ++ Fmt.fixed6 micro.
Proof.
  destruct x as [s | s | | s m e]; simpl; try discriminate; intros _; eauto.
Qed.

Lemma sign_plain (sgn : bool) : all_plain (Fmt.sign sgn) = true.
Proof. destruct sgn; reflexivity. Qed.

Lemma fixed6_plain (micro : N) : all_plain (Fmt.fixed6 micro) = true.
Proof.
  unfold Fmt.fixed6. rewrite !all_plain_app.
  rewrite (all_digits_plain _ (decimal_all_digits _)).
  rewrite (all_digits_plain _ (six_digits_all_digits _)). reflexivity.
Qed.

(** Whatever %f prints consists of plain bytes. *)
Lemma Sprintf_f_plain (x : float64) : all_plain (Fmt.Sprintf_f x) = true.
Proof.
  destruct x as [s | [] | | s m e]; simpl; try reflexivity;
    now rewrite all_plain_app, sign_plain, fixed6_plain.
Qed.

(** ** The scanner on coordinate arrays *)

Lemma push_fits (s : scanner) (k : parseKind) (next : stepfn) :
  fits (parseState s) 1 ->
  pushParseState s k next = (mkScanner next (k :: parseState s) (err s) (endTop s), scanContinue).
Proof.
  unfold fits, pushParseState. intros H.
  assert (Hd : (N.of_nat (List.length (k :: parseState s)) <=? maxNestingDepth)%N = true).
  { apply N.leb_le. simpl List.length. rewrite Nat2N.inj_succ. lia. }
  now rewrite Hd.
Qed.

Lemma step_open_array (f : stepfn) (ps : list parseKind) :
  begins f -> fits ps 1 ->
  fst (scan_step (at_state f ps) "[") = at_state stateBeginValueOrEmpty (parseArrayValue :: ps).
Proof.
  intros Hf Hfit.
  assert (H : do_stateBeginValue (at_state f ps) "["
              = pushParseState (at_state f ps) parseArrayValue stateBeginValueOrEmpty)
    by reflexivity.
  destruct Hf as [-> | ->]; unfold scan_step; simpl step;
    [|change (do_stateBeginValueOrEmpty ?s "[") with (do_stateBeginValue s "[")];
    rewrite H, push_fits by exact Hfit; reflexivity.
Qed.

Lemma step_close_array (f : stepfn) (ps : list parseKind) :
  f = stateEndValue \/ f = stateDot0 \/ f = stateBeginValueOrEmpty ->
  fst (scan_step (at_state f (parseArrayValue :: ps)) "]") = closed ps.
Proof. intros [-> | [-> | ->]]; destruct ps; reflexivity. Qed.

Lemma step_comma_array (f : stepfn) (ps : list parseKind) :
  f = stateEndValue \/ f = stateDot0 ->
  fst (scan_step (at_state f (parseArrayValue :: ps)) ",")
  = at_state stateBeginValue (parseArrayValue :: ps).
Proof. intros [-> | ->]; reflexivity. Qed.

(** The scanner accepts the text of a finite position, at any depth below the
    limit. *)
Lemma scan_position (p : Position) (f : stepfn) (ps : list parseKind) :
  Position_finite p = true -> begins f -> fits ps 1 ->
  scan (at_state f ps) (positionText p) = closed ps.
Proof.
  unfold Position_finite, positionText. intros Hp Hf Hfit.
  apply andb_prop in Hp as [Hlon Hlat].
  destruct (Sprintf_f_finite _ Hlon) as (s1 & m1 & ->).
  destruct (Sprintf_f_finite _ Hlat) as (s2 & m2 & ->).
  change ("[" ++ ?x) with (String "[" x).
  change ("," ++ ?x) with (String "," x).
  rewrite scan_cons, (step_open_array f ps Hf Hfit).
  rewrite scan_app, scan_fixed by (now right).
  rewrite scan_cons, step_comma_array by (now right).
  rewrite scan_app, scan_fixed by (now left).
  rewrite scan_cons, step_close_array by tauto. reflexivity.
Qed.

Lemma positionText_plain (p : Position) : all_plain (positionText p) = true.
Proof.
  unfold positionText. rewrite !all_plain_app, !Sprintf_f_plain. reflexivity.
Qed.

Lemma fits_top : fits [] 1.
Proof. unfold fits, maxNestingDepth. simpl. lia. Qed.

(** [encoding/json] writes a finite position as [Position.MarshalJSON]
    returns it. *)
Lemma encodePosition_finite (p : Position) :
  Position_finite p = true -> encodePosition p = Ok (positionText p).
Proof.
  intros Hp. unfold encodePosition, Position_MarshalJSON, marshalerEncoder.
  fold (positionText p).
  rewrite appendCompact_kept_ok;
    [reflexivity|apply balanced_kept, plain_balanced, positionText_plain|].
  change newScanner with (at_state stateBeginValue []).
  rewrite (scan_position p _ [] Hp (or_introl eq_refl) fits_top). reflexivity.
Qed.

(** Whenever a position is written, it is written as returned. *)
Lemma encodePosition_inv (p : Position) (t : string) :
  encodePosition p = Ok t -> t = positionText p.
Proof.
  unfold encodePosition, Position_MarshalJSON, marshalerEncoder.
  fold (positionText p).
  destruct (appendCompact (positionText p)) as [out|e] eqn:H; [|discriminate].
  intros [= <-]. apply appendCompact_kept_inv in H; [exact H|].
  apply balanced_kept, plain_balanced, positionText_plain.
Qed.

Lemma accepted_mono (d d' : N) (t : string) :
  (d <= d')%N -> accepted d t -> accepted d' t.
Proof.
  intros Hd H f k ps Hf Hfit. apply H; [exact Hf|]. unfold fits in *. lia.
Qed.

Lemma accepted_null (d : N) : accepted d "null".
Proof. intros f k ps [-> | ->] _; reflexivity. Qed.

Lemma accepted_position (p : Position) :
  Position_finite p = true -> accepted 1 (positionText p).
Proof. intros Hp f k ps Hf Hfit. now rewrite scan_position. Qed.

Lemma commaSeparated_Ok (ts : list string) :
  commaSeparated (List.map Ok ts) = Ok (joinComma ts).
Proof.
  induction ts as [|t ts IH]; [reflexivity|].
  simpl. destruct ts as [|t' ts]; [reflexivity|].
  simpl in IH |- *. now rewrite IH.
Qed.

Lemma joinComma_plain (ts : list string) :
  Forall (fun t => all_plain t = true) ts -> all_plain (joinComma ts) = true.
Proof.
  induction 1 as [|t ts Ht Hts IH]; [reflexivity|].
  simpl. destruct ts as [|t' ts]; [exact Ht|].
  rewrite all_plain_app, Ht. simpl in IH |- *. exact IH.
Qed.

(** The elements of an array, after its opening bracket. *)
Lemma scan_elements (d : N) (ps : list parseKind) (ts : list string) :
  Forall (accepted d) ts -> ts <> [] -> fits (parseArrayValue :: ps) d ->
  forall f, begins f ->
    scan (at_state f (parseArrayValue :: ps)) (joinComma ts ++ "]") = closed ps.
Proof.
  intros Hts. induction Hts as [|t ts Ht Hts IH]; intros Hne Hfit f Hf; [congruence|].
  destruct ts as [|t' ts].
  - change (joinComma [t]) with t. rewrite scan_app, (Ht f _ _ Hf Hfit), scan_cons, step_close_array by (now left).
    reflexivity.
  - change (joinComma (t :: t' :: ts)) with (t ++ "," ++ joinComma (t' :: ts)).
    rewrite !string_app_assoc, scan_app, (Ht f _ _ Hf Hfit).
    change ("," ++ ?x) with (String "," x).
    rewrite scan_cons, step_comma_array by (now left).
    apply IH; [discriminate|exact Hfit|now left].
Qed.

Lemma accepted_array (d : N) (ts : list string) :
  Forall (accepted d) ts -> accepted (d + 1) ("[" ++ joinComma ts ++ "]").
Proof.
  intros Hts f k ps Hf Hfit.
  change ("[" ++ ?x) with (String "[" x).
  rewrite scan_cons, step_open_array; [|exact Hf|unfold fits in *; lia].
  destruct ts as [|t ts].
  - reflexivity.
  - rewrite (scan_elements d (k :: ps) (t :: ts) Hts); [reflexivity|discriminate| |now right].
    unfold fits in *. simpl List.length in *. rewrite !Nat2N.inj_succ in *. lia.
Qed.

(** ** Encodings that the check lets through *)

Lemma good_mono (d d' : N) (r : result) : (d <= d')%N -> good d r -> good d' r.
Proof.
  intros Hd (t & -> & Hp & Ha). exists t. eauto using accepted_mono.
Qed.

Lemma good_position (p : Position) :
  Position_finite p = true -> good 1 (encodePosition p).
Proof.
  intros Hp. exists (positionText p).
  auto using encodePosition_finite, positionText_plain, accepted_position.
Qed.

Lemma good_texts {A} (enc : A -> result) (d : N) (l : list A) :
  Forall (fun x => good d (enc x)) l ->
  exists ts, List.map enc l = List.map Ok ts /\
             Forall (fun t => all_plain t = true) ts /\ Forall (accepted d) ts.
Proof.
  induction 1 as [|x l (t & Hx & Hp & Ha) _ (ts & Hts & Hps & Has)].
  - exists []. repeat split; constructor.
  - exists (t :: ts). simpl. rewrite Hx, Hts. repeat split; constructor; assumption.
Qed.

Lemma good_slice {A} (enc : A -> result) (d : N) (s : slice A) :
  Forall (fun x => good d (enc x)) (elems s) -> good (d + 1) (sliceEncoder enc s).
Proof.
  destruct s as [l|]; simpl; intros H.
  - destruct (good_texts enc d l H) as (ts & Hts & Hps & Has).
    exists ("[" ++ joinComma ts ++ "]"). rewrite Hts, commaSeparated_Ok.
    repeat split.
    + change ("[" ++ ?x) with (String "[" x). simpl.
      now rewrite all_plain_app, joinComma_plain.
    + now apply accepted_array.
  - exists "null". repeat split. apply accepted_null.
Qed.

Lemma geometryText_split (T c : string) :
  geometryText T c = geometryPrefix T ++ (c ++ "}").
Proof. unfold geometryText, geometryPrefix. now rewrite !string_app_assoc. Qed.

Lemma marshalGeoJSON_Ok {C} (encodeC : C -> result) (g : Geometry) (c : C) (ct : string) :
  encodeC c = Ok ct ->
  marshalGeoJSONGeometryWithCoordinates encodeC g c = Ok (geometryText (Geometry_Type g) ct).
Proof.
  intros H. unfold marshalGeoJSONGeometryWithCoordinates, structEncoder, member.
  simpl. rewrite H. reflexivity.
Qed.

Lemma marshalGeoJSON_inv {C} (encodeC : C -> result) (g : Geometry) (c : C) (b : string) :
  marshalGeoJSONGeometryWithCoordinates encodeC g c = Ok b ->
  exists ct, encodeC c = Ok ct /\ b = geometryText (Geometry_Type g) ct.
Proof.
  unfold marshalGeoJSONGeometryWithCoordinates, structEncoder, member.
  simpl. destruct (encodeC c) as [ct|e]; simpl; [|discriminate].
  intros [= <-]. now exists ct.
Qed.

Lemma Geometry_Type_in_typeNames (g : Geometry) : In (Geometry_Type g) typeNames.
Proof. destruct g; simpl; auto 10. Qed.

Lemma geometryPrefix_scanned (T : string) :
  In T typeNames ->
  scan newScanner (geometryPrefix T) = at_state stateBeginValue [parseObjectValue] /\
  balanced (geometryPrefix T).
Proof.
  unfold balanced. simpl In. intros H.
  repeat (destruct H as [<- | H]; [vm_compute; repeat split; reflexivity|]). contradiction.
Qed.

(** The struct text is balanced when the coordinates are plain. *)
Lemma geometryText_balanced (T ct : string) :
  In T typeNames -> all_plain ct = true -> balanced (geometryText T ct).
Proof.
  intros HT Hct. destruct (geometryPrefix_scanned T HT) as [_ Hp].
  rewrite geometryText_split. apply balanced_app; [exact Hp|].
  apply plain_balanced. now rewrite all_plain_app, Hct.
Qed.

Lemma fits_in_object (d : N) : (d < maxNestingDepth)%N -> fits [parseObjectValue] d.
Proof. unfold fits. simpl. lia. Qed.

(** A geometry whose coordinates were encoded well is written by its
    [MarshalJSON] method, and the text passes the check unchanged. *)
Lemma marshal_good_coordinates {C} (encodeC : C -> result) (g : Geometry) (c : C) (d : N) :
  good d (encodeC c) -> (d < maxNestingDepth)%N ->
  exists ct, encodeC c = Ok ct /\
    marshalerEncoder (marshalGeoJSONGeometryWithCoordinates encodeC g c)
    = Ok (geometryText (Geometry_Type g) ct).
Proof.
  intros (ct & Hc & Hp & Ha) Hd. exists ct. split; [exact Hc|].
  rewrite (marshalGeoJSON_Ok encodeC g c ct Hc). unfold marshalerEncoder.
  destruct (geometryPrefix_scanned _ (Geometry_Type_in_typeNames g)) as [Hscan _].
  rewrite appendCompact_kept_ok; [reflexivity| |].
  - apply balanced_kept, geometryText_balanced; [apply Geometry_Type_in_typeNames|exact Hp].
  - rewrite geometryText_split, !scan_app, Hscan.
    rewrite (Ha _ _ _ (or_introl eq_refl) (fits_in_object d Hd)). reflexivity.
Qed.

(** ** Geometries with finite coordinates *)

Lemma good_positions (s : slice Position) :
  Positions_finite s = true -> good 2 (encodePositions s).
Proof.
  intros H. apply (good_slice encodePosition 1). apply List.Forall_forall.
  intros p Hp. apply good_position.
  unfold Positions_finite in H. rewrite forallb_forall in H. now apply H.
Qed.

Lemma good_positions2 (s : slice (slice Position)) :
  Positions2_finite s = true -> good 3 (encodePositions2 s).
Proof.
  intros H. apply (good_slice encodePositions 2). apply List.Forall_forall.
  intros p Hp. apply good_positions.
  unfold Positions2_finite in H. rewrite forallb_forall in H. now apply H.
Qed.

Lemma good_positions3 (s : slice (slice (slice Position))) :
  Positions3_finite s = true -> good 4 (encodePositions3 s).
Proof.
  intros H. apply (good_slice encodePositions2 3). apply List.Forall_forall.
  intros p Hp. apply good_positions2.
  unfold Positions3_finite in H. rewrite forallb_forall in H. now apply H.
Qed.

(** Induction over a geometry and the members of its collections. *)
Lemma Geometry_induction (P : Geometry -> Prop) :
  (forall g, isCollection g = false -> P g) ->
  (forall gs : slice (option Geometry),
     Forall (fun o => match o with
                      | Some g => P g
                      | None => True
                      end) (elems gs) ->
     P (GeometryCollectionPtr gs)) ->
  forall g, P g.
Proof.
  intros Hcoordinates Hcollection. fix IH 1.
  intros [p|p|p|p|p|p|gs]; try (now apply Hcoordinates).
  apply Hcollection. destruct gs as [l|]; simpl; [|constructor].
  induction l as [|[g|] l IHl]; constructor; auto.
Qed.

Lemma all_encoded {A} (enc : A -> result) (l : list A) :
  Forall (fun x => exists t, enc x = Ok t) l -> exists ts, List.map enc l = List.map Ok ts.
Proof.
  induction 1 as [|x l (t & Hx) _ (ts & Hts)].
  - now exists [].
  - exists (t :: ts). simpl. now rewrite Hx, Hts.
Qed.

Lemma small_depth (d : N) : (d <= 4)%N -> (d < maxNestingDepth)%N.
Proof. unfold maxNestingDepth. lia. Qed.

(** A geometry of one of the six coordinate types with finite coordinates is
    written as the struct its method builds. *)
Lemma finite_coordinates_encoded (g : Geometry) :
  isCollection g = false -> Geometry_finite g = true ->
  exists ct, encodeGeometry g = Ok (geometryText (Geometry_Type g) ct).
Proof.
  destruct g as [p|p|p|p|p|p|gs]; simpl; intros Hc Hfin; try discriminate Hc.
  - destruct (marshal_good_coordinates encodePosition (PointPtr p) (Coordinates p) 1
                (good_position _ Hfin) (small_depth 1 ltac:(lia))) as (ct & _ & H).
    eauto.
  - destruct (marshal_good_coordinates encodePositions (MultiPointPtr p) (Coordinates p) 2
                (good_positions _ Hfin) (small_depth 2 ltac:(lia))) as (ct & _ & H).
    eauto.
  - destruct (marshal_good_coordinates encodePositions (LineStringPtr p) (Coordinates p) 2
                (good_positions _ Hfin) (small_depth 2 ltac:(lia))) as (ct & _ & H).
    eauto.
  - destruct (marshal_good_coordinates encodePositions2 (MultiLineStringPtr p) (Coordinates p) 3
                (good_positions2 _ Hfin) (small_depth 3 ltac:(lia))) as (ct & _ & H).
    eauto.
  - destruct (marshal_good_coordinates encodePositions2 (PolygonPtr p) (Coordinates p) 3
                (good_positions2 _ Hfin) (small_depth 3 ltac:(lia))) as (ct & _ & H).
    eauto.
  - destruct (marshal_good_coordinates encodePositions3 (MultiPolygonPtr p) (Coordinates p) 4
                (good_positions3 _ Hfin) (small_depth 4 ltac:(lia))) as (ct & _ & H).
    eauto.
Qed.

Lemma finite_geometry_encoded (g : Geometry) :
  Geometry_finite g = true -> exists t, encodeGeometry g = Ok t.
Proof.
  induction g as [g Hg | gs IH] using Geometry_induction; intros Hfin.
  - destruct (finite_coordinates_encoded g Hg Hfin) as (ct & H). eauto.
  - simpl in Hfin |- *. destruct gs as [l|]; simpl in *; [|now exists "null"].
    destruct (all_encoded (interfaceEncoder encodeGeometry) l) as (ts & Hts).
    + rewrite forallb_forall in Hfin. rewrite List.Forall_forall in IH |- *.
      intros [g|] Ho; simpl; [|now exists "null"].
      apply (IH (Some g) Ho). now apply (Hfin (Some g)).
    + rewrite Hts, commaSeparated_Ok. simpl. eauto.
Qed.

(** ** The shape of the texts *)

Lemma commaSeparated_inv (rs : list result) (t : string) :
  commaSeparated rs = Ok t -> exists ts, rs = List.map Ok ts /\ t = joinComma ts.
Proof.
  revert t. induction rs as [|r rs IH]; intros t; simpl.
  - intros [= <-]. now exists [].
  - destruct r as [t1|e]; simpl; [|discriminate].
    destruct rs as [|r' rs].
    + intros [= <-]. now exists [t1].
    + destruct (commaSeparated (r' :: rs)) as [t2|e] eqn:H; simpl; [|discriminate].
      intros [= <-]. destruct (IH t2 eq_refl) as (ts & Hts & ->).
      exists (t1 :: ts). rewrite Hts. split; [reflexivity|].
      destruct ts; [discriminate Hts|reflexivity].
Qed.

(** The elements of an encoded list, one text for each. *)
Lemma encoded_texts {A} (enc : A -> result) (P : string -> Prop) (l : list A) (ts : list string) :
  Forall (fun x => forall tx, enc x = Ok tx -> P tx) l ->
  List.map enc l = List.map Ok ts -> Forall P ts.
Proof.
  intros Hall. revert ts.
  induction Hall as [|x l Hx _ IH]; intros [|tx ts] Hmap; try discriminate; constructor.
  - injection Hmap as Hx' _. now apply Hx.
  - injection Hmap as _ Hl. now apply IH.
Qed.

Lemma sliceEncoder_plain {A} (enc : A -> result) (s : slice A) (t : string) :
  Forall (fun x => forall tx, enc x = Ok tx -> all_plain tx = true) (elems s) ->
  sliceEncoder enc s = Ok t -> all_plain t = true.
Proof.
  destruct s as [l|]; simpl; intros Hall; [|now intros [= <-]].
  destruct (commaSeparated (List.map enc l)) as [ts|e] eqn:H; simpl; [|discriminate].
  intros [= <-]. apply commaSeparated_inv in H as (txs & Hmap & ->).
  change ("[" ++ ?x) with (String "[" x). simpl.
  rewrite all_plain_app, joinComma_plain; [reflexivity|].
  exact (encoded_texts enc (fun tx => all_plain tx = true) l txs Hall Hmap).
Qed.

Lemma encodePosition_plain (p : Position) (t : string) :
  encodePosition p = Ok t -> all_plain t = true.
Proof. intros H. apply encodePosition_inv in H as ->. apply positionText_plain. Qed.

Lemma encodePositions_plain (s : slice Position) (t : string) :
  encodePositions s = Ok t -> all_plain t = true.
Proof.
  apply sliceEncoder_plain, List.Forall_forall. intros p _. apply encodePosition_plain.
Qed.

Lemma encodePositions2_plain (s : slice (slice Position)) (t : string) :
  encodePositions2 s = Ok t -> all_plain t = true.
Proof.
  apply sliceEncoder_plain, List.Forall_forall. intros p _. apply encodePositions_plain.
Qed.

Lemma encodePositions3_plain (s : slice (slice (slice Position))) (t : string) :
  encodePositions3 s = Ok t -> all_plain t = true.
Proof.
  apply sliceEncoder_plain, List.Forall_forall. intros p _. apply encodePositions2_plain.
Qed.

(** A written struct of [type] and [coordinates] is the struct the method
    built. *)
Lemma marshal_coordinates_inv {C} (encodeC : C -> result) (g : Geometry) (c : C) (t : string) :
  (forall ct, encodeC c = Ok ct -> all_plain ct = true) ->
  marshalerEncoder (marshalGeoJSONGeometryWithCoordinates encodeC g c) = Ok t ->
  exists ct, encodeC c = Ok ct /\ all_plain ct = true /\
             t = geometryText (Geometry_Type g) ct.
Proof.
  intros Hplain H. apply marshalerEncoder_inv in H as (b & Hb & Ht).
  apply marshalGeoJSON_inv in Hb as (ct & Hc & ->).
  exists ct. split; [exact Hc|]. split; [now apply Hplain|].
  apply appendCompact_kept_inv; [|exact Ht].
  apply balanced_kept, geometryText_balanced;
    [apply Geometry_Type_in_typeNames|now apply Hplain].
Qed.

Lemma coordinates_text (g : Geometry) (t : string) :
  isCollection g = false -> encodeGeometry g = Ok t ->
  exists ct, all_plain ct = true /\ t = geometryText (Geometry_Type g) ct.
Proof.
  destruct g as [p|p|p|p|p|p|gs]; intros Hc H; try discriminate Hc;
    cbn [encodeGeometry] in H;
    unfold Point_MarshalJSON, MultiPoint_MarshalJSON, LineString_MarshalJSON,
      MultiLineString_MarshalJSON, Polygon_MarshalJSON, MultiPolygon_MarshalJSON in H;
    eapply marshal_coordinates_inv in H as (ct & _ & Hp & ->);
    eauto using encodePosition_plain, encodePositions_plain, encodePositions2_plain,
                encodePositions3_plain.
Qed.

Lemma joinComma_balanced (ts : list string) :
  Forall balanced ts -> balanced (joinComma ts).
Proof.
  induction 1 as [|t ts Ht Hts IH]; [now split|].
  destruct ts as [|t' ts]; [exact Ht|].
  change (joinComma (t :: t' :: ts)) with (t ++ "," ++ joinComma (t' :: ts)).
  apply balanced_app; [exact Ht|]. apply balanced_app; [now split|exact IH].
Qed.

Lemma brackets_balanced (open close body : string) :
  all_plain open = true -> all_plain close = true -> balanced body ->
  balanced (open ++ body ++ close).
Proof.
  intros Ho Hc Hb. apply balanced_app; [now apply plain_balanced|].
  apply balanced_app; [exact Hb|now apply plain_balanced].
Qed.

Lemma sliceEncoder_balanced {A} (enc : A -> result) (s : slice A) (t : string) :
  Forall (fun x => forall tx, enc x = Ok tx -> balanced tx) (elems s) ->
  sliceEncoder enc s = Ok t -> balanced t.
Proof.
  destruct s as [l|]; simpl; intros Hall; [|intros [= <-]; now split].
  destruct (commaSeparated (List.map enc l)) as [ts|e] eqn:H; simpl; [|discriminate].
  intros [= <-]. apply commaSeparated_inv in H as (txs & Hmap & ->).
  apply (brackets_balanced "[" "]"); try reflexivity.
  apply joinComma_balanced. exact (encoded_texts enc balanced l txs Hall Hmap).
Qed.

(** The text of a geometry is balanced. *)
Lemma encodeGeometry_balanced (g : Geometry) :
  forall t, encodeGeometry g = Ok t -> balanced t.
Proof.
  induction g as [g Hg | gs IH] using Geometry_induction; intros t H.
  - destruct (coordinates_text g t Hg H) as (ct & Hct & ->).
    apply geometryText_balanced; [apply Geometry_Type_in_typeNames|exact Hct].
  - simpl in H. eapply sliceEncoder_balanced; [|exact H].
    apply List.Forall_forall. intros [g|] Ho tx; simpl; [|intros [= <-]; now split].
    rewrite List.Forall_forall in IH. apply (IH (Some g) Ho).
Qed.

Lemma geometryText_json (T ct : string) :
  In T typeNames ->
  geometryText T ct = json "{'type':'" ++ T ++ json "','coordinates':" ++ ct ++ "}".
Proof.
  unfold geometryText. simpl In. intros H.
  repeat (destruct H as [<- | H]; [reflexivity|]). contradiction.
Qed.

(** What does hold of C6: the text of a geometry of one of the six
    coordinate types, when it is written, is an object whose [type] member is
    the string [Type] returns, followed by the [coordinates] member. *)
Lemma coordinate_geometry_type_member (g : Geometry) (t : string) :
  isCollection g = false ->
  ToText (Some (GeometryObject g)) = Ok t ->
  exists ct, t = json "{'type':'" ++ Geometry_Type g ++ json "','coordinates':" ++ ct ++ "}".
Proof.
  simpl. intros Hg H. destruct (coordinates_text g t Hg H) as (ct & _ & ->).
  exists ct. apply geometryText_json, Geometry_Type_in_typeNames.
Qed.

(** ** Quoted strings *)

Lemma inside_ok_app (t1 t2 : string) : inside_ok t1 -> inside_ok t2 -> inside_ok (t1 ++ t2).
Proof.
  intros [K1 M1] [K2 M2]. split.
  - apply kept_app; [exact K1|now rewrite M1].
  - now rewrite moves_app, M1.
Qed.

(** What [appendString] writes for an ASCII byte. *)
Lemma ascii_token_inside (c : ascii) :
  (code c <? 128)%N = true ->
  inside_ok (if htmlSafe c then String c EmptyString else escapeASCII c).
Proof.
  unfold inside_ok.
  destruct c as [[] [] [] [] [] [] [] []]; vm_compute; intros H;
    first [discriminate H | split; reflexivity].
Qed.

Lemma high_byte (c : ascii) :
  (code c <? 128)%N = false ->
  isHTMLbyte c = false /\ isSpace c = false /\
  (c =? dquote)%char = false /\ (c =? backslash)%char = false.
Proof.
  destruct c as [[] [] [] [] [] [] [] []]; vm_compute; intros H;
    first [discriminate H | repeat split; reflexivity].
Qed.

Lemma in_range_continuation (lo hi : N) (b : ascii) :
  (128 <= lo)%N -> (hi <= 191)%N -> in_range lo hi b = true -> continuation b.
Proof.
  unfold continuation, in_range. intros Hlo Hhi H.
  apply andb_prop in H as [H1 H2]. apply N.leb_le in H1, H2.
  apply andb_true_intro. split; apply N.leb_le; lia.
Qed.

Lemma continuation_high (b : ascii) :
  continuation b -> (code b <? 128)%N = false /\ (code b =? 226)%N = false.
Proof.
  unfold continuation, in_range. intros H.
  apply andb_prop in H as [H1 H2]. apply N.leb_le in H1, H2.
  split; [apply N.ltb_ge|apply N.eqb_neq]; lia.
Qed.

(** A high byte that is not 226, or a continuation byte, is kept inside a
    string literal and leaves the position there. *)
Lemma high_byte_inside (c : ascii) (rest : string) :
  (code c <? 128)%N = false -> (code c =? 226)%N = false ->
  kept Inside (String c rest) = kept Inside rest /\ move Inside c = Inside.
Proof.
  intros Hhigh H226. destruct (high_byte c Hhigh) as (Hhtml & Hsp & Hdq & Hbs).
  simpl. now rewrite Hhtml, H226, Hsp, Hdq, Hbs.
Qed.

Ltac continuation_bytes :=
  repeat match goal with
         | H : in_range ?lo ?hi ?b = true |- _ =>
           apply (in_range_continuation lo hi b) in H; [|lia|lia]
         end.

(** A decoded rune: its first byte is a high byte and its continuation bytes
    are there. *)
Lemma decodeRune_inv (c : ascii) (rest : string) (r : N) (size : nat) :
  decodeRune c rest = Some (r, size) ->
  (code c <? 128)%N = false /\
  ((size = 2 /\ (code c =? 226)%N = false /\
    exists b1 rest', rest = String b1 rest' /\ continuation b1) \/
   (size = 3 /\
    exists b1 b2 rest', rest = String b1 (String b2 rest') /\
                        continuation b1 /\ continuation b2) \/
   (size = 4 /\ (code c =? 226)%N = false /\
    exists b1 b2 b3 rest', rest = String b1 (String b2 (String b3 rest')) /\
                           continuation b1 /\ continuation b2 /\ continuation b3)).
Proof.
  unfold decodeRune. cbv zeta. intros H.
  repeat match type of H with
         | context [if ?b then _ else _] => destruct b eqn:?
         end;
    try discriminate H;
    destruct rest as [|b1 [|b2 [|b3 rest]]]; try discriminate H;
    repeat match type of H with
           | context [if ?b then _ else _] => destruct b eqn:?
           end;
    try discriminate H;
    injection H as <- <-;
    repeat match goal with
           | H : (_ && _)%bool = true |- _ => apply andb_prop in H as [? ?]
           | H : (_ <=? _)%N = true |- _ => apply N.leb_le in H
           | H : (_ =? _)%N = true |- _ => apply N.eqb_eq in H
           end;
    continuation_bytes;
    (split; [apply N.ltb_ge; lia|]);
    first
      [ left; split; [reflexivity|]; split; [apply N.eqb_neq; lia|]; eauto 10
      | right; left; split; [reflexivity|]; eauto 10
      | right; right; split; [reflexivity|]; split; [apply N.eqb_neq; lia|]; eauto 10 ].
Qed.

Lemma code_eq (c : ascii) (n : N) : code c = n -> c = ascii_of_N n.
Proof. unfold code. intros <-. symmetry. apply ascii_N_embedding. Qed.

(** The three bytes of a rune other than U+2028 and U+2029 are kept. *)
Lemma rune3_inside (c b1 b2 : ascii) (rest : string) (r : N) :
  decodeRune c (String b1 (String b2 rest)) = Some (r, 3) ->
  ((r =? 8232) || (r =? 8233))%N = false ->
  continuation b1 -> continuation b2 ->
  inside_ok (String c (String b1 (String b2 EmptyString))).
Proof.
  intros Hdec Hr H1 H2.
  destruct (decodeRune_inv _ _ _ _ Hdec) as [Hhigh _].
  destruct (continuation_high b1 H1) as [Hh1 He1].
  destruct (continuation_high b2 H2) as [Hh2 He2].
  destruct (high_byte c Hhigh) as (Hhtml & Hsp & Hdq & Hbs).
  destruct (high_byte_inside b1 (String b2 EmptyString) Hh1 He1) as [K1 M1].
  destruct (high_byte_inside b2 EmptyString Hh2 He2) as [K2 M2].
  assert (Hm : move Inside c = Inside) by (simpl; now rewrite Hdq, Hbs).
  split.
  - change (kept Inside (String c (String b1 (String b2 EmptyString))))
      with (negb (isHTMLbyte c)
            && (if (code c =? 226)%N
                then negb ((code b1 =? 128) && ((code b2 =? 168) || (code b2 =? 169)))%N
                else true)
            && (negb (isSpace c) || true)
            && kept (move Inside c) (String b1 (String b2 EmptyString))).
    rewrite Hhtml, Hsp, Hm, K1, K2. simpl.
    destruct (code c =? 226)%N eqn:Hc; [|reflexivity].
    destruct (code b1 =? 128)%N eqn:Hb1; [|reflexivity].
    destruct ((code b2 =? 168) || (code b2 =? 169))%N eqn:Hb2; [|reflexivity].
    exfalso. apply N.eqb_eq in Hc, Hb1.
    apply code_eq in Hc, Hb1. subst c b1.
    apply orb_prop in Hb2 as [Hb2 | Hb2]; apply N.eqb_eq, code_eq in Hb2; subst b2;
      vm_compute in Hdec; injection Hdec as <-; discriminate Hr.
  - cbn [moves]. now rewrite Hm, M1, M2.
Qed.

(** One round of the loop of [appendString]: a token that is kept inside a
    string literal, and the loop on what is left of the source. *)
Lemma appendStringLoop_step (c : ascii) (rest : string) :
  exists tk rest',
    appendStringLoop Fresh (String c rest) = tk ++ appendStringLoop Fresh rest' /\
    inside_ok tk /\ String.length rest' <= String.length rest.
Proof.
  cbn [appendStringLoop].
  destruct (code c <? 128)%N eqn:Hascii.
  { exists (if htmlSafe c then String c EmptyString else escapeASCII c), rest.
    split; [reflexivity|]. split; [now apply ascii_token_inside|lia]. }
  destruct (decodeRune c rest) as [[r size]|] eqn:Hdec.
  2:{ exists "\ufffd", rest. repeat split; lia. }
  destruct (decodeRune_inv c rest r size Hdec) as [_ Hshape].
  destruct ((r =? 8232) || (r =? 8233))%N eqn:Hr.
  - assert (Htk : inside_ok ("\u202" ++ String (hex (N.land r 15)) EmptyString)).
    { apply orb_prop in Hr as [Hr | Hr]; apply N.eqb_eq in Hr; subst r; now split. }
    destruct Hshape as [(-> & _ & b1 & rest' & -> & _)
                       |[(-> & b1 & b2 & rest' & -> & _)
                        |(-> & _ & b1 & b2 & b3 & rest' & -> & _)]];
      exists ("\u202" ++ String (hex (N.land r 15)) EmptyString), rest';
      (split; [reflexivity|]); (split; [exact Htk|simpl; lia]).
  - destruct Hshape as [(-> & H226 & b1 & rest' & -> & C1)
                       |[(-> & b1 & b2 & rest' & -> & C1 & C2)
                        |(-> & H226 & b1 & b2 & b3 & rest' & -> & C1 & C2 & C3)]].
    + exists (String c (String b1 EmptyString)), rest'.
      split; [reflexivity|]. split; [|simpl; lia].
      destruct (continuation_high b1 C1) as [Hh1 He1].
      destruct (high_byte_inside c (String b1 EmptyString) Hascii H226) as [K0 M0].
      destruct (high_byte_inside b1 EmptyString Hh1 He1) as [K1 M1].
      split; [now rewrite K0, K1|cbn [moves]; now rewrite M0, M1].
    + exists (String c (String b1 (String b2 EmptyString))), rest'.
      split; [reflexivity|]. split; [|simpl; lia].
      exact (rune3_inside c b1 b2 rest' r Hdec Hr C1 C2).
    + exists (String c (String b1 (String b2 (String b3 EmptyString)))), rest'.
      split; [reflexivity|]. split; [|simpl; lia].
      destruct (continuation_high b1 C1) as [Hh1 He1].
      destruct (continuation_high b2 C2) as [Hh2 He2].
      destruct (continuation_high b3 C3) as [Hh3 He3].
      destruct (high_byte_inside c (String b1 (String b2 (String b3 EmptyString)))
                  Hascii H226) as [K0 M0].
      destruct (high_byte_inside b1 (String b2 (String b3 EmptyString)) Hh1 He1) as [K1 M1].
      destruct (high_byte_inside b2 (String b3 EmptyString) Hh2 He2) as [K2 M2].
      destruct (high_byte_inside b3 EmptyString Hh3 He3) as [K3 M3].
      split; [now rewrite K0, K1, K2, K3|cbn [moves]; now rewrite M0, M1, M2, M3].
Qed.

Lemma appendStringLoop_inside (n : nat) :
  forall src, String.length src <= n -> inside_ok (appendStringLoop Fresh src).
Proof.
  induction n as [|n IH]; intros [|c rest] Hlen; simpl in Hlen; try (now split); try lia.
  destruct (appendStringLoop_step c rest) as (tk & rest' & -> & Htk & Hrest).
  apply inside_ok_app; [exact Htk|]. apply IH. lia.
Qed.

(** A quoted string is a balanced text. *)
Lemma appendString_balanced (src : string) : balanced (appendString src).
Proof.
  destruct (appendStringLoop_inside (String.length src) src (le_n _)) as [K M].
  unfold appendString, balanced.
  assert (E : String dquote (appendStringLoop Fresh src ++ String dquote EmptyString)
              = String dquote EmptyString
                ++ (appendStringLoop Fresh src ++ String dquote EmptyString))
    by reflexivity.
  rewrite E. split.
  - apply (kept_app Outside (String dquote EmptyString)); [reflexivity|].
    change (moves Outside (String dquote EmptyString)) with Inside.
    apply kept_app; [exact K|]. rewrite M. reflexivity.
  - rewrite !moves_app.
    change (moves Outside (String dquote EmptyString)) with Inside.
    rewrite M. reflexivity.
Qed.

(** ** Encoded values *)

(** From [Ok a = Ok t], replace [t] by [a] without computing [a]. *)
Ltac same_text H :=
  match type of H with
  | Ok ?a = Ok ?t =>
    let E := fresh in assert (E : a = t) by congruence; clear H; subst t
  end.

Lemma stringEncoder_balanced (s t : string) : stringEncoder s = Ok t -> balanced t.
Proof. intros [= <-]. apply appendString_balanced. Qed.

Lemma boolEncoder_balanced (b : bool) (t : string) : boolEncoder b = Ok t -> balanced t.
Proof. intros [= <-]. destruct b; now split. Qed.

Lemma intEncoder_balanced (n : Z) (t : string) : intEncoder n = Ok t -> balanced t.
Proof.
  unfold intEncoder. intros [= <-]. apply plain_balanced.
  pose proof (fun k => all_digits_plain _ (decimal_all_digits k)) as Hd.
  destruct (n <? 0)%Z; cbn [all_plain]; now rewrite Hd.
Qed.

Lemma member_balanced (kv : string * result) (t : string) :
  (forall tx, snd kv = Ok tx -> balanced tx) -> member kv = Ok t -> balanced t.
Proof.
  unfold member. intros Hv. destruct (snd kv) as [tx|e]; cbn [bind]; [|discriminate].
  intros H. same_text H. apply balanced_app; [apply appendString_balanced|].
  apply balanced_app; [now split|now apply Hv].
Qed.

Lemma structEncoder_balanced (fields : list (string * result)) (t : string) :
  Forall (fun kv => forall tx, snd kv = Ok tx -> balanced tx) fields ->
  structEncoder fields = Ok t -> balanced t.
Proof.
  unfold structEncoder. intros Hall.
  destruct (commaSeparated (List.map member fields)) as [ts|e] eqn:H; cbn [bind];
    [|discriminate].
  intros Ht. same_text Ht. apply commaSeparated_inv in H as (txs & Hmap & ->).
  apply (brackets_balanced "{" "}"); try reflexivity.
  apply joinComma_balanced. apply (encoded_texts member balanced fields txs); [|exact Hmap].
  apply List.Forall_forall. intros kv Hin tx. apply member_balanced.
  rewrite List.Forall_forall in Hall. now apply Hall.
Qed.

Lemma Forall_insertEntry {V} (P : string * V -> Prop) (kv : string * V)
    (sorted : list (string * V)) :
  P kv -> Forall P sorted -> Forall P (insertEntry kv sorted).
Proof.
  intros Hkv. induction 1 as [|kv' rest Hkv' Hrest IH]; simpl.
  - now constructor.
  - destruct (String.leb (fst kv) (fst kv')); constructor; auto.
Qed.

Lemma Forall_sortEntries {V} (P : string * V -> Prop) (m : list (string * V)) :
  Forall P m -> Forall P (sortEntries m).
Proof.
  unfold sortEntries. induction 1 as [|kv rest Hkv Hrest IH]; simpl.
  - constructor.
  - now apply Forall_insertEntry.
Qed.

Lemma mapEncoder_balanced {V} (enc : V -> result) (m : gomap V) (t : string) :
  Forall (fun kv => forall tx, enc (snd kv) = Ok tx -> balanced tx)
         (match m with Some entries => entries | None => [] end) ->
  mapEncoder enc m = Ok t -> balanced t.
Proof.
  destruct m as [entries|]; simpl; intros Hall; [|intros [= <-]; now split].
  apply structEncoder_balanced, Forall_sortEntries.
  induction Hall as [|kv rest Hkv _ IH]; simpl; constructor; assumption.
Qed.

(** Induction over a dynamic value and the values it holds. *)
Lemma any_induction (P : any -> Prop) :
  P any_nil ->
  (forall b, P (any_bool b)) ->
  (forall n, P (any_int n)) ->
  (forall s, P (any_string s)) ->
  (forall l : slice any, Forall P (elems l) -> P (any_slice l)) ->
  (forall m : gomap any,
     Forall (fun kv => P (snd kv)) (match m with Some entries => entries | None => [] end) ->
     P (any_map m)) ->
  P any_chan ->
  forall v, P v.
Proof.
  intros Hnil Hbool Hint Hstring Hslice Hmap Hchan. fix IH 1.
  intros [|b|n|s|l|m|];
    [apply Hnil|apply Hbool|apply Hint|apply Hstring| | |apply Hchan].
  - apply Hslice. destruct l as [l|]; simpl; [|constructor].
    induction l as [|v l IHl]; constructor; [apply IH|exact IHl].
  - apply Hmap. destruct m as [entries|]; [|constructor].
    induction entries as [|[k v] entries IHe]; constructor; [apply IH|exact IHe].
Qed.

(** The text of a dynamic value is balanced. *)
Lemma anyEncoder_balanced (v : any) : forall t, anyEncoder v = Ok t -> balanced t.
Proof.
  induction v as [|b|n|s|l IH|m IH|] using any_induction; intros t; simpl.
  - intros [= <-]. now split.
  - apply boolEncoder_balanced.
  - apply intEncoder_balanced.
  - apply stringEncoder_balanced.
  - now apply sliceEncoder_balanced.
  - now apply mapEncoder_balanced.
  - discriminate.
Qed.

Lemma interfaceEncoder_balanced (o : option Geometry) (g : string) :
  interfaceEncoder encodeGeometry o = Ok g -> balanced g.
Proof.
  destruct o as [x|]; simpl; [apply encodeGeometry_balanced|intros [= <-]; now split].
Qed.

Lemma properties_balanced (m : gomap any) (t : string) :
  mapEncoder anyEncoder m = Ok t -> balanced t.
Proof.
  apply mapEncoder_balanced, List.Forall_forall. intros kv _. apply anyEncoder_balanced.
Qed.

(** The text [Feature.MarshalJSON] returns is balanced. *)
Lemma Feature_MarshalJSON_balanced (f : Feature) (b : string) :
  Feature_MarshalJSON f = Ok b -> balanced b.
Proof.
  apply structEncoder_balanced. unfold Feature_fields.
  repeat first [apply List.Forall_cons | apply List.Forall_nil]; cbn [snd].
  - apply stringEncoder_balanced.
  - apply interfaceEncoder_balanced.
  - apply properties_balanced.
Qed.

(** So [encoding/json] writes an addressable Feature exactly as its method
    returns it. *)
Lemma encodeFeatureAddr_inv (f : Feature) (t : string) :
  encodeFeatureAddr f = Ok t -> Feature_MarshalJSON f = Ok t.
Proof.
  apply marshalerEncoder_kept. intros b Hb.
  apply balanced_kept, (Feature_MarshalJSON_balanced f b Hb).
Qed.

Lemma FeatureCollection_MarshalJSON_balanced (c : FeatureCollection) (b : string) :
  FeatureCollection_MarshalJSON c = Ok b -> balanced b.
Proof.
  apply structEncoder_balanced.
  repeat first [apply List.Forall_cons | apply List.Forall_nil]; cbn [snd].
  - apply stringEncoder_balanced.
  - intros tx. apply sliceEncoder_balanced, List.Forall_forall. intros f _ tf Hf.
    apply encodeFeatureAddr_inv in Hf. now apply (Feature_MarshalJSON_balanced f).
Qed.

(** What [ToText] returns for a [*Feature] or a [*FeatureCollection] is what
    the [MarshalJSON] method returned. *)
Lemma ToText_FeaturePtr_inv (f : Feature) (t : string) :
  ToText (Some (FeaturePtr f)) = Ok t -> Feature_MarshalJSON f = Ok t.
Proof. apply encodeFeatureAddr_inv. Qed.

Lemma ToText_FeatureCollectionPtr_inv (c : FeatureCollection) (t : string) :
  ToText (Some (FeatureCollectionPtr c)) = Ok t -> FeatureCollection_MarshalJSON c = Ok t.
Proof.
  simpl. apply marshalerEncoder_kept. intros b Hb.
  apply balanced_kept, (FeatureCollection_MarshalJSON_balanced c b Hb).
Qed.

(** Any text [ToText] returns for a FeatureCollection is the object with the
    members [type] and [features], the latter being the encoding of the slice
    itself. *)
Lemma FeatureCollection_text (c : FeatureCollection) (t : string) :
  ToText (Some (FeatureCollectionPtr c)) = Ok t ->
  exists fs, sliceEncoder encodeFeatureAddr c = Ok fs /\
             t = json "{'type':'FeatureCollection','features':" ++ fs ++ "}".
Proof.
  intros H. apply ToText_FeatureCollectionPtr_inv in H.
  unfold FeatureCollection_MarshalJSON, structEncoder, member in H.
  cbn [List.map fst snd] in H.
  destruct (sliceEncoder encodeFeatureAddr c) as [fs|e]; [|discriminate H].
  exists fs. split; [reflexivity|].
  cbn [bind stringEncoder commaSeparated FeatureCollection_Type] in H.
  same_text H. rewrite !string_app_assoc. reflexivity.
Qed.

(** ** The properties of a Feature *)

Lemma Feature_MarshalJSON_text (f : Feature) (g props : string) :
  interfaceEncoder encodeGeometry (Feature_Geometry f) = Ok g ->
  mapEncoder anyEncoder (Properties f) = Ok props ->
  Feature_MarshalJSON f
  = Ok (json "{'type':'Feature','geometry':" ++ g ++ json ",'properties':" ++ props ++ "}").
Proof.
  intros Hg Hp. unfold Feature_MarshalJSON, Feature_fields, structEncoder, member.
  cbn [List.map fst snd]. rewrite Hg, Hp.
  cbn [bind stringEncoder commaSeparated Feature_Type].
  f_equal. rewrite !string_app_assoc. reflexivity.
Qed.

Lemma encodeFeatureValue_text (f : Feature) (g props : string) :
  interfaceEncoder encodeGeometry (Feature_Geometry f) = Ok g ->
  mapEncoder anyEncoder (Properties f) = Ok props ->
  encodeFeatureValue f
  = Ok (json "{'geometry':" ++ g ++ json ",'properties':" ++ props ++ "}").
Proof.
  intros Hg Hp. unfold encodeFeatureValue, Feature_fields, structEncoder, member.
  cbn [List.map fst snd]. rewrite Hg, Hp.
  cbn [bind commaSeparated].
  f_equal. rewrite !string_app_assoc. reflexivity.
Qed.

(* ===================================================================== *)
(** * Further properties *)
(* ===================================================================== *)

(** ** Errors of the coordinates *)

Lemma is_ok_commaSeparated (rs : list result) :
  is_ok (commaSeparated rs) = forallb is_ok rs.
Proof.
  induction rs as [|r rs IH]; [reflexivity|].
  cbn [commaSeparated forallb]. destruct r as [t|e]; cbn [bind is_ok andb]; [|reflexivity].
  destruct rs as [|r' rs]; [reflexivity|].
  rewrite <- IH. destruct (commaSeparated (r' :: rs)); reflexivity.
Qed.

(** A slice is written exactly when each of its elements is. *)
Lemma is_ok_sliceEncoder {A} (enc : A -> result) (fin : A -> bool) (s : slice A) :
  (forall x, In x (elems s) -> is_ok (enc x) = fin x) ->
  is_ok (sliceEncoder enc s) = forallb fin (elems s).
Proof.
  destruct s as [l|]; cbn [sliceEncoder elems]; intros H; [|reflexivity].
  transitivity (is_ok (commaSeparated (List.map enc l))).
  { destruct (commaSeparated (List.map enc l)); reflexivity. }
  rewrite is_ok_commaSeparated.
  induction l as [|x l IH]; [reflexivity|].
  cbn [List.map forallb]. rewrite (H x (or_introl eq_refl)). f_equal.
  apply IH. intros y Hy. apply H. now right.
Qed.

(** The scanner rejects what %f prints for a NaN or an infinity. *)
Lemma scan_not_finite (x : float64) (f : stepfn) (ps : list parseKind) (rest : string) :
  finite x = false -> begins f ->
  err (scan (at_state f ps) (Fmt.Sprintf_f x ++ rest)) = true.
Proof.
  intros Hx Hf.
  destruct x as [s | [] | | s m e]; try discriminate Hx;
    destruct Hf as [-> | ->]; cbn [Fmt.Sprintf_f];
    change ("NaN" ++ rest) with (String "N" ("aN" ++ rest));
    change ("+Inf" ++ rest) with (String "+" ("Inf" ++ rest));
    change ("-Inf" ++ rest) with (String "-" (String "I" ("nf" ++ rest)));
    rewrite !scan_cons; apply scan_err; reflexivity.
Qed.

Lemma scan_position_not_finite (p : Position) :
  Position_finite p = false -> err (scan newScanner (positionText p)) = true.
Proof.
  unfold Position_finite, positionText. intros Hp.
  change newScanner with (at_state stateBeginValue []).
  change ("[" ++ ?x) with (String "[" x).
  rewrite scan_cons, (step_open_array _ [] (or_introl eq_refl) fits_top).
  destruct (finite (Longitude p)) eqn:Hlon.
  - destruct (Sprintf_f_finite _ Hlon) as (s1 & m1 & ->).
    change ("," ++ ?x) with (String "," x).
    rewrite scan_app, scan_fixed by (now right).
    rewrite scan_cons, step_comma_array by (now right).
    apply scan_not_finite; [exact Hp|now left].
  - apply scan_not_finite; [exact Hlon|now right].
Qed.

(** A position holding a NaN or an infinity is refused by the check applied
    to the text of [MarshalJSON]. *)
Lemma encodePosition_not_finite (p : Position) :
  Position_finite p = false -> encodePosition p = Err (MarshalerError SyntaxError).
Proof.
  intros Hp. unfold encodePosition, Position_MarshalJSON, marshalerEncoder.
  fold (positionText p).
  assert (H : appendCompact (positionText p) = Err SyntaxError); [|now rewrite H].
  unfold appendCompact.
  pose proof (scan_position_not_finite p Hp) as He.
  destruct (compactLoop_kept (positionText p) newScanner newScanner_consistent eq_refl
              (balanced_kept _ (plain_balanced _ (positionText_plain p))))
    as [-> | [He' _]].
  - unfold eof. now rewrite He.
  - destruct (compactLoop newScanner 0 (positionText p)) as [s out].
    simpl in He'. unfold eof. now rewrite He'.
Qed.

Lemma is_ok_encodePosition (p : Position) :
  is_ok (encodePosition p) = Position_finite p.
Proof.
  destruct (Position_finite p) eqn:Hp.
  - now rewrite encodePosition_finite.
  - now rewrite encodePosition_not_finite.
Qed.

Lemma is_ok_encodePositions (s : slice Position) :
  is_ok (encodePositions s) = Positions_finite s.
Proof. apply is_ok_sliceEncoder. intros p _. apply is_ok_encodePosition. Qed.

Lemma is_ok_encodePositions2 (s : slice (slice Position)) :
  is_ok (encodePositions2 s) = Positions2_finite s.
Proof. apply is_ok_sliceEncoder. intros p _. apply is_ok_encodePositions. Qed.

Lemma is_ok_encodePositions3 (s : slice (slice (slice Position))) :
  is_ok (encodePositions3 s) = Positions3_finite s.
Proof. apply is_ok_sliceEncoder. intros p _. apply is_ok_encodePositions2. Qed.

(** An error of the coordinates is the error of the method, wrapped once
    more by [encoding/json]. *)
Lemma marshal_coordinates_Err {C} (encodeC : C -> result) (g : Geometry) (c : C) (e : error) :
  encodeC c = Err e ->
  marshalerEncoder (marshalGeoJSONGeometryWithCoordinates encodeC g c) = Err (MarshalerError e).
Proof.
  intros H. unfold marshalGeoJSONGeometryWithCoordinates, structEncoder, member.
  cbn [List.map fst snd stringEncoder bind commaSeparated]. rewrite H. reflexivity.
Qed.

Lemma is_ok_Err (r : result) : is_ok r = false -> exists e, r = Err e.
Proof. destruct r as [t|e]; [discriminate|eauto]. Qed.

Lemma is_ok_coordinates (g : Geometry) :
  isCollection g = false -> is_ok (encodeGeometry g) = Geometry_finite g.
Proof.
  intros Hc. destruct (Geometry_finite g) eqn:Hfin.
  - destruct (finite_coordinates_encoded g Hc Hfin) as (ct & ->). reflexivity.
  - destruct g as [p|p|p|p|p|p|gs]; try discriminate Hc; cbn [Geometry_finite] in Hfin;
      cbn [encodeGeometry];
      unfold Point_MarshalJSON, MultiPoint_MarshalJSON, LineString_MarshalJSON,
        MultiLineString_MarshalJSON, Polygon_MarshalJSON, MultiPolygon_MarshalJSON;
      [ rewrite <- is_ok_encodePosition in Hfin
      | rewrite <- is_ok_encodePositions in Hfin
      | rewrite <- is_ok_encodePositions in Hfin
      | rewrite <- is_ok_encodePositions2 in Hfin
      | rewrite <- is_ok_encodePositions2 in Hfin
      | rewrite <- is_ok_encodePositions3 in Hfin ];
      apply is_ok_Err in Hfin as (e & He);
      now rewrite (marshal_coordinates_Err _ _ _ e He).
Qed.

Lemma is_ok_encodeGeometry (g : Geometry) :
  is_ok (encodeGeometry g) = Geometry_finite g.
Proof.
  induction g as [g Hg | gs IH] using Geometry_induction.
  - now apply is_ok_coordinates.
  - cbn [encodeGeometry Geometry_finite].
    rewrite (is_ok_sliceEncoder _ (fun o => match o with
                                            | None => true
                                            | Some g' => Geometry_finite g'
                                            end)).
    + destruct gs; reflexivity.
    + rewrite List.Forall_forall in IH. intros [g|] Ho; [|reflexivity].
      exact (IH (Some g) Ho).
Qed.

(** ** The text of a geometry with finite coordinates *)

Lemma sliceEncoder_text {A} (enc : A -> result) (text : A -> string) (s : slice A) :
  (forall x, In x (elems s) -> enc x = Ok (text x)) ->
  sliceEncoder enc s = Ok (arrayText text s).
Proof.
  destruct s as [l|]; cbn [sliceEncoder arrayText elems]; intros H; [|reflexivity].
  assert (Hmap : List.map enc l = List.map Ok (List.map text l)).
  { induction l as [|x l IH]; [reflexivity|]. cbn [List.map].
    rewrite (H x (or_introl eq_refl)). f_equal. apply IH. intros y Hy. apply H. now right. }
  rewrite Hmap, commaSeparated_Ok. reflexivity.
Qed.

Lemma finite_in {A} (fin : A -> bool) (l : list A) (x : A) :
  forallb fin l = true -> In x l -> fin x = true.
Proof. rewrite forallb_forall. auto. Qed.

Lemma encodePositions_text (s : slice Position) :
  Positions_finite s = true -> encodePositions s = Ok (arrayText positionText s).
Proof.
  intros H. apply sliceEncoder_text. intros p Hp.
  apply encodePosition_finite, (finite_in _ _ _ H Hp).
Qed.

Lemma encodePositions2_text (s : slice (slice Position)) :
  Positions2_finite s = true ->
  encodePositions2 s = Ok (arrayText (arrayText positionText) s).
Proof.
  intros H. apply sliceEncoder_text. intros p Hp.
  apply encodePositions_text, (finite_in _ _ _ H Hp).
Qed.

Lemma encodePositions3_text (s : slice (slice (slice Position))) :
  Positions3_finite s = true ->
  encodePositions3 s = Ok (arrayText (arrayText (arrayText positionText)) s).
Proof.
  intros H. apply sliceEncoder_text. intros p Hp.
  apply encodePositions2_text, (finite_in _ _ _ H Hp).
Qed.

Lemma geometryText_objectText (T ct : string) :
  In T typeNames -> geometryText T ct = objectText T ct.
Proof. apply geometryText_json. Qed.

(** The struct of a coordinate type whose coordinates are written as [ct]. *)
Lemma marshal_coordinates_text {C} (encodeC : C -> result) (g : Geometry) (c : C)
    (d : N) (ct : string) :
  good d (encodeC c) -> (d <= 4)%N -> encodeC c = Ok ct ->
  marshalerEncoder (marshalGeoJSONGeometryWithCoordinates encodeC g c)
  = Ok (objectText (Geometry_Type g) ct).
Proof.
  intros Hgood Hd Hct.
  destruct (marshal_good_coordinates encodeC g c d Hgood (small_depth d Hd))
    as (ct' & Hct' & ->).
  rewrite Hct in Hct'. injection Hct' as <-.
  now rewrite geometryText_objectText by apply Geometry_Type_in_typeNames.
Qed.

Lemma finite_coordinates_text (g : Geometry) :
  isCollection g = false -> Geometry_finite g = true ->
  encodeGeometry g = Ok (geometryJSON g).
Proof.
  destruct g as [p|p|p|p|p|p|gs]; cbn [isCollection Geometry_finite encodeGeometry geometryJSON];
    intros Hc Hfin; try discriminate Hc.
  - apply (marshal_coordinates_text encodePosition (PointPtr p) _ 1);
      [now apply good_position|lia|now apply encodePosition_finite].
  - apply (marshal_coordinates_text encodePositions (MultiPointPtr p) _ 2);
      [now apply good_positions|lia|now apply encodePositions_text].
  - apply (marshal_coordinates_text encodePositions (LineStringPtr p) _ 2);
      [now apply good_positions|lia|now apply encodePositions_text].
  - apply (marshal_coordinates_text encodePositions2 (MultiLineStringPtr p) _ 3);
      [now apply good_positions2|lia|now apply encodePositions2_text].
  - apply (marshal_coordinates_text encodePositions2 (PolygonPtr p) _ 3);
      [now apply good_positions2|lia|now apply encodePositions2_text].
  - apply (marshal_coordinates_text encodePositions3 (MultiPolygonPtr p) _ 4);
      [now apply good_positions3|lia|now apply encodePositions3_text].
Qed.

Lemma finite_geometry_text (g : Geometry) :
  Geometry_finite g = true -> encodeGeometry g = Ok (geometryJSON g).
Proof.
  induction g as [g Hg | gs IH] using Geometry_induction; intros Hfin.
  - now apply finite_coordinates_text.
  - cbn [encodeGeometry geometryJSON]. apply sliceEncoder_text.
    intros [g|] Ho; cbn [interfaceEncoder]; [|reflexivity].
    rewrite List.Forall_forall in IH. apply (IH (Some g) Ho).
    cbn [Geometry_finite] in Hfin. destruct gs as [l|]; [|contradiction Ho].
    exact (finite_in _ l (Some g) Hfin Ho).
Qed.

(** X3: a Point is written as the object of its type and its position when
    both coordinates are finite; otherwise [ToText] returns the syntax error
    of the check, wrapped once for [Position] and once for [*Point]. *)
Theorem Point_ToText :
  forall p : Position,
    ToText (Some (GeometryObject (NewPoint p)))
    = if Position_finite p
      then Ok (json "{'type':'Point','coordinates':[" ++ Fmt.Sprintf_f (Longitude p)
                 ++ "," ++ Fmt.Sprintf_f (Latitude p) ++ "]}")
      else Err (MarshalerError (MarshalerError SyntaxError)).
Proof.
  intros p. destruct (Position_finite p) eqn:Hp.
  - change (ToText (Some (GeometryObject (NewPoint p)))) with (encodeGeometry (NewPoint p)).
    rewrite (finite_geometry_text (NewPoint p) Hp).
    cbn [NewPoint geometryJSON Coordinates]. unfold objectText, positionText.
    f_equal. rewrite !string_app_assoc. reflexivity.
  - cbn [ToText NewPoint encodeGeometry]. unfold Point_MarshalJSON.
    apply marshal_coordinates_Err. now apply encodePosition_not_finite.
Qed.

(** X4: [NewMultiPoint], [NewMultiLineString] and [NewMultiPolygon] write the
    member [coordinates] as [null] exactly when they are called without an
    argument: the variadic parameter is then the nil slice. *)
Theorem multi_coordinates_null_iff_no_argument :
  forall (pn : variadic Position) (ln : variadic LineStringCoordinates)
         (gn : variadic PolygonCoordinates),
    (ToText (Some (GeometryObject (NewMultiPoint pn)))
     = Ok (json "{'type':'MultiPoint','coordinates':null}") <-> pn = None) /\
    (ToText (Some (GeometryObject (NewMultiLineString ln)))
     = Ok (json "{'type':'MultiLineString','coordinates':null}") <-> ln = None) /\
    (ToText (Some (GeometryObject (NewMultiPolygon gn)))
     = Ok (json "{'type':'MultiPolygon','coordinates':null}") <-> gn = None).
Proof.
  assert (Harray : forall {A} (enc : A -> result) (l : list A) (ct : string),
             sliceEncoder enc (Some l) = Ok ct -> exists body, ct = "[" ++ body).
  { intros A enc l ct. cbn [sliceEncoder].
    destruct (commaSeparated (List.map enc l)) as [ts|e]; cbn [bind]; [|discriminate].
    intros H. same_text H. now exists (ts ++ "]"). }
  intros pn ln gn. repeat split; try (intros ->; vm_compute; reflexivity).
  - destruct pn as [l|]; [|reflexivity]. intros H.
    cbn [ToText NewMultiPoint encodeGeometry] in H. unfold MultiPoint_MarshalJSON in H.
    apply marshal_coordinates_inv in H as (ct & Hct & _ & Ht); [|apply encodePositions_plain].
    apply Harray in Hct as (body & ->). discriminate Ht.
  - destruct ln as [l|]; [|reflexivity]. intros H.
    cbn [ToText NewMultiLineString encodeGeometry] in H.
    unfold MultiLineString_MarshalJSON in H.
    apply marshal_coordinates_inv in H as (ct & Hct & _ & Ht); [|apply encodePositions2_plain].
    apply Harray in Hct as (body & ->). discriminate Ht.
  - destruct gn as [l|]; [|reflexivity]. intros H.
    cbn [ToText NewMultiPolygon encodeGeometry] in H. unfold MultiPolygon_MarshalJSON in H.
    apply marshal_coordinates_inv in H as (ct & Hct & _ & Ht); [|apply encodePositions3_plain].
    apply Harray in Hct as (body & ->). discriminate Ht.
Qed.

(** X5: [NewLineString] and [NewPolygon] followed by [ToText]: the positions,
    and the rings, are written in the order of the arguments. *)
Theorem constructed_coordinates_written_in_argument_order :
  (forall (c0 c1 : Position) (cn : variadic Position),
     Positions_finite (Some (c0 :: c1 :: elems cn)) = true ->
     ToText (Some (GeometryObject (NewLineString c0 c1 cn)))
     = Ok (json "{'type':'LineString','coordinates':["
             ++ joinComma (List.map positionText (c0 :: c1 :: elems cn)) ++ "]}")) /\
  (forall (outerBoundary : LinearRing) (holes : variadic LinearRing),
     Positions2_finite (Some (outerBoundary :: elems holes)) = true ->
     ToText (Some (GeometryObject (NewPolygon outerBoundary holes)))
     = Ok (json "{'type':'Polygon','coordinates':["
             ++ joinComma (List.map (arrayText positionText) (outerBoundary :: elems holes))
             ++ "]}")).
Proof.
  split.
  - intros c0 c1 cn Hfin. unfold NewLineString.
    rewrite NewLineStringCoordinates_unfold.
    change (ToText (Some (GeometryObject ?g))) with (encodeGeometry g).
    rewrite finite_geometry_text by exact Hfin.
    cbn [geometryJSON Coordinates arrayText]. unfold objectText.
    f_equal. rewrite !string_app_assoc. reflexivity.
  - intros outerBoundary holes Hfin. unfold NewPolygon.
    rewrite NewPolygonCoordinates_unfold.
    change (ToText (Some (GeometryObject ?g))) with (encodeGeometry g).
    rewrite finite_geometry_text by exact Hfin.
    cbn [geometryJSON Coordinates arrayText]. unfold objectText.
    f_equal. rewrite !string_app_assoc. reflexivity.
Qed.

Lemma constructed_coordinates_written_in_argument_order_witness :
  ToText (Some (GeometryObject (NewLineString p12 origin (Some [p12]))))
  = Ok (json ("{'type':'LineString','coordinates':"
           ++ "[[1.000000,2.000000],[0.000000,0.000000],[1.000000,2.000000]]}")) /\
  ToText (Some (GeometryObject (NewPolygon squareRing (Some [None]))))
  = Ok (json ("{'type':'Polygon','coordinates':[[[0.000000,0.000000],"
           ++ "[4.000000,0.000000],[4.000000,4.000000],[0.000000,4.000000],"
           ++ "[0.000000,0.000000]],null]}")).
Proof.
  split.
  - apply (proj1 constructed_coordinates_written_in_argument_order p12 origin (Some [p12])).
    reflexivity.
  - apply (proj2 constructed_coordinates_written_in_argument_order squareRing (Some [None])).
    reflexivity.
Defined.

(** ** Features *)

Lemma ToFeature_fields (g : Geometry) (properties : gomap any) :
  ToFeature g properties = NewFeature (Some g) properties.
Proof. destruct g; reflexivity. Qed.

(** X10: when the geometry of a Feature cannot be written, [ToText] returns
    that error, whatever the properties are: as it is for a Feature value,
    and wrapped as the error of [MarshalJSON] for a [*Feature]. *)
Theorem Feature_geometry_error_is_returned :
  forall (g : Geometry) (properties : gomap any) (e : error),
    ToText (Some (GeometryObject g)) = Err e ->
    ToText (Some (FeatureValue (ToFeature g properties))) = Err e /\
    ToText (Some (FeaturePtr (ToFeature g properties))) = Err (MarshalerError e).
Proof.
  intros g properties e Hg. rewrite ToFeature_fields.
  cbn [ToText] in Hg |- *.
  unfold encodeFeatureValue, encodeFeatureAddr, Feature_MarshalJSON, Feature_fields,
    structEncoder, member, NewFeature.
  cbn [List.map fst snd Feature_Geometry interfaceEncoder]. rewrite Hg.
  split; reflexivity.
Qed.

Lemma Feature_geometry_error_is_returned_witness :
  ToText (Some (FeatureValue (ToFeature (NewPoint (mkPosition NaN f2)) namedX)))
  = Err (MarshalerError (MarshalerError SyntaxError)) /\
  ToText (Some (FeaturePtr (ToFeature (NewPoint (mkPosition NaN f2)) namedX)))
  = Err (MarshalerError (MarshalerError (MarshalerError SyntaxError))).
Proof.
  apply (Feature_geometry_error_is_returned (NewPoint (mkPosition NaN f2)) namedX).
  vm_compute. reflexivity.
Defined.

(** The first error of a list of encodings is the error of the list. *)
Lemma commaSeparated_Err_inv (rs : list result) (e : error) :
  commaSeparated rs = Err e -> In (Err e) rs.
Proof.
  induction rs as [|r rs IH]; [discriminate|].
  cbn [commaSeparated]. destruct r as [t|e']; cbn [bind].
  - destruct rs as [|r' rs]; [discriminate|].
    destruct (commaSeparated (r' :: rs)) as [ts|e'']; cbn [bind]; [discriminate|].
    intros [= <-]. right. now apply IH.
  - intros [= <-]. now left.
Qed.

Lemma in_insertEntry {V} (kv x : string * V) (sorted : list (string * V)) :
  In x (insertEntry kv sorted) -> x = kv \/ In x sorted.
Proof.
  induction sorted as [|kv' rest IH]; cbn [insertEntry].
  - intros [<- | []]. now left.
  - destruct (String.leb (fst kv) (fst kv')).
    + intros [<- | H]; [now left|now right].
    + intros [<- | H]; [right; now left|].
      destruct (IH H) as [-> | H']; [now left|right; now right].
Qed.

Lemma in_sortEntries {V} (x : string * V) (m : list (string * V)) :
  In x (sortEntries m) -> In x m.
Proof.
  unfold sortEntries. induction m as [|kv m IH]; cbn [fold_right]; [tauto|].
  intros H. apply in_insertEntry in H as [-> | H]; [now left|right; now apply IH].
Qed.

Lemma mapEncoder_Err_inv {V} (enc : V -> result) (entries : list (string * V)) (e : error) :
  mapEncoder enc (Some entries) = Err e -> exists kv, In kv entries /\ enc (snd kv) = Err e.
Proof.
  cbn [mapEncoder]. unfold structEncoder.
  destruct (commaSeparated _) as [ts|e'] eqn:H; cbn [bind]; [discriminate|].
  intros [= <-]. apply commaSeparated_Err_inv in H.
  apply in_map_iff in H as ([k r] & Hm & Hin).
  apply in_sortEntries, in_map_iff in Hin as (kv & Hkv & Hin).
  injection Hkv as <- <-. exists kv. split; [exact Hin|].
  unfold member in Hm. cbn [fst snd] in Hm.
  destruct (enc (snd kv)); cbn [bind] in Hm; [discriminate Hm|exact Hm].
Qed.

(** The only error of a dynamic value is the unsupported type. *)
Lemma anyEncoder_Err (v : any) : forall e, anyEncoder v = Err e -> e = UnsupportedTypeError.
Proof.
  induction v as [|b|n|s|l IH|m IH|] using any_induction; intros e; cbn [anyEncoder];
    try discriminate.
  - destruct l as [l|]; cbn [sliceEncoder]; [|discriminate].
    destruct (commaSeparated _) as [ts|e'] eqn:H; cbn [bind]; [discriminate|].
    intros [= <-]. apply commaSeparated_Err_inv, in_map_iff in H as (v & Hv & Hin).
    cbn [elems] in IH. rewrite List.Forall_forall in IH. exact (IH v Hin _ Hv).
  - destruct m as [entries|]; [|discriminate].
    intros H. apply mapEncoder_Err_inv in H as (kv & Hin & Hkv).
    rewrite List.Forall_forall in IH. exact (IH kv Hin _ Hkv).
  - now intros [= <-].
Qed.

Lemma forallb_insertEntry {V} (P : string * V -> bool) (kv : string * V)
    (sorted : list (string * V)) :
  forallb P (insertEntry kv sorted) = P kv && forallb P sorted.
Proof.
  induction sorted as [|kv' rest IH]; cbn [insertEntry forallb]; [reflexivity|].
  destruct (String.leb (fst kv) (fst kv')); cbn [forallb]; [reflexivity|].
  rewrite IH. now destruct (P kv), (P kv').
Qed.

Lemma forallb_sortEntries {V} (P : string * V -> bool) (m : list (string * V)) :
  forallb P (sortEntries m) = forallb P m.
Proof.
  unfold sortEntries. induction m as [|kv m IH]; cbn [fold_right forallb]; [reflexivity|].
  now rewrite forallb_insertEntry, IH.
Qed.

Lemma is_ok_member (kv : string * result) : is_ok (member kv) = is_ok (snd kv).
Proof. unfold member. now destruct (snd kv). Qed.

Lemma is_ok_structEncoder (fields : list (string * result)) :
  is_ok (structEncoder fields) = forallb (fun kv => is_ok (snd kv)) fields.
Proof.
  unfold structEncoder.
  transitivity (is_ok (commaSeparated (List.map member fields))).
  { now destruct (commaSeparated _). }
  rewrite is_ok_commaSeparated.
  induction fields as [|kv fields IH]; [reflexivity|].
  cbn [List.map forallb]. now rewrite is_ok_member, IH.
Qed.

Lemma is_ok_mapEncoder {V} (enc : V -> result) (ok : V -> bool) (m : gomap V) :
  (forall kv, In kv (match m with Some entries => entries | None => [] end) ->
              is_ok (enc (snd kv)) = ok (snd kv)) ->
  is_ok (mapEncoder enc m)
  = match m with
    | Some entries => forallb (fun kv => ok (snd kv)) entries
    | None => true
    end.
Proof.
  destruct m as [entries|]; cbn [mapEncoder]; intros H; [|reflexivity].
  rewrite is_ok_structEncoder, forallb_sortEntries.
  induction entries as [|kv entries IH]; [reflexivity|].
  cbn [List.map forallb fst snd]. rewrite (H kv (or_introl eq_refl)). f_equal.
  apply IH. intros kv' Hin. apply H. now right.
Qed.

(** A dynamic value is written exactly when it holds no channel. *)
Lemma is_ok_anyEncoder (v : any) : is_ok (anyEncoder v) = encodable v.
Proof.
  induction v as [|b|n|s|l IH|m IH|] using any_induction; cbn [anyEncoder encodable];
    try reflexivity.
  - rewrite (is_ok_sliceEncoder anyEncoder encodable).
    + now destruct l.
    + rewrite List.Forall_forall in IH. exact IH.
  - rewrite (is_ok_mapEncoder anyEncoder encodable); [reflexivity|].
    rewrite List.Forall_forall in IH. exact IH.
Qed.

Lemma properties_not_encodable (m : gomap any) :
  properties_encodable m = false -> mapEncoder anyEncoder m = Err UnsupportedTypeError.
Proof.
  unfold properties_encodable. rewrite <- is_ok_anyEncoder. intros H.
  apply is_ok_Err in H as (e & He). pose proof (anyEncoder_Err _ _ He) as ->. exact He.
Qed.

(** X11: a Feature whose properties hold a channel, at any depth, is refused
    with the unsupported-type error, whatever its geometry, provided the
    geometry itself can be written. *)
Theorem Feature_with_channel_is_refused :
  forall (f : Feature) (tg : string),
    properties_encodable (Properties f) = false ->
    ToText (option_map GeometryObject (Feature_Geometry f)) = Ok tg ->
    ToText (Some (FeatureValue f)) = Err UnsupportedTypeError /\
    ToText (Some (FeaturePtr f)) = Err (MarshalerError UnsupportedTypeError).
Proof.
  intros f tg Hp Hg. apply properties_not_encodable in Hp.
  assert (Hg' : interfaceEncoder encodeGeometry (Feature_Geometry f) = Ok tg)
    by (destruct (Feature_Geometry f); exact Hg).
  cbn [ToText].
  unfold encodeFeatureValue, encodeFeatureAddr, Feature_MarshalJSON, Feature_fields,
    structEncoder, member.
  cbn [List.map fst snd]. rewrite Hg', Hp. split; reflexivity.
Qed.

Lemma Feature_with_channel_is_refused_witness :
  ToText (Some (FeatureValue
    (NewFeature None (Some [("a", any_slice (Some [any_int 1; any_chan]))]))))
  = Err UnsupportedTypeError /\
  ToText (Some (FeaturePtr
    (NewFeature None (Some [("a", any_slice (Some [any_int 1; any_chan]))]))))
  = Err (MarshalerError UnsupportedTypeError).
Proof.
  apply (Feature_with_channel_is_refused
           (NewFeature None (Some [("a", any_slice (Some [any_int 1; any_chan]))])) "null");
    reflexivity.
Defined.

(** X12: whatever [ToText] returns for a [*Feature] is the object of the type
    [Feature], of the text [ToText] gives for the geometry alone ([null] for
    a nil geometry) and of the encoded properties; the same Feature passed as
    a value is written as the same object without its first member. *)
Theorem Feature_text_is_made_of_its_parts :
  forall (f : Feature) (t : string),
    ToText (Some (FeaturePtr f)) = Ok t ->
    exists tg tp,
      ToText (option_map GeometryObject (Feature_Geometry f)) = Ok tg /\
      mapEncoder anyEncoder (Properties f) = Ok tp /\
      t = json "{'type':'Feature','geometry':" ++ tg ++ json ",'properties':" ++ tp ++ "}" /\
      ToText (Some (FeatureValue f))
      = Ok (json "{'geometry':" ++ tg ++ json ",'properties':" ++ tp ++ "}").
Proof.
  intros f t H. apply ToText_FeaturePtr_inv in H.
  destruct (interfaceEncoder encodeGeometry (Feature_Geometry f)) as [tg|e] eqn:Hg.
  2:{ unfold Feature_MarshalJSON, Feature_fields, structEncoder, member in H.
      cbn [List.map fst snd] in H. rewrite Hg in H. discriminate H. }
  destruct (mapEncoder anyEncoder (Properties f)) as [tp|e] eqn:Hp.
  2:{ unfold Feature_MarshalJSON, Feature_fields, structEncoder, member in H.
      cbn [List.map fst snd] in H. rewrite Hg, Hp in H. discriminate H. }
  exists tg, tp.
  rewrite (Feature_MarshalJSON_text f tg tp Hg Hp) in H. same_text H.
  repeat split.
  - destruct (Feature_Geometry f); exact Hg.
  - exact (encodeFeatureValue_text f tg tp Hg Hp).
Qed.

Lemma Feature_text_is_made_of_its_parts_witness :
  exists tg tp,
    ToText (option_map GeometryObject (Feature_Geometry featureC)) = Ok tg /\
    mapEncoder anyEncoder (Properties featureC) = Ok tp /\
    json ("{'type':'Feature','geometry':{'type':'Point',"
          ++ "'coordinates':[1.000000,2.000000]},'properties':{'name':'x'}}")
    = json "{'type':'Feature','geometry':" ++ tg ++ json ",'properties':" ++ tp ++ "}" /\
    ToText (Some (FeatureValue featureC))
    = Ok (json "{'geometry':" ++ tg ++ json ",'properties':" ++ tp ++ "}").
Proof.
  apply (Feature_text_is_made_of_its_parts featureC). vm_compute. reflexivity.
Defined.

(** X18: whatever [ToText] returns for a [*FeatureCollection] over a non-nil
    slice lists the features in order, each written as [ToText] writes a
    [*Feature], that is with its [type] member. *)
Theorem FeatureCollection_lists_features_in_order :
  forall (features : list Feature) (t : string),
    ToText (Some (FeatureCollectionPtr (NewFeatureCollection (Some features)))) = Ok t ->
    exists ts,
      Forall2 (fun f tf => ToText (Some (FeaturePtr f)) = Ok tf) features ts /\
      t = json "{'type':'FeatureCollection','features':[" ++ joinComma ts ++ "]}".
Proof.
  intros features t H. apply FeatureCollection_text in H as (fs & Hfs & ->).
  unfold NewFeatureCollection in Hfs. cbn [sliceEncoder] in Hfs.
  destruct (commaSeparated (List.map encodeFeatureAddr features)) as [body|e] eqn:Hb;
    cbn [bind] in Hfs; [|discriminate Hfs].
  same_text Hfs. apply commaSeparated_inv in Hb as (ts & Hmap & ->).
  exists ts. split.
  - clear -Hmap. revert ts Hmap.
    induction features as [|f features IH]; intros [|tf ts] Hmap; try discriminate Hmap;
      constructor.
    + now injection Hmap.
    + apply IH. now injection Hmap.
  - change (json "{'type':'FeatureCollection','features':[")
      with (json "{'type':'FeatureCollection','features':" ++ "[").
    rewrite !string_app_assoc. reflexivity.
Qed.

Lemma FeatureCollection_lists_features_in_order_witness :
  exists ts,
    Forall2 (fun f tf => ToText (Some (FeaturePtr f)) = Ok tf) [featureA; featureC] ts /\
    json ("{'type':'FeatureCollection','features':["
          ++ "{'type':'Feature','geometry':{'type':'Point',"
          ++ "'coordinates':[0.000000,0.000000]},'properties':null},"
          ++ "{'type':'Feature','geometry':{'type':'Point',"
          ++ "'coordinates':[1.000000,2.000000]},'properties':{'name':'x'}}]}")
    = json "{'type':'FeatureCollection','features':[" ++ joinComma ts ++ "]}".
Proof.
  apply (FeatureCollection_lists_features_in_order [featureA; featureC]).
  vm_compute. reflexivity.
Defined.

(** ** More on FeatureCollection.With *)

Section WithFrame.

#[local] Open Scope list_scope.

Context {A : Type} (zero : A) (growslice : nat -> nat -> nat).

Import SliceStore.

(** Cells before the place of a write read as before. *)
Lemma read_before_write (a xs rest : list A) (o n i : nat) :
  o + n <= i -> i <= length a ->
  take n (drop o (take i a ++ xs ++ rest)) = take n (drop o a).
Proof.
  intros Hon Hi.
  rewrite <- (take_drop i a) at 2.
  rewrite !drop_app_le by (rewrite length_take; lia).
  rewrite !take_app_le by (rewrite length_drop, length_take; lia).
  reflexivity.
Qed.

(** [append] writes only past the end of its receiver: a slice of another
    array, or one that ends at or before the end of the receiver, reads as
    before. *)
Lemma append_frame (st : store A) (s x : header) (xs : list A) :
  well_formed st s = true -> well_formed st x = true ->
  array x <> array s \/ offset x + hlen x <= offset s + hlen s ->
  forall st' r, append zero growslice st s xs = (st', r) ->
    read st' x = read st x /\ well_formed st' x = true.
Proof.
  intros Hs Hx Hsep st' r. unfold append.
  apply well_formed_inv in Hs as [Hsle Hsarr].
  pose proof Hx as Hx'. apply well_formed_inv in Hx' as [Hxle Hxarr].
  unfold read, well_formed.
  destruct (Nat.leb_spec (hlen s + length xs) (hcap s)) as [Hfit|Hgrow].
  - destruct (array s) as [p|] eqn:Hp; [|intros [= <- <-]; now split].
    destruct Hsarr as (a & Ha & Hcap). intros [= <- <-].
    destruct (array x) as [q|] eqn:Hq;
      [|split; [reflexivity|apply andb_true_intro; split;
                            [apply Nat.leb_le|apply Nat.eqb_eq]; lia]].
    destruct Hxarr as (b & Hb & Hbcap).
    destruct (decide (q = p)) as [-> | Hne].
    + destruct Hsep as [Hsep | Hsep]; [congruence|].
      assert (b = a) as -> by congruence.
      rewrite (write_lookup st p _ xs a Ha), Ha. split.
      * apply read_before_write; lia.
      * apply andb_true_intro. split; apply Nat.leb_le; [lia|].
        rewrite !length_app, length_take, length_drop. lia.
    + unfold write. rewrite Ha, list_lookup_insert_ne by congruence.
      rewrite Hb. split; [reflexivity|].
      apply andb_true_intro. split; apply Nat.leb_le; lia.
  - intros [= <- <-].
    destruct (array x) as [q|] eqn:Hq;
      [|split; [reflexivity|apply andb_true_intro; split;
                            [apply Nat.leb_le|apply Nat.eqb_eq]; lia]].
    destruct Hxarr as (b & Hb & Hbcap).
    rewrite (lookup_app_l_Some _ _ _ _ Hb), Hb. split; [reflexivity|].
    apply andb_true_intro. split; apply Nat.leb_le; lia.
Qed.

(** The result of [append] ends at or after the end of its receiver, when it
    shares its array. *)
Lemma append_covers (st : store A) (s : header) (xs : list A) :
  well_formed st s = true ->
  forall st' r, append zero growslice st s xs = (st', r) ->
    array s <> array r \/ offset s + hlen s <= offset r + hlen r.
Proof.
  intros Hs st' r. unfold append.
  apply well_formed_inv in Hs as [Hsle Hsarr].
  destruct (Nat.leb_spec (hlen s + length xs) (hcap s)) as [Hfit|Hgrow].
  - destruct (array s) as [p|] eqn:Hp; intros [= <- <-]; right; simpl; lia.
  - intros [= <- <-]. left. simpl.
    destruct (array s) as [p|] eqn:Hp; [|discriminate].
    destruct Hsarr as (a & Ha & _). apply lookup_lt_Some in Ha.
    intros [= ->]. lia.
Qed.

(** Appending nothing returns the receiver and leaves the store as it is. *)
Lemma append_nothing (st : store A) (s : header) :
  well_formed st s = true -> append zero growslice st s [] = (st, s).
Proof.
  intros Hs. apply well_formed_inv in Hs as [Hsle Hsarr]. unfold append.
  simpl length. rewrite Nat.add_0_r.
  destruct (Nat.leb_spec (hlen s) (hcap s)) as [_|Hgrow]; [|lia].
  destruct (array s) as [p|] eqn:Hp; [|reflexivity].
  destruct Hsarr as (a & Ha & Hcap). f_equal.
  - unfold write. rewrite Ha. simpl. rewrite Nat.add_0_r, take_drop.
    now apply list_insert_id.
  - destruct s as [arr o n c]. simpl in *. now subst arr.
Qed.

End WithFrame.

Section WithChains.

#[local] Open Scope list_scope.
Import SliceStore.

(** X20: [c.With()] without a feature, or with an empty slice, returns [c]
    itself: the same array, length and capacity, and nothing is written or
    allocated. *)
Theorem With_nothing_returns_the_receiver :
  forall (growslice : nat -> nat -> nat) (st : store Feature) (c features : header),
    well_formed st c = true ->
    read st features = [] ->
    SliceStore.With zeroFeature growslice st c features = (st, c).
Proof.
  intros growslice st c features Hc Hf. unfold SliceStore.With. rewrite Hf.
  now apply append_nothing.
Qed.

Lemma With_nothing_returns_the_receiver_witness :
  SliceStore.With zeroFeature doubling sampleStore sliceA nil_slice = (sampleStore, sliceA).
Proof.
  apply (With_nothing_returns_the_receiver doubling sampleStore sliceA nil_slice);
    reflexivity.
Defined.

(** X21: in [c.With(a...).With(b...)] the second call leaves both [c] and the
    first result as they were, and returns the features of [c], of [a] and of
    [b], in that order. *)
Theorem With_twice_keeps_receiver_and_first_result :
  forall (growslice : nat -> nat -> nat) (st : store Feature) (c a b : header),
    well_formed st c = true ->
    well_formed st a = true ->
    let st1 := fst (SliceStore.With zeroFeature growslice st c a) in
    let r1 := snd (SliceStore.With zeroFeature growslice st c a) in
    well_formed st1 b = true ->
    let st2 := fst (SliceStore.With zeroFeature growslice st1 r1 b) in
    let r2 := snd (SliceStore.With zeroFeature growslice st1 r1 b) in
    read st2 r2 = read st c ++ read st a ++ read st1 b /\
    read st2 r1 = read st c ++ read st a /\
    read st2 c = read st c.
Proof.
  intros growslice st c a b Hc Ha st1 r1 Hb st2 r2.
  destruct (SliceStore.With zeroFeature growslice st c a) as [st1' r1'] eqn:HW1.
  simpl in st1, r1. subst st1 r1.
  destruct (SliceStore.With zeroFeature growslice st1' r1' b) as [st2' r2'] eqn:HW2.
  simpl in st2, r2. subst st2 r2.
  unfold SliceStore.With in HW1, HW2.
  destruct (append_spec zeroFeature growslice st c (read st a) Hc st1' r1' HW1)
    as (Hr1 & _ & Hc1 & _ & Hwf1).
  destruct (append_spec zeroFeature growslice st1' r1' (read st1' b) Hwf1 st2' r2' HW2)
    as (Hr2 & _ & Hr12 & _ & _).
  destruct (append_frame zeroFeature growslice st c c (read st a) Hc Hc
              (or_intror (le_n _)) st1' r1' HW1) as [_ Hcwf1].
  pose proof (append_covers zeroFeature growslice st c (read st a) Hc st1' r1' HW1) as Hcov.
  destruct (append_frame zeroFeature growslice st1' r1' c (read st1' b) Hwf1 Hcwf1
              Hcov st2' r2' HW2) as [Hc2 _].
  repeat split.
  - now rewrite Hr2, Hr1, <- app_assoc.
  - now rewrite Hr12, Hr1.
  - now rewrite Hc2, Hc1.
Qed.

Lemma With_twice_keeps_receiver_and_first_result_witness :
  let st1 := fst (SliceStore.With zeroFeature doubling sampleStore sliceA sliceB) in
  let r1 := snd (SliceStore.With zeroFeature doubling sampleStore sliceA sliceB) in
  let st2 := fst (SliceStore.With zeroFeature doubling st1 r1 sliceC) in
  let r2 := snd (SliceStore.With zeroFeature doubling st1 r1 sliceC) in
  read st2 r2 = [featureA; featureB; featureC] /\
  read st2 r1 = [featureA; featureB] /\
  read st2 sliceA = [featureA].
Proof.
  exact (With_twice_keeps_receiver_and_first_result doubling sampleStore sliceA sliceB sliceC
           eq_refl eq_refl eq_refl).
Defined.

End WithChains.

(** X24: the collection [c.With(features...)] is written with [features] as
    [null] exactly when [c] is nil and no feature is passed; in every other
    case the member is an array. *)
Theorem With_features_null_iff_nothing_to_hold :
  forall (c : FeatureCollection) (features : variadic Feature) (t : string),
    ToText (Some (FeatureCollectionPtr (GeoJSON.With c features))) = Ok t ->
    (t = json "{'type':'FeatureCollection','features':null}"
     <-> c = None /\ elems features = []) /\
    (c <> None \/ elems features <> [] ->
     exists body, t = json "{'type':'FeatureCollection','features':[" ++ body ++ "]}").
Proof.
  intros c features t H. apply FeatureCollection_text in H as (fs & Hfs & ->).
  unfold GeoJSON.With, append in Hfs.
  assert (Harray : forall l, sliceEncoder encodeFeatureAddr (Some l) = Ok fs ->
            exists body, fs = "[" ++ body ++ "]").
  { intros l. cbn [sliceEncoder].
    destruct (commaSeparated _) as [ts|e]; cbn [bind]; [|discriminate].
    intros E. same_text E. now exists ts. }
  assert (Hobject : forall body,
            json "{'type':'FeatureCollection','features':" ++ ("[" ++ body ++ "]") ++ "}"
            = json "{'type':'FeatureCollection','features':[" ++ body ++ "]}").
  { intros body.
    change (json "{'type':'FeatureCollection','features':[")
      with (json "{'type':'FeatureCollection','features':" ++ "[").
    now rewrite !string_app_assoc. }
  destruct c as [l|]; [|destruct (elems features) as [|f fs'] eqn:Hel].
  - apply Harray in Hfs as (body & ->). rewrite Hobject. split.
    + split; [discriminate|intros [[=] _]].
    + intros _. now exists body.
  - cbn [sliceEncoder] in Hfs. same_text Hfs. split.
    + split; [now split|reflexivity].
    + intros [Hc | Hf]; congruence.
  - apply Harray in Hfs as (body & ->). rewrite Hobject. split.
    + split; [discriminate|intros [_ [=]]].
    + intros _. now exists body.
Qed.

Lemma With_features_null_iff_nothing_to_hold_witness :
  exists body,
    json ("{'type':'FeatureCollection','features':[{'type':'Feature',"
          ++ "'geometry':{'type':'Point','coordinates':[0.000000,0.000000]},"
          ++ "'properties':null}]}")
    = json "{'type':'FeatureCollection','features':[" ++ body ++ "]}".
Proof.
  destruct (With_features_null_iff_nothing_to_hold None (Some [featureA])
              (json ("{'type':'FeatureCollection','features':[{'type':'Feature',"
                     ++ "'geometry':{'type':'Point','coordinates':[0.000000,0.000000]},"
                     ++ "'properties':null}]}")))
    as [_ Harray].
  - vm_compute. reflexivity.
  - apply Harray. right. discriminate.
Defined.

(** ** Two collections built from the same receiver *)

Section WithSiblings.

#[local] Open Scope list_scope.
Import SliceStore.

(** Within capacity [append] returns a header over the array of its
    receiver. *)
Lemma append_within_capacity {A} (zero : A) (growslice : nat -> nat -> nat)
    (st : store A) (s : header) (xs : list A) (p : nat) :
  array s = Some p -> hlen s + length xs <= hcap s ->
  snd (append zero growslice st s xs)
  = mkHeader (Some p) (offset s) (hlen s + length xs) (hcap s).
Proof.
  intros Hp Hfit. unfold append.
  destruct (Nat.leb_spec (hlen s + length xs) (hcap s)) as [_|Hgrow]; [|lia].
  now rewrite Hp.
Qed.

(** Beyond capacity [append] returns a header over a fresh array. *)
Lemma append_beyond_capacity {A} (zero : A) (growslice : nat -> nat -> nat)
    (st : store A) (s : header) (xs : list A) :
  hcap s < hlen s + length xs ->
  array (snd (append zero growslice st s xs)) = Some (length st) /\
  length (fst (append zero growslice st s xs)) = S (length st).
Proof.
  intros Hgrow. unfold append.
  destruct (Nat.leb_spec (hlen s + length xs) (hcap s)) as [Hfit|_]; [lia|].
  cbn [fst snd array]. split; [reflexivity|]. rewrite length_app. simpl. lia.
Qed.

(** X22: two collections built by [With] from the same receiver share its
    spare capacity: when the features of the first call fit into the
    capacity of [c], a second call with as many features returns the same
    slice, and the collection returned first now holds the features of the
    second call. *)
Theorem With_twice_from_one_receiver_overwrites_within_capacity :
  forall (growslice : nat -> nat -> nat) (st : store Feature) (c a b : header),
    well_formed st c = true ->
    well_formed st a = true ->
    array c <> None ->
    hlen c + hlen a <= hcap c ->
    let st1 := fst (SliceStore.With zeroFeature growslice st c a) in
    let r1 := snd (SliceStore.With zeroFeature growslice st c a) in
    well_formed st1 b = true ->
    hlen b = hlen a ->
    let st2 := fst (SliceStore.With zeroFeature growslice st1 c b) in
    let r2 := snd (SliceStore.With zeroFeature growslice st1 c b) in
    r2 = r1 /\
    read st1 r1 = read st c ++ read st a /\
    read st2 r1 = read st c ++ read st1 b.
Proof.
  intros growslice st c a b Hc Ha Hnil Hfit st1 r1 Hb Hlen st2 r2.
  destruct (array c) as [p|] eqn:Hp; [clear Hnil|congruence].
  destruct (SliceStore.With zeroFeature growslice st c a) as [st1' r1'] eqn:HW1.
  simpl in st1, r1. subst st1 r1.
  destruct (SliceStore.With zeroFeature growslice st1' c b) as [st2' r2'] eqn:HW2.
  simpl in st2, r2. subst st2 r2.
  unfold SliceStore.With in HW1, HW2.
  destruct (append_spec zeroFeature growslice st c (read st a) Hc st1' r1' HW1)
    as (Hr1 & _ & Hc1 & _ & _).
  destruct (append_frame zeroFeature growslice st c c (read st a) Hc Hc
              (or_intror (le_n _)) st1' r1' HW1) as [_ Hcwf1].
  destruct (append_spec zeroFeature growslice st1' c (read st1' b) Hcwf1 st2' r2' HW2)
    as (Hr2 & _ & _ & _ & _).
  assert (E1 : r1' = mkHeader (Some p) (offset c) (hlen c + hlen a) (hcap c)).
  { pose proof (append_within_capacity zeroFeature growslice st c (read st a) p Hp) as H.
    rewrite (read_length st a Ha), HW1 in H. apply H. exact Hfit. }
  assert (E2 : r2' = mkHeader (Some p) (offset c) (hlen c + hlen b) (hcap c)).
  { pose proof (append_within_capacity zeroFeature growslice st1' c (read st1' b) p Hp) as H.
    rewrite (read_length st1' b Hb), HW2 in H. apply H. lia. }
  assert (E : r2' = r1') by (rewrite E1, E2, Hlen; reflexivity).
  repeat split; [exact E|exact Hr1|].
  rewrite <- E, Hr2, Hc1. reflexivity.
Qed.

Lemma With_twice_from_one_receiver_overwrites_within_capacity_witness :
  let st1 := fst (SliceStore.With zeroFeature doubling sampleStore sliceA sliceB) in
  let r1 := snd (SliceStore.With zeroFeature doubling sampleStore sliceA sliceB) in
  let st2 := fst (SliceStore.With zeroFeature doubling st1 sliceA sliceC) in
  let r2 := snd (SliceStore.With zeroFeature doubling st1 sliceA sliceC) in
  r2 = r1 /\
  read st1 r1 = [featureA; featureB] /\
  read st2 r1 = [featureA; featureC].
Proof.
  apply (With_twice_from_one_receiver_overwrites_within_capacity doubling sampleStore
           sliceA sliceB sliceC); try reflexivity.
  - discriminate.
  - vm_compute. lia.
Defined.

(** X23: when the features do not fit into the capacity of the receiver,
    [With] allocates, and a collection returned by an earlier call from the
    same receiver is left as it was. *)
Theorem With_twice_from_one_receiver_is_independent_beyond_capacity :
  forall (growslice : nat -> nat -> nat) (st : store Feature) (c a b : header),
    well_formed st c = true ->
    well_formed st a = true ->
    hcap c < hlen c + hlen a ->
    let st1 := fst (SliceStore.With zeroFeature growslice st c a) in
    let r1 := snd (SliceStore.With zeroFeature growslice st c a) in
    well_formed st1 b = true ->
    let st2 := fst (SliceStore.With zeroFeature growslice st1 c b) in
    let r2 := snd (SliceStore.With zeroFeature growslice st1 c b) in
    read st2 r1 = read st c ++ read st a /\
    read st2 r2 = read st c ++ read st1 b /\
    read st2 c = read st c.
Proof.
  intros growslice st c a b Hc Ha Hgrow st1 r1 Hb st2 r2.
  destruct (SliceStore.With zeroFeature growslice st c a) as [st1' r1'] eqn:HW1.
  simpl in st1, r1. subst st1 r1.
  destruct (SliceStore.With zeroFeature growslice st1' c b) as [st2' r2'] eqn:HW2.
  simpl in st2, r2. subst st2 r2.
  unfold SliceStore.With in HW1, HW2.
  destruct (append_spec zeroFeature growslice st c (read st a) Hc st1' r1' HW1)
    as (Hr1 & _ & Hc1 & _ & Hwf1).
  destruct (append_frame zeroFeature growslice st c c (read st a) Hc Hc
              (or_intror (le_n _)) st1' r1' HW1) as [_ Hcwf1].
  destruct (append_spec zeroFeature growslice st1' c (read st1' b) Hcwf1 st2' r2' HW2)
    as (Hr2 & _ & Hc2 & _ & _).
  assert (Hfresh : array r1' = Some (length st)).
  { pose proof (append_beyond_capacity zeroFeature growslice st c (read st a)) as H.
    rewrite (read_length st a Ha), HW1 in H. now apply H. }
  assert (Hother : array r1' <> array c).
  { rewrite Hfresh. destruct (array c) as [p|] eqn:Hp; [|discriminate].
    apply well_formed_inv in Hc as [_ Harr]. rewrite Hp in Harr.
    destruct Harr as (x & Hx & _). apply lookup_lt_Some in Hx. intros [= E]. lia. }
  destruct (append_frame zeroFeature growslice st1' c r1' (read st1' b) Hcwf1 Hwf1
              (or_introl Hother) st2' r2' HW2) as [Hkeep _].
  repeat split.
  - now rewrite Hkeep, Hr1.
  - now rewrite Hr2, Hc1.
  - now rewrite Hc2, Hc1.
Qed.

Lemma With_twice_from_one_receiver_is_independent_beyond_capacity_witness :
  let st1 := fst (SliceStore.With zeroFeature doubling sampleStore sliceB sliceA) in
  let r1 := snd (SliceStore.With zeroFeature doubling sampleStore sliceB sliceA) in
  let st2 := fst (SliceStore.With zeroFeature doubling st1 sliceB sliceC) in
  let r2 := snd (SliceStore.With zeroFeature doubling st1 sliceB sliceC) in
  read st2 r1 = [featureB; featureA] /\
  read st2 r2 = [featureB; featureC] /\
  read st2 sliceB = [featureB].
Proof.
  apply (With_twice_from_one_receiver_is_independent_beyond_capacity doubling sampleStore
           sliceB sliceA sliceC); try reflexivity.
  vm_compute. lia.
Defined.

End WithSiblings.

(** ** More on NewLinearRing *)

Section Rings.

#[local] Open Scope list_scope.

(** X6: the index expression of [NewLinearRing] is always in range: the only
    panic of the function is the one it raises itself. *)
Theorem NewLinearRing_never_indexes_out_of_range :
  forall (c0 c1 c2 c3 : Position) (cn : variadic Position),
    NewLinearRing c0 c1 c2 c3 cn <> Panicked IndexOutOfRange.
Proof.
  intros c0 c1 c2 c3 cn. rewrite NewLinearRing_unfold.
  destruct (Position_eq _ c0); discriminate.
Qed.

Lemma float64_eq_NaN (x : float64) : float64_eq x NaN = false.
Proof. destruct x as [s | s | | s m e]; reflexivity. Qed.

(** X7: a ring cannot start at a position that holds a NaN: no last position
    equals it, so [NewLinearRing] panics whatever the other arguments are. *)
Theorem NewLinearRing_NaN_start_always_panics :
  forall (c0 c1 c2 c3 : Position) (cn : variadic Position),
    Longitude c0 = NaN \/ Latitude c0 = NaN ->
    NewLinearRing c0 c1 c2 c3 cn
    = Panicked (InvalidRing c0 (List.last (c3 :: elems cn) c3)).
Proof.
  intros c0 c1 c2 c3 cn Hnan. rewrite NewLinearRing_unfold.
  assert (H : Position_eq (List.last (c3 :: elems cn) c3) c0 = false); [|now rewrite H].
  unfold Position_eq.
  destruct Hnan as [-> | ->]; rewrite float64_eq_NaN; [reflexivity|apply andb_false_r].
Qed.

Lemma NewLinearRing_NaN_start_always_panics_witness :
  NewLinearRing (mkPosition f1 NaN) p12 origin (mkPosition f1 NaN) None
  = Panicked (InvalidRing (mkPosition f1 NaN) (mkPosition f1 NaN)).
Proof.
  apply (NewLinearRing_NaN_start_always_panics (mkPosition f1 NaN) p12 origin
           (mkPosition f1 NaN) None).
  right. reflexivity.
Defined.

(** Go's [==] on two values of which the second is not a zero holds only
    between identical values. *)
Lemma float64_eq_nonzero (x y : float64) :
  float64_eq x y = true -> nonzero y = true -> x = y.
Proof.
  unfold float64_eq, SFeqb. intros H Hy.
  destruct x as [s1 | s1 | | s1 m1 e1], y as [s2 | s2 | | s2 m2 e2];
    cbn [SFcompare nonzero] in H, Hy; try discriminate Hy; try discriminate H.
  - destruct s2; discriminate H.
  - destruct s2; discriminate H.
  - destruct s1, s2; try discriminate H; reflexivity.
  - destruct s1; discriminate H.
  - destruct s2; discriminate H.
  - destruct s1, s2; try discriminate H;
      (destruct (Z.compare_spec e1 e2) as [-> | |]; try discriminate H;
       fold (Pos.compare m1 m2) in H;
       destruct (Pos.compare_spec m1 m2) as [-> | |]; try discriminate H; reflexivity).
Qed.

(** X8: when [NewLinearRing] returns and neither coordinate of the first
    position is a zero, the last position of the ring is identical to the
    first, so both are written alike. *)
Theorem ring_ends_are_identical_unless_zero :
  forall (c0 c1 c2 c3 : Position) (cn : variadic Position) (ring : LinearRing),
    NewLinearRing c0 c1 c2 c3 cn = Returned ring ->
    nonzero (Longitude c0) = true -> nonzero (Latitude c0) = true ->
    index ring (len ring - 1) = Some c0 /\
    Position_MarshalJSON (List.last (c3 :: elems cn) c3) = Position_MarshalJSON c0.
Proof.
  intros c0 c1 c2 c3 cn ring H Hlon Hlat. rewrite NewLinearRing_unfold in H.
  destruct (Position_eq _ c0) eqn:Heq; [|discriminate H]. injection H as <-.
  assert (Hlast : List.last (c3 :: elems cn) c3 = c0).
  { unfold Position_eq in Heq. apply andb_prop in Heq as [H1 H2].
    apply float64_eq_nonzero in H1; [|exact Hlon].
    apply float64_eq_nonzero in H2; [|exact Hlat].
    destruct (List.last (c3 :: elems cn) c3) as [x y], c0 as [x0 y0].
    simpl in H1, H2. now subst. }
  split; [|now rewrite Hlast].
  rewrite index_last. now f_equal.
Qed.

Lemma ring_ends_are_identical_unless_zero_witness :
  index (Some [p12; origin; origin; p12]) (len (Some [p12; origin; origin; p12]) - 1)
  = Some p12 /\
  Position_MarshalJSON (List.last (p12 :: elems None) p12) = Position_MarshalJSON p12.
Proof.
  apply (ring_ends_are_identical_unless_zero p12 origin origin p12 None); reflexivity.
Defined.

(** With a zero the two ends can differ in sign, and are then written
    differently although the ring is accepted. *)
Remark ring_ends_can_differ_in_the_sign_of_zero :
  let minus := mkPosition (S754_zero true) f0 in
  NewLinearRing origin p12 p12 minus None = Returned (Some [origin; p12; p12; minus]) /\
  Position_MarshalJSON origin = Ok "[0.000000,0.000000]" /\
  Position_MarshalJSON minus = Ok "[-0.000000,0.000000]".
Proof. vm_compute. repeat split. Qed.

End Rings.

(** ** The precision of a written position *)

Lemma round_micro_small (m : positive) (e : Z) :
  below_half_micro m e = true -> Fmt.round_micro m e = 0%N.
Proof.
  unfold below_half_micro, Fmt.round_micro. intros H.
  apply andb_prop in H as [He Hsmall]. apply Z.ltb_lt in He, Hsmall.
  assert (Hneg : (0 <=? e)%Z = false) by (apply Z.leb_gt; exact He). rewrite Hneg.
  cbv zeta.
  assert (Hden : (0 < 2 ^ (- e))%Z) by (apply Z.pow_pos_nonneg; lia).
  assert (Hlt : (Z.pos m * 1000000 < 2 ^ (- e))%Z) by lia.
  rewrite Z.div_small, Z.mod_small by lia.
  assert (H2 : (2 * (Z.pos m * 1000000) <? 2 ^ (- e))%Z = true) by (apply Z.ltb_lt; exact Hsmall).
  now rewrite H2.
Qed.

(** X9: [Position.MarshalJSON] keeps six digits after the point: a coordinate
    of magnitude below half a millionth is written as zero, with its sign. *)
Theorem tiny_coordinates_are_written_as_zero :
  forall (s1 s2 : bool) (m1 m2 : positive) (e1 e2 : Z),
    below_half_micro m1 e1 = true ->
    below_half_micro m2 e2 = true ->
    Position_MarshalJSON (mkPosition (S754_finite s1 m1 e1) (S754_finite s2 m2 e2))
    = Ok ("[" ++ Fmt.sign s1 ++ "0.000000," ++ Fmt.sign s2 ++ "0.000000]").
Proof.
  intros s1 s2 m1 m2 e1 e2 H1 H2. unfold Position_MarshalJSON.
  cbn [Longitude Latitude Fmt.Sprintf_f].
  rewrite (round_micro_small m1 e1 H1), (round_micro_small m2 e2 H2).
  f_equal. change (Fmt.fixed6 0) with "0.000000".
  rewrite !string_app_assoc. reflexivity.
Qed.

Lemma tiny_coordinates_are_written_as_zero_witness :
  Position_MarshalJSON
    (mkPosition (S754_finite false 1 (-1074)) (S754_finite true 3 (-23)))
  = Ok ("[" ++ Fmt.sign false ++ "0.000000," ++ Fmt.sign true ++ "0.000000]").
Proof.
  apply (tiny_coordinates_are_written_as_zero false true 1 3 (-1074) (-23));
    vm_compute; reflexivity.
Defined.

(** ** What every returned text has *)

Lemma kept_has_no_html (t : string) :
  forall a, kept a t = true -> has_byte isHTMLbyte t = false.
Proof.
  induction t as [|c t IH]; intros a H; [reflexivity|].
  apply kept_cons in H as (Hc & _ & _ & Ht).
  cbn [has_byte]. rewrite Hc. exact (IH _ Ht).
Qed.

Lemma encodeFeatureValue_balanced (f : Feature) (t : string) :
  encodeFeatureValue f = Ok t -> balanced t.
Proof.
  apply structEncoder_balanced. unfold Feature_fields.
  repeat first [apply List.Forall_cons | apply List.Forall_nil]; cbn [snd].
  - apply interfaceEncoder_balanced.
  - apply properties_balanced.
Qed.

Lemma ToText_balanced (o : option Object) (t : string) : ToText o = Ok t -> balanced t.
Proof.
  destruct o as [[g|f|f|c]|]; cbn [ToText].
  - apply encodeGeometry_balanced.
  - apply encodeFeatureValue_balanced.
  - intros H. apply encodeFeatureAddr_inv in H. exact (Feature_MarshalJSON_balanced f t H).
  - intros H. apply ToText_FeatureCollectionPtr_inv in H.
    exact (FeatureCollection_MarshalJSON_balanced c t H).
  - intros [= <-]. now split.
Qed.

(** X25: no text returned by [ToText] holds one of the bytes [<], [>] and [&]:
    in property keys and values they are written as escapes. *)
Theorem ToText_writes_no_html_byte :
  forall (o : option Object) (t : string),
    ToText o = Ok t -> has_byte isHTMLbyte t = false.
Proof.
  intros o t H. apply (kept_has_no_html t Outside), balanced_kept, (ToText_balanced o t H).
Qed.

Lemma ToText_writes_no_html_byte_witness :
  has_byte isHTMLbyte
    (json "{'type':'Feature','geometry':null,'properties':{'a\u003cb':'x \u0026 y'}}")
  = false.
Proof.
  apply (ToText_writes_no_html_byte
           (Some (FeaturePtr (NewFeature None (Some [("a<b", any_string "x & y")]))))).
  vm_compute. reflexivity.
Defined.

(** A text that passed the check unchanged is valid. *)
Lemma marshalerEncoder_Valid (r : result) (t : string) :
  (forall b, r = Ok b -> kept Outside b = true) ->
  marshalerEncoder r = Ok t -> Valid t = true.
Proof.
  intros Hk H. pose proof (marshalerEncoder_kept r t Hk H) as Hr.
  apply marshalerEncoder_inv in H as (b & Hb & Hc).
  rewrite Hb in Hr. injection Hr as ->.
  specialize (Hk t Hb). unfold Valid. unfold appendCompact in Hc.
  destruct (compactLoop_kept t newScanner newScanner_consistent eq_refl Hk)
    as [E | [He _]].
  - rewrite E in Hc. destruct (eof (scan newScanner t)); [reflexivity|discriminate Hc].
  - destruct (compactLoop newScanner 0 t) as [s out]. simpl in He.
    unfold eof in Hc. rewrite He in Hc. discriminate Hc.
Qed.

Lemma coordinate_struct_kept {C} (encodeC : C -> result) (g : Geometry) (c : C) :
  (forall ct, encodeC c = Ok ct -> all_plain ct = true) ->
  forall b, marshalGeoJSONGeometryWithCoordinates encodeC g c = Ok b -> kept Outside b = true.
Proof.
  intros Hplain b Hb. apply marshalGeoJSON_inv in Hb as (ct & Hc & ->).
  apply balanced_kept, geometryText_balanced;
    [apply Geometry_Type_in_typeNames|now apply Hplain].
Qed.

(** X26: whatever [ToText] returns for an Object written by a [MarshalJSON]
    method (a geometry of one of the six coordinate types, a [*Feature], a
    [*FeatureCollection]) is a valid JSON text. *)
Theorem ToText_of_marshalers_is_valid_JSON :
  forall (o : Object) (t : string),
    written_by_method o = true ->
    ToText (Some o) = Ok t ->
    Valid t = true.
Proof.
  intros [g|f|f|c] t Hm; try discriminate Hm; cbn [ToText].
  - destruct g as [p|p|p|p|p|p|gs]; try discriminate Hm; cbn [encodeGeometry];
      apply marshalerEncoder_Valid;
      unfold Point_MarshalJSON, MultiPoint_MarshalJSON, LineString_MarshalJSON,
        MultiLineString_MarshalJSON, Polygon_MarshalJSON, MultiPolygon_MarshalJSON;
      apply coordinate_struct_kept;
      eauto using encodePosition_plain, encodePositions_plain, encodePositions2_plain,
                  encodePositions3_plain.
  - apply marshalerEncoder_Valid. intros b Hb.
    apply balanced_kept, (Feature_MarshalJSON_balanced f b Hb).
  - apply marshalerEncoder_Valid. intros b Hb.
    apply balanced_kept, (FeatureCollection_MarshalJSON_balanced c b Hb).
Qed.

Lemma ToText_of_marshalers_is_valid_JSON_witness :
  Valid (json ("{'type':'Feature','geometry':{'type':'Point',"
               ++ "'coordinates':[1.000000,2.000000]},'properties':{'name':'x'}}"))
  = true.
Proof.
  apply (ToText_of_marshalers_is_valid_JSON (FeaturePtr featureC)); vm_compute; reflexivity.
Defined.

(** ** Texts the scanner reads to their end *)

Lemma taken_mono (d d' : N) (t : string) : (d <= d')%N -> taken d t -> taken d' t.
Proof.
  intros Hd H f k ps Hf Hfit. apply H; [exact Hf|]. unfold fits in *. lia.
Qed.

Lemma accepted_taken (d : N) (t : string) : accepted d t -> taken d t.
Proof.
  intros H f k ps Hf Hfit. exists stateEndValue. split; [now left|now apply H].
Qed.

Lemma bracketed_accepted (d : N) (t : string) : bracketed d t -> accepted d t.
Proof. intros H f k ps Hf Hfit. now rewrite H. Qed.

Lemma bracketed_taken (d : N) (t : string) : bracketed d t -> taken d t.
Proof. intros H. now apply accepted_taken, bracketed_accepted. Qed.

Lemma accepted_true (d : N) : accepted d "true".
Proof. intros f k ps [-> | ->] _; reflexivity. Qed.

Lemma accepted_false (d : N) : accepted d "false".
Proof. intros f k ps [-> | ->] _; reflexivity. Qed.

(** *** String literals *)

Lemma body_app (a : inString) (t1 t2 : string) :
  body a (t1 ++ t2) = body a t1 && body (moves a t1) t2.
Proof.
  revert a. induction t1 as [|c t1 IH]; intros a; simpl; [reflexivity|].
  now rewrite IH, andb_assoc.
Qed.

(** One byte that passes moves the scanner as [move] says. *)
Lemma scan_step_passes (a : inString) (c : ascii) (ps : list parseKind) :
  passes a c = true ->
  fst (scan_step (at_state (state_of a) ps) c) = at_state (state_of (move a c)) ps /\
  move a c <> Outside.
Proof.
  destruct a; cbn [passes state_of move]; intros H; try discriminate H.
  - apply andb_prop in H as [Hq Hc]. apply negb_true_iff in Hq, Hc.
    unfold scan_step. cbn [step at_state]. unfold do_stateInString. rewrite Hq, Hc.
    destruct (c =? backslash)%char; split; try reflexivity; discriminate.
  - unfold scan_step. cbn [step at_state]. unfold do_stateInStringEsc.
    destruct (c =? "u")%char eqn:Hu.
    + apply Ascii.eqb_eq in Hu. subst c. split; [reflexivity|discriminate].
    + rewrite orb_false_r in H. rewrite H. split; [reflexivity|discriminate].
  - unfold scan_step, hex_then. cbn [step at_state]. rewrite H.
    split; [reflexivity|discriminate].
  - unfold scan_step, hex_then. cbn [step at_state]. rewrite H.
    split; [reflexivity|discriminate].
  - unfold scan_step, hex_then. cbn [step at_state]. rewrite H.
    split; [reflexivity|discriminate].
  - unfold scan_step, hex_then. cbn [step at_state]. rewrite H.
    split; [reflexivity|discriminate].
Qed.

Lemma scan_body (t : string) :
  forall (a : inString) (ps : list parseKind),
    body a t = true ->
    scan (at_state (state_of a) ps) t = at_state (state_of (moves a t)) ps.
Proof.
  induction t as [|c t IH]; intros a ps H; [reflexivity|].
  cbn [body] in H. apply andb_prop in H as [Hc Ht].
  destruct (scan_step_passes a c ps Hc) as [Hstep _].
  rewrite scan_cons, Hstep. cbn [moves]. now apply IH.
Qed.

Lemma ascii_token_body (c : ascii) :
  (code c <? 128)%N = true ->
  body Inside (if htmlSafe c then String c EmptyString else escapeASCII c) = true.
Proof.
  destruct c as [[] [] [] [] [] [] [] []]; vm_compute; intros H;
    first [discriminate H | reflexivity].
Qed.

Lemma high_byte_passes (c : ascii) :
  (code c <? 128)%N = false -> passes Inside c = true /\ move Inside c = Inside.
Proof.
  destruct c as [[] [] [] [] [] [] [] []]; vm_compute; intros H;
    first [discriminate H | split; reflexivity].
Qed.

Lemma high_byte_body (c : ascii) (rest : string) :
  (code c <? 128)%N = false -> body Inside (String c rest) = body Inside rest.
Proof.
  intros H. destruct (high_byte_passes c H) as [Hp Hm]. cbn [body]. now rewrite Hp, Hm.
Qed.

Lemma continuation_body (b : ascii) (rest : string) :
  continuation b -> body Inside (String b rest) = body Inside rest.
Proof. intros H. apply high_byte_body, (continuation_high b H). Qed.

(** One round of the loop of [appendString]: a token the scanner lets through
    inside a string literal, and the loop on what is left of the source. *)
Lemma appendStringLoop_step_body (c : ascii) (rest : string) :
  exists tk rest',
    appendStringLoop Fresh (String c rest) = tk ++ appendStringLoop Fresh rest' /\
    body Inside tk = true /\ moves Inside tk = Inside /\
    String.length rest' <= String.length rest.
Proof.
  cbn [appendStringLoop].
  destruct (code c <? 128)%N eqn:Hascii.
  { exists (if htmlSafe c then String c EmptyString else escapeASCII c), rest.
    split; [reflexivity|]. split; [now apply ascii_token_body|].
    split; [apply (ascii_token_inside c Hascii)|lia]. }
  destruct (decodeRune c rest) as [[r size]|] eqn:Hdec.
  2:{ exists "\ufffd", rest. repeat split; lia. }
  destruct (decodeRune_inv c rest r size Hdec) as [_ Hshape].
  destruct ((r =? 8232) || (r =? 8233))%N eqn:Hr.
  - assert (Htk : body Inside ("\u202" ++ String (hex (N.land r 15)) EmptyString) = true /\
                  moves Inside ("\u202" ++ String (hex (N.land r 15)) EmptyString) = Inside).
    { apply orb_prop in Hr as [Hr | Hr]; apply N.eqb_eq in Hr; subst r; now split. }
    destruct Htk as [Hb Hm].
    destruct Hshape as [(-> & _ & b1 & rest' & -> & _)
                       |[(-> & b1 & b2 & rest' & -> & _)
                        |(-> & _ & b1 & b2 & b3 & rest' & -> & _)]];
      exists ("\u202" ++ String (hex (N.land r 15)) EmptyString), rest';
      (split; [reflexivity|]); (split; [exact Hb|]); (split; [exact Hm|simpl; lia]).
  - destruct (high_byte_passes c Hascii) as [_ Hmc].
    destruct Hshape as [(-> & H226 & b1 & rest' & -> & C1)
                       |[(-> & b1 & b2 & rest' & -> & C1 & C2)
                        |(-> & H226 & b1 & b2 & b3 & rest' & -> & C1 & C2 & C3)]].
    + exists (String c (String b1 EmptyString)), rest'.
      split; [reflexivity|].
      destruct (high_byte_passes b1 (proj1 (continuation_high b1 C1))) as [_ M1].
      split; [now rewrite high_byte_body, continuation_body|].
      split; [cbn [moves]; now rewrite Hmc, M1|simpl; lia].
    + exists (String c (String b1 (String b2 EmptyString))), rest'.
      split; [reflexivity|].
      destruct (high_byte_passes b1 (proj1 (continuation_high b1 C1))) as [_ M1].
      destruct (high_byte_passes b2 (proj1 (continuation_high b2 C2))) as [_ M2].
      split; [now rewrite high_byte_body, !continuation_body|].
      split; [cbn [moves]; now rewrite Hmc, M1, M2|simpl; lia].
    + exists (String c (String b1 (String b2 (String b3 EmptyString)))), rest'.
      split; [reflexivity|].
      destruct (high_byte_passes b1 (proj1 (continuation_high b1 C1))) as [_ M1].
      destruct (high_byte_passes b2 (proj1 (continuation_high b2 C2))) as [_ M2].
      destruct (high_byte_passes b3 (proj1 (continuation_high b3 C3))) as [_ M3].
      split; [now rewrite high_byte_body, !continuation_body|].
      split; [cbn [moves]; now rewrite Hmc, M1, M2, M3|simpl; lia].
Qed.

Lemma appendStringLoop_body (n : nat) :
  forall src, String.length src <= n ->
    body Inside (appendStringLoop Fresh src) = true /\
    moves Inside (appendStringLoop Fresh src) = Inside.
Proof.
  induction n as [|n IH]; intros [|c rest] Hlen; simpl in Hlen; try (now split); try lia.
  destruct (appendStringLoop_step_body c rest) as (tk & rest' & -> & Hb & Hm & Hrest).
  destruct (IH rest' ltac:(lia)) as [Hb' Hm'].
  split; [now rewrite body_app, Hb, Hm, Hb'|now rewrite moves_app, Hm, Hm'].
Qed.

(** The scanner reads a quoted string from its opening to its closing
    quote, as a value or as the key of an object. *)
Lemma scan_appendString (s : string) (f : stepfn) (ps : list parseKind) :
  begins f \/ f = stateBeginString \/ f = stateBeginStringOrEmpty ->
  scan (at_state f ps) (appendString s) = at_state stateEndValue ps.
Proof.
  intros Hf. unfold appendString.
  destruct (appendStringLoop_body (String.length s) s (le_n _)) as [Hb Hm].
  assert (H1 : fst (scan_step (at_state f ps) dquote) = at_state stateInString ps)
    by (destruct Hf as [[-> | ->] | [-> | ->]]; reflexivity).
  pose proof (scan_body _ Inside ps Hb) as Hs. rewrite Hm in Hs. cbn [state_of] in Hs.
  rewrite scan_cons, H1, scan_app, Hs. reflexivity.
Qed.

Lemma accepted_appendString (d : N) (s : string) : accepted d (appendString s).
Proof. intros f k ps Hf _. apply scan_appendString. now left. Qed.

(** *** Integers *)

Lemma scan_decimal_digits (f : stepfn) (ps : list parseKind) (n : N) :
  begins f \/ f = stateNeg ->
  exists f', value_ended f' /\ scan (at_state f ps) (Fmt.decimal n) = at_state f' ps.
Proof.
  intros Hf.
  destruct (decimal_cases n) as [-> | (d & ds & -> & Hd & Hds)].
  - exists state0. split; [right; now left|].
    destruct Hf as [[-> | ->] | ->]; reflexivity.
  - exists state1. split; [right; now right|].
    assert (H1 : fst (scan_step (at_state f ps) d) = at_state state1 ps).
    { apply isDigit19_cases in Hd.
      destruct Hf as [[-> | ->] | ->];
        repeat (destruct Hd as [-> | Hd]; [reflexivity|]); now subst. }
    rewrite scan_cons, H1. now apply scan_digits_state1.
Qed.

Lemma taken_int (d : N) (n : Z) (t : string) : intEncoder n = Ok t -> taken d t.
Proof.
  unfold intEncoder. intros H. same_text H. intros f k ps Hf _.
  destruct (n <? 0)%Z.
  - change ("-" ++ ?x) with (String "-" x). rewrite scan_cons.
    assert (H1 : fst (scan_step (at_state f (k :: ps)) "-") = at_state stateNeg (k :: ps))
      by (destruct Hf as [-> | ->]; reflexivity).
    rewrite H1. apply scan_decimal_digits. now right.
  - apply scan_decimal_digits. now left.
Qed.

(** *** Arrays and objects *)

Lemma step_close_array_ended (f : stepfn) (ps : list parseKind) :
  value_ended f -> fst (scan_step (at_state f (parseArrayValue :: ps)) "]") = closed ps.
Proof. intros [-> | [-> | ->]]; destruct ps; reflexivity. Qed.

Lemma step_comma_array_ended (f : stepfn) (ps : list parseKind) :
  value_ended f ->
  fst (scan_step (at_state f (parseArrayValue :: ps)) ",")
  = at_state stateBeginValue (parseArrayValue :: ps).
Proof. intros [-> | [-> | ->]]; reflexivity. Qed.

Lemma step_close_object (f : stepfn) (ps : list parseKind) :
  value_ended f -> fst (scan_step (at_state f (parseObjectValue :: ps)) "}") = closed ps.
Proof. intros [-> | [-> | ->]]; destruct ps; reflexivity. Qed.

Lemma step_comma_object (f : stepfn) (ps : list parseKind) :
  value_ended f ->
  fst (scan_step (at_state f (parseObjectValue :: ps)) ",")
  = at_state stateBeginString (parseObjectKey :: ps).
Proof. intros [-> | [-> | ->]]; reflexivity. Qed.

Lemma step_colon (ps : list parseKind) :
  fst (scan_step (at_state stateEndValue (parseObjectKey :: ps)) ":")
  = at_state stateBeginValue (parseObjectValue :: ps).
Proof. reflexivity. Qed.

Lemma step_open_object (f : stepfn) (ps : list parseKind) :
  begins f -> fits ps 1 ->
  fst (scan_step (at_state f ps) "{") = at_state stateBeginStringOrEmpty (parseObjectKey :: ps).
Proof.
  intros Hf Hfit.
  assert (H : do_stateBeginValue (at_state f ps) "{"
              = pushParseState (at_state f ps) parseObjectKey stateBeginStringOrEmpty)
    by reflexivity.
  destruct Hf as [-> | ->]; unfold scan_step; simpl step;
    [|change (do_stateBeginValueOrEmpty ?s "{") with (do_stateBeginValue s "{")];
    rewrite H, push_fits by exact Hfit; reflexivity.
Qed.

Lemma step_close_empty_object (ps : list parseKind) :
  fst (scan_step (at_state stateBeginStringOrEmpty (parseObjectKey :: ps)) "}") = closed ps.
Proof. destruct ps; reflexivity. Qed.

Lemma fits_inner (k : parseKind) (ps : list parseKind) (d : N) :
  fits ps (d + 1) -> fits (k :: ps) d.
Proof.
  unfold fits. simpl List.length. rewrite Nat2N.inj_succ. lia.
Qed.

Lemma fits_one (ps : list parseKind) (d : N) : fits ps (d + 1) -> fits ps 1.
Proof. unfold fits. lia. Qed.

(** The elements of an array, after its opening bracket. *)
Lemma scan_elements_taken (d : N) (ps : list parseKind) (ts : list string) :
  Forall (taken d) ts -> ts <> [] -> fits (parseArrayValue :: ps) d ->
  forall f, begins f ->
    scan (at_state f (parseArrayValue :: ps)) (joinComma ts ++ "]") = closed ps.
Proof.
  intros Hts. induction Hts as [|t ts Ht Hts IH]; intros Hne Hfit f Hf; [congruence|].
  destruct (Ht f _ _ Hf Hfit) as (f' & Hf' & Hscan).
  destruct ts as [|t' ts].
  - change (joinComma [t]) with t.
    rewrite scan_app, Hscan, scan_cons, step_close_array_ended by exact Hf'.
    reflexivity.
  - change (joinComma (t :: t' :: ts)) with (t ++ "," ++ joinComma (t' :: ts)).
    rewrite !string_app_assoc, scan_app, Hscan.
    change ("," ++ ?x) with (String "," x).
    rewrite scan_cons, step_comma_array_ended by exact Hf'.
    apply IH; [discriminate|exact Hfit|now left].
Qed.

Lemma bracketed_array (d : N) (ts : list string) :
  Forall (taken d) ts -> bracketed (d + 1) ("[" ++ joinComma ts ++ "]").
Proof.
  intros Hts f ps Hf Hfit.
  change ("[" ++ ?x) with (String "[" x).
  rewrite scan_cons, step_open_array; [|exact Hf|exact (fits_one ps d Hfit)].
  destruct ts as [|t ts].
  - destruct ps; reflexivity.
  - apply (scan_elements_taken d ps (t :: ts) Hts);
      [discriminate|now apply fits_inner|now right].
Qed.

(** The members of an object, after its opening brace. *)
Lemma scan_members (d : N) (ps : list parseKind) (ms : list (string * string)) :
  Forall (fun kv => taken d (snd kv)) ms -> ms <> [] -> fits (parseObjectKey :: ps) d ->
  forall f, f = stateBeginString \/ f = stateBeginStringOrEmpty ->
    scan (at_state f (parseObjectKey :: ps)) (joinComma (List.map memberText ms) ++ "}")
    = closed ps.
Proof.
  intros Hms. induction Hms as [|[k v] ms Hv Hms IH]; intros Hne Hfit f Hf; [congruence|].
  cbn [snd] in Hv.
  assert (Hfit' : fits (parseObjectValue :: ps) d) by exact Hfit.
  destruct (Hv stateBeginValue _ _ (or_introl eq_refl) Hfit') as (f' & Hf' & Hscan).
  assert (Hmember : forall rest,
            scan (at_state f (parseObjectKey :: ps)) (memberText (k, v) ++ rest)
            = scan (at_state f' (parseObjectValue :: ps)) rest).
  { intros rest. unfold memberText. cbn [fst snd].
    rewrite !string_app_assoc, scan_app, scan_appendString by (now right).
    change (":" ++ ?x) with (String ":" x).
    rewrite scan_cons, step_colon, scan_app, Hscan. reflexivity. }
  destruct ms as [|m ms].
  - change (joinComma (List.map memberText [(k, v)])) with (memberText (k, v)).
    rewrite Hmember, scan_cons, step_close_object by exact Hf'. reflexivity.
  - change (joinComma (List.map memberText ((k, v) :: m :: ms)))
      with (memberText (k, v) ++ "," ++ joinComma (List.map memberText (m :: ms))).
    rewrite string_app_assoc, Hmember.
    change (("," ++ ?x) ++ ?y) with (String "," (x ++ y)).
    rewrite scan_cons, step_comma_object by exact Hf'.
    apply IH; [discriminate|exact Hfit|now left].
Qed.

Lemma bracketed_object (d : N) (ms : list (string * string)) :
  Forall (fun kv => taken d (snd kv)) ms ->
  bracketed (d + 1) ("{" ++ joinComma (List.map memberText ms) ++ "}").
Proof.
  intros Hms f ps Hf Hfit.
  change ("{" ++ ?x) with (String "{" x).
  rewrite scan_cons, step_open_object; [|exact Hf|exact (fits_one ps d Hfit)].
  destruct ms as [|m ms].
  - cbn [List.map joinComma]. change (EmptyString ++ "}") with "}".
    rewrite scan_cons, step_close_empty_object. reflexivity.
  - apply (scan_members d ps (m :: ms) Hms);
      [discriminate|now apply fits_inner|now right].
Qed.

(** *** Encoders whose parts the scanner reads *)

Lemma sliceEncoder_bracketed {A} (enc : A -> result) (d : N) (l : list A) :
  Forall (fun x => exists t, enc x = Ok t /\ taken d t) l ->
  exists b, sliceEncoder enc (Some l) = Ok b /\ bracketed (d + 1) b.
Proof.
  intros H.
  assert (Hts : exists ts, List.map enc l = List.map Ok ts /\ Forall (taken d) ts).
  { induction H as [|x l (t & Hx & Ht) _ (ts & Hmap & Hts)].
    - exists []. split; constructor.
    - exists (t :: ts). cbn [List.map]. rewrite Hx, Hmap. split; [reflexivity|].
      now constructor. }
  destruct Hts as (ts & Hmap & Hts).
  exists ("[" ++ joinComma ts ++ "]"). split; [|now apply bracketed_array].
  cbn [sliceEncoder]. now rewrite Hmap, commaSeparated_Ok.
Qed.

Lemma structEncoder_bracketed (d : N) (fields : list (string * result)) :
  Forall (fun kv => exists t, snd kv = Ok t /\ taken d t) fields ->
  exists b, structEncoder fields = Ok b /\ bracketed (d + 1) b.
Proof.
  intros H.
  assert (Hms : exists ms, List.map member fields = List.map Ok (List.map memberText ms) /\
                           Forall (fun kv => taken d (snd kv)) ms).
  { induction H as [|[k r] fields (t & Hr & Ht) _ (ms & Hmap & Hms)].
    - exists []. split; constructor.
    - exists ((k, t) :: ms). cbn [List.map]. rewrite Hmap. cbn [snd] in Hr. subst r.
      split; [reflexivity|]. now constructor. }
  destruct Hms as (ms & Hmap & Hms).
  exists ("{" ++ joinComma (List.map memberText ms) ++ "}").
  split; [|now apply bracketed_object].
  unfold structEncoder. now rewrite Hmap, commaSeparated_Ok.
Qed.

(** *** Dynamic values *)

Lemma max_depth_in {A} (depth : A -> N) (l : list A) (x : A) :
  In x l -> (depth x <= max_depth depth l)%N.
Proof.
  induction l as [|y l IH]; [contradiction|]. cbn [max_depth fold_right].
  fold (max_depth depth l). intros [-> | H]; [lia|]. specialize (IH H). lia.
Qed.

Lemma mapEncoder_bracketed {V} (enc : V -> result) (d : N) (entries : list (string * V)) :
  Forall (fun kv => exists t, enc (snd kv) = Ok t /\ taken d t) entries ->
  exists b, mapEncoder enc (Some entries) = Ok b /\ bracketed (d + 1) b.
Proof.
  intros H. cbn [mapEncoder]. apply structEncoder_bracketed, Forall_sortEntries.
  induction H as [|kv entries Hkv _ IH]; cbn [List.map]; constructor; assumption.
Qed.

(** A dynamic value without a channel is written, and the scanner reads its
    text wherever its depth fits. *)
Lemma any_taken (v : any) :
  encodable v = true -> exists t, anyEncoder v = Ok t /\ taken (any_depth v) t.
Proof.
  induction v as [|b|n|s|l IH|m IH|] using any_induction; cbn [encodable anyEncoder any_depth];
    intros Henc.
  - exists "null". split; [reflexivity|apply accepted_taken, accepted_null].
  - exists (if b then "true" else "false"). split; [reflexivity|].
    destruct b; apply accepted_taken; [apply accepted_true|apply accepted_false].
  - destruct (intEncoder n) as [t|e] eqn:Hn; [|discriminate Hn].
    exists t. split; [reflexivity|]. now apply (taken_int _ n).
  - exists (appendString s). split; [reflexivity|apply accepted_taken, accepted_appendString].
  - destruct l as [vs|].
    + destruct (sliceEncoder_bracketed anyEncoder (max_depth any_depth vs) vs) as (b & Hb & Hbr).
      * cbn [elems] in IH. rewrite List.Forall_forall in IH |- *. intros x Hx.
        destruct (IH x Hx (finite_in _ _ _ Henc Hx)) as (t & Ht & Htaken).
        exists t. split; [exact Ht|].
        apply (taken_mono (any_depth x)); [now apply max_depth_in|exact Htaken].
      * exists b. split; [exact Hb|now apply bracketed_taken].
    + exists "null". split; [reflexivity|apply accepted_taken, accepted_null].
  - destruct m as [entries|].
    + destruct (mapEncoder_bracketed anyEncoder
                  (max_depth (fun kv => any_depth (snd kv)) entries) entries) as (b & Hb & Hbr).
      * rewrite List.Forall_forall in IH |- *. intros kv Hkv.
        destruct (IH kv Hkv (finite_in (fun kv => encodable (snd kv)) _ _ Henc Hkv))
          as (t & Ht & Htaken).
        exists t. split; [exact Ht|].
        apply (taken_mono (any_depth (snd kv))); [|exact Htaken].
        exact (max_depth_in (fun kv => any_depth (snd kv)) entries kv Hkv).
      * exists b. split; [exact Hb|now apply bracketed_taken].
    + exists "null". split; [reflexivity|apply accepted_taken, accepted_null].
  - discriminate Henc.
Qed.

Lemma properties_taken (m : gomap any) :
  properties_encodable m = true ->
  exists t, mapEncoder anyEncoder m = Ok t /\ taken (any_depth (any_map m)) t.
Proof. apply (any_taken (any_map m)). Qed.

(** *** Geometries *)

Lemma geometryText_members (T ct : string) :
  geometryText T ct
  = "{" ++ joinComma (List.map memberText [("type", appendString T); ("coordinates", ct)])
        ++ "}".
Proof. reflexivity. Qed.

Lemma coordinate_struct_bracketed {C} (encodeC : C -> result) (g : Geometry) (c : C) (d : N) :
  good d (encodeC c) -> (d <= 4)%N ->
  exists t, marshalerEncoder (marshalGeoJSONGeometryWithCoordinates encodeC g c) = Ok t /\
            bracketed (d + 1) t.
Proof.
  intros Hgood Hd.
  destruct (marshal_good_coordinates encodeC g c d Hgood (small_depth d Hd))
    as (ct & Hct & ->).
  exists (geometryText (Geometry_Type g) ct). split; [reflexivity|].
  rewrite geometryText_members. apply bracketed_object.
  destruct Hgood as (ct' & Hct' & _ & Hacc). rewrite Hct in Hct'. injection Hct' as <-.
  repeat first [apply List.Forall_cons | apply List.Forall_nil]; cbn [snd].
  - apply accepted_taken, accepted_appendString.
  - now apply accepted_taken.
Qed.

Lemma coordinates_bracketed (g : Geometry) :
  isCollection g = false -> Geometry_finite g = true ->
  exists t, encodeGeometry g = Ok t /\ bracketed (Geometry_depth g) t.
Proof.
  destruct g as [p|p|p|p|p|p|gs];
    cbn [isCollection Geometry_finite encodeGeometry Geometry_depth];
    intros Hc Hfin; try discriminate Hc.
  - apply (coordinate_struct_bracketed encodePosition (PointPtr p) _ 1);
      [now apply good_position|lia].
  - apply (coordinate_struct_bracketed encodePositions (MultiPointPtr p) _ 2);
      [now apply good_positions|lia].
  - apply (coordinate_struct_bracketed encodePositions (LineStringPtr p) _ 2);
      [now apply good_positions|lia].
  - apply (coordinate_struct_bracketed encodePositions2 (MultiLineStringPtr p) _ 3);
      [now apply good_positions2|lia].
  - apply (coordinate_struct_bracketed encodePositions2 (PolygonPtr p) _ 3);
      [now apply good_positions2|lia].
  - apply (coordinate_struct_bracketed encodePositions3 (MultiPolygonPtr p) _ 4);
      [now apply good_positions3|lia].
Qed.

(** A geometry with finite coordinates is written, and the scanner reads its
    text wherever its depth fits. *)
Lemma geometry_taken (g : Geometry) :
  Geometry_finite g = true ->
  exists t, encodeGeometry g = Ok t /\ taken (Geometry_depth g) t.
Proof.
  induction g as [g Hg | gs IH] using Geometry_induction; intros Hfin.
  - destruct (coordinates_bracketed g Hg Hfin) as (t & Ht & Hbr).
    exists t. split; [exact Ht|now apply bracketed_taken].
  - cbn [encodeGeometry Geometry_finite Geometry_depth] in Hfin |- *.
    destruct gs as [l|].
    + set (depth := fun o : option Geometry => match o with
                                               | Some g' => Geometry_depth g'
                                               | None => 0%N
                                               end).
      destruct (sliceEncoder_bracketed (interfaceEncoder encodeGeometry)
                  (max_depth depth l) l) as (b & Hb & Hbr).
      * cbn [elems] in IH. rewrite List.Forall_forall in IH |- *. intros o Ho.
        destruct o as [g|]; cbn [interfaceEncoder].
        -- destruct (IH (Some g) Ho (finite_in _ l (Some g) Hfin Ho)) as (t & Ht & Htaken).
           exists t. split; [exact Ht|].
           apply (taken_mono (Geometry_depth g)); [|exact Htaken].
           exact (max_depth_in depth l (Some g) Ho).
        -- exists "null". split; [reflexivity|apply accepted_taken, accepted_null].
      * exists b. split; [exact Hb|now apply bracketed_taken].
    + exists "null". split; [reflexivity|apply accepted_taken, accepted_null].
Qed.

(** *** Features *)

Lemma is_ok_interfaceEncoder (o : option Geometry) :
  is_ok (interfaceEncoder encodeGeometry o)
  = match o with
    | Some g => Geometry_finite g
    | None => true
    end.
Proof. destruct o as [g|]; [apply is_ok_encodeGeometry|reflexivity]. Qed.

Lemma is_ok_properties (m : gomap any) :
  is_ok (mapEncoder anyEncoder m) = properties_encodable m.
Proof. apply (is_ok_anyEncoder (any_map m)). Qed.

Lemma is_ok_Feature_MarshalJSON (f : Feature) :
  is_ok (Feature_MarshalJSON f) = Feature_writable f.
Proof.
  unfold Feature_MarshalJSON, Feature_fields, Feature_writable.
  rewrite is_ok_structEncoder. cbn [forallb snd stringEncoder is_ok].
  now rewrite is_ok_interfaceEncoder, is_ok_properties, andb_true_r.
Qed.

Lemma is_ok_encodeFeatureValue (f : Feature) :
  is_ok (encodeFeatureValue f) = Feature_writable f.
Proof.
  unfold encodeFeatureValue, Feature_fields, Feature_writable.
  rewrite is_ok_structEncoder. cbn [forallb snd].
  now rewrite is_ok_interfaceEncoder, is_ok_properties, andb_true_r.
Qed.

(** The text [Feature.MarshalJSON] returns for a writable Feature is read by
    the scanner wherever its depth fits. *)
Lemma Feature_MarshalJSON_bracketed (f : Feature) :
  Feature_writable f = true ->
  exists b, Feature_MarshalJSON f = Ok b /\ bracketed (Feature_depth f) b.
Proof.
  unfold Feature_writable. intros H. apply andb_prop in H as [Hg Hp].
  set (dg := match Feature_Geometry f with
             | Some g => Geometry_depth g
             | None => 0%N
             end).
  set (dp := any_depth (any_map (Properties f))).
  apply (structEncoder_bracketed (N.max dg dp)). unfold Feature_fields.
  repeat first [apply List.Forall_cons | apply List.Forall_nil]; cbn [snd].
  - exists (appendString (Feature_Type f)). split; [reflexivity|].
    apply accepted_taken, accepted_appendString.
  - subst dg. destruct (Feature_Geometry f) as [g|]; cbn [interfaceEncoder].
    + destruct (geometry_taken g Hg) as (t & Ht & Htaken).
      exists t. split; [exact Ht|]. apply (taken_mono (Geometry_depth g)); [lia|exact Htaken].
    + exists "null". split; [reflexivity|apply accepted_taken, accepted_null].
  - destruct (properties_taken _ Hp) as (t & Ht & Htaken).
    exists t. split; [exact Ht|]. apply (taken_mono dp); [lia|exact Htaken].
Qed.

Lemma closed_top_eof : eof (closed []) = true.
Proof. reflexivity. Qed.

(** A bracketed, balanced text of a fitting depth passes the check of
    [encoding/json] unchanged. *)
Lemma marshalerEncoder_bracketed (b : string) (d : N) :
  balanced b -> bracketed d b -> (d <= maxNestingDepth)%N ->
  marshalerEncoder (Ok b) = Ok b.
Proof.
  intros Hbal Hbr Hd. cbn [marshalerEncoder].
  rewrite appendCompact_kept_ok; [reflexivity|now apply balanced_kept|].
  change newScanner with (at_state stateBeginValue []).
  rewrite (Hbr stateBeginValue [] (or_introl eq_refl)); [reflexivity|].
  unfold fits. simpl. lia.
Qed.

Lemma encodeFeatureAddr_bracketed (f : Feature) :
  Feature_writable f = true -> (Feature_depth f <= maxNestingDepth)%N ->
  exists b, encodeFeatureAddr f = Ok b /\ Feature_MarshalJSON f = Ok b /\
            bracketed (Feature_depth f) b.
Proof.
  intros Hw Hd. destruct (Feature_MarshalJSON_bracketed f Hw) as (b & Hb & Hbr).
  exists b. unfold encodeFeatureAddr. rewrite Hb.
  split; [|now split].
  apply (marshalerEncoder_bracketed b (Feature_depth f)); [|exact Hbr|exact Hd].
  exact (Feature_MarshalJSON_balanced f b Hb).
Qed.

Lemma is_ok_encodeFeatureAddr (f : Feature) :
  (Feature_depth f <= maxNestingDepth)%N ->
  is_ok (encodeFeatureAddr f) = Feature_writable f.
Proof.
  intros Hd. destruct (Feature_writable f) eqn:Hw.
  - destruct (encodeFeatureAddr_bracketed f Hw Hd) as (b & -> & _). reflexivity.
  - rewrite <- is_ok_Feature_MarshalJSON in Hw. unfold encodeFeatureAddr.
    destruct (Feature_MarshalJSON f); [discriminate Hw|reflexivity].
Qed.

Lemma bracketed_Valid (d : N) (t : string) :
  bracketed d t -> (d <= maxNestingDepth)%N -> Valid t = true.
Proof.
  intros Hbr Hd. unfold Valid. change newScanner with (at_state stateBeginValue []).
  rewrite (Hbr stateBeginValue [] (or_introl eq_refl)); [reflexivity|].
  unfold fits. simpl. lia.
Qed.

(** The plain struct of a writable Feature is read by the scanner wherever
    its depth fits. *)
Lemma encodeFeatureValue_bracketed (f : Feature) :
  Feature_writable f = true ->
  exists b, encodeFeatureValue f = Ok b /\ bracketed (Feature_depth f) b.
Proof.
  unfold Feature_writable. intros H. apply andb_prop in H as [Hg Hp].
  set (dg := match Feature_Geometry f with
             | Some g => Geometry_depth g
             | None => 0%N
             end).
  set (dp := any_depth (any_map (Properties f))).
  apply (structEncoder_bracketed (N.max dg dp)). unfold Feature_fields.
  repeat first [apply List.Forall_cons | apply List.Forall_nil]; cbn [snd].
  - subst dg. destruct (Feature_Geometry f) as [g|]; cbn [interfaceEncoder].
    + destruct (geometry_taken g Hg) as (t & Ht & Htaken).
      exists t. split; [exact Ht|]. apply (taken_mono (Geometry_depth g)); [lia|exact Htaken].
    + exists "null". split; [reflexivity|apply accepted_taken, accepted_null].
  - destruct (properties_taken _ Hp) as (t & Ht & Htaken).
    exists t. split; [exact Ht|]. apply (taken_mono dp); [lia|exact Htaken].
Qed.

(** X13: a Feature passed to [ToText] as a value, with a depth bound within
    the limit of the scanner, is written exactly when the coordinates of its
    geometry are finite and its properties hold no channel; the text is then
    a valid JSON text. *)
Theorem Feature_value_written_iff_writable :
  forall f : Feature,
    (Feature_depth f <= maxNestingDepth)%N ->
    is_ok (ToText (Some (FeatureValue f))) = Feature_writable f /\
    (forall t, ToText (Some (FeatureValue f)) = Ok t -> Valid t = true).
Proof.
  intros f Hd. cbn [ToText]. split; [apply is_ok_encodeFeatureValue|].
  intros t Ht.
  assert (Hw : Feature_writable f = true)
    by (rewrite <- is_ok_encodeFeatureValue, Ht; reflexivity).
  destruct (encodeFeatureValue_bracketed f Hw) as (b & Hb & Hbr).
  rewrite Ht in Hb. injection Hb as <-.
  exact (bracketed_Valid _ t Hbr Hd).
Qed.

Lemma Feature_value_written_iff_writable_witness :
  is_ok (ToText (Some (FeatureValue featureC))) = Feature_writable featureC /\
  (forall t, ToText (Some (FeatureValue featureC)) = Ok t -> Valid t = true).
Proof.
  apply (Feature_value_written_iff_writable featureC). vm_compute. discriminate.
Defined.

(** X14: a [*Feature] whose depth bound is within the limit of the scanner is
    written by [ToText] exactly when the coordinates of its geometry are
    finite and its properties hold no channel. *)
Theorem Feature_pointer_written_iff_writable :
  forall f : Feature,
    (Feature_depth f <= maxNestingDepth)%N ->
    is_ok (ToText (Some (FeaturePtr f))) = Feature_writable f.
Proof. intros f Hd. now apply is_ok_encodeFeatureAddr. Qed.

Lemma Feature_pointer_written_iff_writable_witness :
  is_ok (ToText (Some (FeaturePtr featureC))) = Feature_writable featureC.
Proof.
  apply (Feature_pointer_written_iff_writable featureC). vm_compute. discriminate.
Defined.

(** *** Feature collections *)

Lemma FeatureCollection_MarshalJSON_bracketed (c : FeatureCollection) :
  forallb Feature_writable (elems c) = true ->
  (FeatureCollection_depth c <= maxNestingDepth)%N ->
  exists b, FeatureCollection_MarshalJSON c = Ok b /\
            bracketed (FeatureCollection_depth c) b.
Proof.
  intros Hw Hd. unfold FeatureCollection_MarshalJSON, FeatureCollection_depth in *.
  apply (structEncoder_bracketed (max_depth Feature_depth (elems c) + 1)).
  repeat first [apply List.Forall_cons | apply List.Forall_nil]; cbn [snd].
  - exists (appendString (FeatureCollection_Type c)). split; [reflexivity|].
    apply accepted_taken, accepted_appendString.
  - destruct c as [l|]; cbn [elems] in *.
    + destruct (sliceEncoder_bracketed encodeFeatureAddr (max_depth Feature_depth l) l)
        as (b & Hb & Hbr).
      * apply List.Forall_forall. intros f Hf.
        pose proof (max_depth_in Feature_depth l f Hf) as Hdf.
        destruct (encodeFeatureAddr_bracketed f (finite_in _ _ _ Hw Hf) ltac:(lia))
          as (b & Hb & _ & Hbr).
        exists b. split; [exact Hb|].
        apply (taken_mono (Feature_depth f)); [exact Hdf|now apply bracketed_taken].
      * exists b. split; [exact Hb|now apply bracketed_taken].
    + exists "null". split; [reflexivity|apply accepted_taken, accepted_null].
Qed.

Lemma is_ok_FeatureCollection_MarshalJSON (c : FeatureCollection) :
  (FeatureCollection_depth c <= maxNestingDepth)%N ->
  is_ok (FeatureCollection_MarshalJSON c) = forallb Feature_writable (elems c).
Proof.
  intros Hd. unfold FeatureCollection_MarshalJSON.
  rewrite is_ok_structEncoder. cbn [forallb snd stringEncoder is_ok].
  rewrite andb_true_r. apply is_ok_sliceEncoder. intros f Hf.
  apply is_ok_encodeFeatureAddr.
  pose proof (max_depth_in Feature_depth (elems c) f Hf).
  unfold FeatureCollection_depth in Hd. lia.
Qed.

(** X19: a [*FeatureCollection] whose depth bound is within the limit of the
    scanner is written by [ToText] exactly when each of its features is
    writable: finite coordinates, no channel among the properties. *)
Theorem FeatureCollection_written_iff_features_writable :
  forall c : FeatureCollection,
    (FeatureCollection_depth c <= maxNestingDepth)%N ->
    is_ok (ToText (Some (FeatureCollectionPtr c))) = forallb Feature_writable (elems c).
Proof.
  intros c Hd. cbn [ToText].
  destruct (forallb Feature_writable (elems c)) eqn:Hw.
  - destruct (FeatureCollection_MarshalJSON_bracketed c Hw Hd) as (b & Hb & Hbr).
    rewrite Hb.
    rewrite (marshalerEncoder_bracketed b (FeatureCollection_depth c));
      [reflexivity| |exact Hbr|exact Hd].
    exact (FeatureCollection_MarshalJSON_balanced c b Hb).
  - rewrite <- (is_ok_FeatureCollection_MarshalJSON c Hd) in Hw.
    destruct (FeatureCollection_MarshalJSON c); [discriminate Hw|reflexivity].
Qed.

Lemma FeatureCollection_written_iff_features_writable_witness :
  is_ok (ToText (Some (FeatureCollectionPtr (Some [featureA; featureC]))))
  = forallb Feature_writable (elems (Some [featureA; featureC])).
Proof.
  apply (FeatureCollection_written_iff_features_writable (Some [featureA; featureC])).
  vm_compute. discriminate.
Defined.

(** X15: [g.ToFeature(properties)] passed to [ToText] by address, for a
    geometry with finite coordinates and properties that are written as
    [tp], with a depth bound within the limit: the object of the type
    [Feature], of the text of the geometry and of [tp]. *)
Theorem ToFeature_ToText_text :
  forall (g : Geometry) (properties : gomap any) (tp : string),
    Geometry_finite g = true ->
    mapEncoder anyEncoder properties = Ok tp ->
    (Feature_depth (ToFeature g properties) <= maxNestingDepth)%N ->
    ToText (Some (FeaturePtr (ToFeature g properties)))
    = Ok (json "{'type':'Feature','geometry':" ++ geometryJSON g
            ++ json ",'properties':" ++ tp ++ "}").
Proof.
  intros g properties tp Hfin Hp Hd. rewrite ToFeature_fields in *.
  assert (Hw : Feature_writable (NewFeature (Some g) properties) = true).
  { unfold Feature_writable, NewFeature. cbn [Feature_Geometry Properties].
    rewrite Hfin, <- is_ok_properties, Hp. reflexivity. }
  destruct (encodeFeatureAddr_bracketed _ Hw Hd) as (b & Hb & HM & _).
  cbn [ToText]. rewrite Hb. rewrite <- HM.
  apply Feature_MarshalJSON_text; [|exact Hp].
  cbn [NewFeature Feature_Geometry interfaceEncoder]. now apply finite_geometry_text.
Qed.

Lemma ToFeature_ToText_text_witness :
  ToText (Some (FeaturePtr
    (ToFeature (NewGeometryCollection (Some [Some (NewPoint p12); None])) namedX)))
  = Ok (json "{'type':'Feature','geometry':"
          ++ geometryJSON (NewGeometryCollection (Some [Some (NewPoint p12); None]))
          ++ json ",'properties':" ++ json "{'name':'x'}" ++ "}").
Proof.
  apply (ToFeature_ToText_text
           (NewGeometryCollection (Some [Some (NewPoint p12); None])) namedX
           (json "{'name':'x'}")).
  - reflexivity.
  - vm_compute. reflexivity.
  - vm_compute. discriminate.
Defined.

(** *** Geometries within the depth limit *)

(** The members of a collection with finite coordinates are written, and
    the scanner reads the array wherever its depth fits. *)
Lemma collection_bracketed (l : list (option Geometry)) :
  Geometry_finite (GeometryCollectionPtr (Some l)) = true ->
  exists b, encodeGeometry (GeometryCollectionPtr (Some l)) = Ok b /\
            bracketed (Geometry_depth (GeometryCollectionPtr (Some l))) b.
Proof.
  cbn [encodeGeometry Geometry_finite Geometry_depth]. intros Hfin.
  apply sliceEncoder_bracketed. apply List.Forall_forall. intros o Ho.
  destruct o as [g|]; cbn [interfaceEncoder].
  - destruct (geometry_taken g (finite_in _ l (Some g) Hfin Ho)) as (t & Ht & Htaken).
    exists t. split; [exact Ht|].
    apply (taken_mono (Geometry_depth g)); [|exact Htaken].
    exact (max_depth_in (fun o => match o with
                                  | Some g' => Geometry_depth g'
                                  | None => 0%N
                                  end) l (Some g) Ho).
  - exists "null". split; [reflexivity|apply accepted_taken, accepted_null].
Qed.

(** The text of a geometry whose depth bound is within the limit of the
    scanner is a valid JSON text. *)
Lemma geometry_Valid (g : Geometry) (t : string) :
  (Geometry_depth g <= maxNestingDepth)%N -> encodeGeometry g = Ok t -> Valid t = true.
Proof.
  intros Hd Ht.
  assert (Hfin : Geometry_finite g = true)
    by (rewrite <- is_ok_encodeGeometry, Ht; reflexivity).
  destruct (isCollection g) eqn:Hc.
  - destruct g as [p|p|p|p|p|p|[l|]]; try discriminate Hc.
    + destruct (collection_bracketed l Hfin) as (b & Hb & Hbr).
      rewrite Ht in Hb. injection Hb as <-. exact (bracketed_Valid _ t Hbr Hd).
    + cbn [encodeGeometry sliceEncoder] in Ht. injection Ht as <-. reflexivity.
  - destruct (coordinates_bracketed g Hc Hfin) as (b & Hb & Hbr).
    rewrite Ht in Hb. injection Hb as <-. exact (bracketed_Valid _ t Hbr Hd).
Qed.

(** C9, amended: every geometry built from positions whose coordinates are
    all finite (no NaN, no infinity) and whose depth bound is within the
    limit of the scanner (it is at most 5 for the six coordinate types) is
    written by [ToText] without error, as a valid JSON text. *)
Theorem finite_geometry_ToText_succeeds :
  forall g : Geometry,
    Geometry_finite g = true ->
    (Geometry_depth g <= maxNestingDepth)%N ->
    exists t, ToText (Some (GeometryObject g)) = Ok t /\ Valid t = true.
Proof.
  intros g Hfin Hd. cbn [ToText].
  destruct (finite_geometry_encoded g Hfin) as (t & Ht).
  exists t. split; [exact Ht|exact (geometry_Valid g t Hd Ht)].
Qed.

Lemma finite_geometry_ToText_succeeds_witness :
  exists t,
    ToText (Some (GeometryObject
      (NewGeometryCollection
         (Some [Some (NewPoint p12); None; Some (NewPolygon squareRing None)])))) = Ok t /\
    Valid t = true.
Proof.
  apply (finite_geometry_ToText_succeeds
           (NewGeometryCollection
              (Some [Some (NewPoint p12); None; Some (NewPolygon squareRing None)]))).
  - reflexivity.
  - vm_compute. discriminate.
Defined.

(** X1: a geometry whose depth bound is within the limit of the scanner is
    written by [ToText] exactly when none of its coordinates is a NaN or an
    infinity; the text is then a valid JSON text. *)
Theorem geometry_ToText_succeeds_iff_finite :
  forall g : Geometry,
    (Geometry_depth g <= maxNestingDepth)%N ->
    is_ok (ToText (Some (GeometryObject g))) = Geometry_finite g /\
    (forall t, ToText (Some (GeometryObject g)) = Ok t -> Valid t = true).
Proof.
  intros g Hd. cbn [ToText]. split; [apply is_ok_encodeGeometry|].
  intros t Ht. exact (geometry_Valid g t Hd Ht).
Qed.

Lemma geometry_ToText_succeeds_iff_finite_witness :
  is_ok (ToText (Some (GeometryObject
    (NewGeometryCollection (Some [Some (NewPoint (mkPosition NaN f2)); None])))))
  = Geometry_finite
      (NewGeometryCollection (Some [Some (NewPoint (mkPosition NaN f2)); None])) /\
  (forall t,
     ToText (Some (GeometryObject
       (NewGeometryCollection (Some [Some (NewPoint (mkPosition NaN f2)); None])))) = Ok t ->
     Valid t = true).
Proof.
  apply (geometry_ToText_succeeds_iff_finite
           (NewGeometryCollection (Some [Some (NewPoint (mkPosition NaN f2)); None]))).
  vm_compute. discriminate.
Defined.

(** X2: what [ToText] returns for a geometry with finite coordinates and a
    depth bound within the limit of the scanner, in full: an object with the
    members [type] and [coordinates] for the six coordinate types, with every
    position as [Position.MarshalJSON] prints it and a nil slice as [null]; a
    bare array of the members for a collection. *)
Theorem finite_geometry_ToText_text :
  forall g : Geometry,
    Geometry_finite g = true ->
    (Geometry_depth g <= maxNestingDepth)%N ->
    ToText (Some (GeometryObject g)) = Ok (geometryJSON g) /\
    Valid (geometryJSON g) = true.
Proof.
  intros g Hfin Hd. cbn [ToText].
  pose proof (finite_geometry_text g Hfin) as Ht.
  split; [exact Ht|exact (geometry_Valid g _ Hd Ht)].
Qed.

Lemma finite_geometry_ToText_text_witness :
  ToText (Some (GeometryObject (NewLineString origin p12 (Some [origin]))))
  = Ok (geometryJSON (NewLineString origin p12 (Some [origin]))) /\
  Valid (geometryJSON (NewLineString origin p12 (Some [origin]))) = true.
Proof.
  apply (finite_geometry_ToText_text (NewLineString origin p12 (Some [origin]))).
  - reflexivity.
  - vm_compute. discriminate.
Defined.

(** The text of that witness, written out. *)
Remark LineString_text_written_out :
  geometryJSON (NewLineString origin p12 (Some [origin]))
  = json ("{'type':'LineString','coordinates':"
          ++ "[[0.000000,0.000000],[1.000000,2.000000],[0.000000,0.000000]]}").
Proof. vm_compute. reflexivity. Qed.

(** ** The order of the properties *)

Section KeyOrder.

#[local] Open Scope list_scope.

Lemma compare_not_Gt_trans (a b c : string) :
  String.compare a b <> Gt -> String.compare b c <> Gt -> String.compare a c <> Gt.
Proof.
  revert b c. induction a as [|x a IH]; intros [|y b] [|z c]; simpl; try congruence.
  unfold Ascii.compare.
  destruct (N.compare_spec (N_of_ascii x) (N_of_ascii y)) as [Hxy | Hxy | Hxy];
    destruct (N.compare_spec (N_of_ascii y) (N_of_ascii z)) as [Hyz | Hyz | Hyz];
    destruct (N.compare_spec (N_of_ascii x) (N_of_ascii z)) as [Hxz | Hxz | Hxz];
    try congruence; try lia.
  apply IH.
Qed.

Lemma leb_trans (a b c : string) :
  String.leb a b = true -> String.leb b c = true -> String.leb a c = true.
Proof.
  unfold String.leb. intros Hab Hbc.
  pose proof (compare_not_Gt_trans a b c) as H.
  destruct (String.compare a b), (String.compare b c), (String.compare a c);
    try reflexivity; try discriminate; exfalso; apply H; congruence.
Qed.

Context {V : Type}.

#[local] Instance key_le_trans : Transitive (key_le (V := V)).
Proof. intros x y z. apply leb_trans. Qed.

Lemma insertEntry_Permutation (kv : string * V) (l : list (string * V)) :
  Permutation (insertEntry kv l) (kv :: l).
Proof.
  induction l as [|kv' l IH]; cbn [insertEntry]; [reflexivity|].
  destruct (String.leb (fst kv) (fst kv')); [reflexivity|].
  rewrite IH. apply perm_swap.
Qed.

Lemma sortEntries_Permutation (l : list (string * V)) : Permutation (sortEntries l) l.
Proof.
  unfold sortEntries. induction l as [|kv l IH]; cbn [fold_right]; [reflexivity|].
  now rewrite insertEntry_Permutation, IH.
Qed.

Lemma insertEntry_Sorted (kv : string * V) (l : list (string * V)) :
  Sorted (key_le (V := V)) l -> Sorted (key_le (V := V)) (insertEntry kv l).
Proof.
  induction 1 as [|kv' l Hl IH Hhd]; cbn [insertEntry].
  - repeat constructor.
  - destruct (String.leb (fst kv) (fst kv')) eqn:Hle.
    + constructor; [now constructor|]. now constructor.
    + constructor; [exact IH|].
      assert (Hge : key_le kv' kv).
      { unfold key_le. destruct (String.leb_total (fst kv) (fst kv')); congruence. }
      destruct Hhd as [|kv'' l' Hkv'']; cbn [insertEntry].
      * now constructor.
      * destruct (String.leb (fst kv) (fst kv'')); now constructor.
Qed.

Lemma sortEntries_Sorted (l : list (string * V)) : Sorted (key_le (V := V)) (sortEntries l).
Proof.
  unfold sortEntries. induction l as [|kv l IH]; cbn [fold_right]; [constructor|].
  now apply insertEntry_Sorted.
Qed.

Lemma same_key_same_entry (l : list (string * V)) (x y : string * V) :
  NoDup (List.map fst l) -> In x l -> In y l -> fst x = fst y -> x = y.
Proof.
  induction l as [|kv l IH]; cbn [List.map]; intros Hnd Hx Hy Hk; [contradiction|].
  apply NoDup_cons in Hnd as [Hnotin Hnd].
  destruct Hx as [-> | Hx], Hy as [-> | Hy]; auto.
  - exfalso. apply Hnotin. rewrite Hk. apply list_elem_of_In, in_map, Hy.
  - exfalso. apply Hnotin. rewrite <- Hk. apply list_elem_of_In, in_map, Hx.
Qed.

(** Entries with distinct keys have one sorted arrangement. *)
Lemma sorted_entries_unique (l m1 m2 : list (string * V)) :
  NoDup (List.map fst l) -> Permutation m1 l -> Permutation m2 l ->
  Sorted (key_le (V := V)) m1 -> Sorted (key_le (V := V)) m2 -> m1 = m2.
Proof.
  intros Hnd H1 H2 S1 S2.
  apply (Sorted_unique_strong (key_le (V := V))); try assumption.
  - intros x y Hx Hy Hxy Hyx.
    apply list_elem_of_In in Hx, Hy.
    apply (same_key_same_entry l); [exact Hnd| | |now apply String.leb_antisym].
    + apply (Permutation_in _ H1 Hx).
    + apply (Permutation_in _ H2 Hy).
  - now rewrite H1, H2.
Qed.

(** Entries with distinct keys are sorted the same way in whatever order
    they come. *)
Lemma sortEntries_order (l l' : list (string * V)) :
  NoDup (List.map fst l) -> Permutation l l' -> sortEntries l = sortEntries l'.
Proof.
  intros Hnd Hperm.
  apply (sorted_entries_unique l); try apply sortEntries_Sorted; try exact Hnd.
  - apply sortEntries_Permutation.
  - now rewrite sortEntries_Permutation.
Qed.

End KeyOrder.

Lemma mapEncoder_order (entries entries' : list (string * any)) :
  NoDup (List.map fst entries) -> Permutation entries entries' ->
  mapEncoder anyEncoder (Some entries) = mapEncoder anyEncoder (Some entries').
Proof.
  intros Hnd Hperm. cbn [mapEncoder]. f_equal. apply sortEntries_order.
  - now rewrite List.map_map.
  - now apply Permutation_map.
Qed.

(** X16: the text of a Feature does not depend on the order in which the
    entries of its property map come: with distinct keys, as in a Go map,
    any two orders give the same result, for a Feature value and for a
    [*Feature]. *)
Theorem Feature_text_ignores_the_order_of_the_properties :
  forall (geometry : option Geometry) (entries entries' : list (string * any)),
    NoDup (List.map fst entries) ->
    Permutation entries entries' ->
    ToText (Some (FeaturePtr (NewFeature geometry (Some entries))))
    = ToText (Some (FeaturePtr (NewFeature geometry (Some entries')))) /\
    ToText (Some (FeatureValue (NewFeature geometry (Some entries))))
    = ToText (Some (FeatureValue (NewFeature geometry (Some entries')))).
Proof.
  intros geometry entries entries' Hnd Hperm.
  pose proof (mapEncoder_order entries entries' Hnd Hperm) as H.
  cbn [ToText].
  unfold encodeFeatureAddr, encodeFeatureValue, Feature_MarshalJSON, Feature_fields, NewFeature.
  cbn [Properties Feature_Geometry]. rewrite H. split; reflexivity.
Qed.

Lemma Feature_text_ignores_the_order_of_the_properties_witness :
  ToText (Some (FeaturePtr
    (NewFeature None (Some [("b", any_int 2); ("a", any_bool true); ("c", any_nil)]))))
  = ToText (Some (FeaturePtr
    (NewFeature None (Some [("c", any_nil); ("b", any_int 2); ("a", any_bool true)])))) /\
  ToText (Some (FeatureValue
    (NewFeature None (Some [("b", any_int 2); ("a", any_bool true); ("c", any_nil)]))))
  = ToText (Some (FeatureValue
    (NewFeature None (Some [("c", any_nil); ("b", any_int 2); ("a", any_bool true)])))).
Proof.
  apply (Feature_text_ignores_the_order_of_the_properties None
           [("b", any_int 2); ("a", any_bool true); ("c", any_nil)]
           [("c", any_nil); ("b", any_int 2); ("a", any_bool true)]).
  - repeat (apply NoDup_cons_2; [rewrite list_elem_of_In; cbn; intuition discriminate|]).
    apply NoDup_nil_2.
  - apply (perm_trans (l' := [("b", any_int 2); ("c", any_nil); ("a", any_bool true)]));
      [apply perm_skip, perm_swap|apply perm_swap].
Defined.

(** ** The properties of a Feature, entry by entry *)








(** ** The depth limit *)

Lemma nested_text (n : nat) :
  exists t, anyEncoder (nested n) = Ok t /\
            anyEncoder (nested (S n)) = Ok ("[" ++ t ++ "]").
Proof.
  induction n as [|n (t & Ht & Hs)].
  - exists "null". split; reflexivity.
  - exists ("[" ++ t ++ "]"). split; [exact Hs|].
    change (nested (S (S n))) with (any_slice (Some [nested (S n)])).
    cbn [anyEncoder sliceEncoder List.map commaSeparated]. rewrite Hs. reflexivity.
Qed.

Lemma any_depth_nested (n : nat) : any_depth (nested n) = N.of_nat n.
Proof.
  induction n as [|n IH]; [reflexivity|].
  change (nested (S n)) with (any_slice (Some [nested n])).
  cbn [any_depth max_depth fold_right]. rewrite IH. lia.
Qed.

Lemma encodable_nested (n : nat) : encodable (nested n) = true.
Proof.
  induction n as [|n IH]; [reflexivity|].
  change (nested (S n)) with (any_slice (Some [nested n])).
  cbn [encodable forallb]. now rewrite IH.
Qed.

(** Past the limit the scanner refuses an opening bracket. *)
Lemma step_open_array_too_deep (f : stepfn) (ps : list parseKind) :
  begins f -> (maxNestingDepth < N.of_nat (List.length ps) + 1)%N ->
  err (fst (scan_step (at_state f ps) "[")) = true.
Proof.
  intros Hf Hdeep.
  assert (H : do_stateBeginValue (at_state f ps) "["
              = pushParseState (at_state f ps) parseArrayValue stateBeginValueOrEmpty)
    by reflexivity.
  assert (Hpush : err (fst (pushParseState (at_state f ps) parseArrayValue
                              stateBeginValueOrEmpty)) = true).
  { unfold pushParseState. cbn [parseState at_state List.length].
    destruct (N.leb_spec (N.of_nat (S (List.length ps))) maxNestingDepth) as [Hle|_];
      [|reflexivity].
    rewrite Nat2N.inj_succ in Hle. lia. }
  destruct Hf as [-> | ->]; unfold scan_step; simpl step;
    [|change (do_stateBeginValueOrEmpty ?s "[") with (do_stateBeginValue s "[")];
    rewrite H; exact Hpush.
Qed.

(** The scanner refuses a text that nests deeper than what is left of the
    limit. *)
Lemma scan_nested_too_deep (n : nat) :
  forall (f : stepfn) (ps : list parseKind) (t rest : string),
    begins f -> anyEncoder (nested n) = Ok t ->
    (maxNestingDepth < N.of_nat (List.length ps) + N.of_nat n)%N ->
    (N.of_nat (List.length ps) <= maxNestingDepth)%N ->
    err (scan (at_state f ps) (t ++ rest)) = true.
Proof.
  induction n as [|n IH]; intros f ps t rest Hf Ht Hdeep Hps; [lia|].
  destruct (nested_text n) as (t' & Ht' & Hs). rewrite Hs in Ht. same_text Ht.
  change (("[" ++ t' ++ "]") ++ rest) with (String "[" ((t' ++ "]") ++ rest)).
  rewrite scan_cons.
  destruct (N.leb_spec (N.of_nat (List.length ps) + 1) maxNestingDepth) as [Hfit|Hout].
  - rewrite step_open_array by (try exact Hf; unfold fits; lia).
    rewrite string_app_assoc.
    apply (IH _ _ t'); [now right|exact Ht'| |];
      cbn [List.length]; rewrite Nat2N.inj_succ; lia.
  - apply scan_err, step_open_array_too_deep; [exact Hf|lia].
Qed.

Lemma deepFeature_text (n : nat) :
  exists t, anyEncoder (nested n) = Ok t /\
            Feature_MarshalJSON (deepFeature n)
            = Ok (json "{'type':'Feature','geometry':null,'properties':{'a':" ++ t ++ "}}").
Proof.
  destruct (nested_text n) as (t & Ht & _). exists t. split; [exact Ht|].
  rewrite (Feature_MarshalJSON_text (deepFeature n) "null" ("{" ++ appendString "a" ++ ":" ++ t ++ "}")).
  - f_equal. rewrite !string_app_assoc. reflexivity.
  - reflexivity.
  - unfold deepFeature, NewFeature. cbn [Properties mapEncoder List.map sortEntries fold_right
                                          insertEntry fst snd].
    unfold structEncoder, member. cbn [List.map fst snd commaSeparated]. rewrite Ht.
    reflexivity.
Qed.

(** X17: the depth bound is sharp: the Feature whose single property holds [n]
    nested one-element slices, whose text nests [n + 2] levels deep, is
    written when passed by address exactly when [n + 2] is within the limit
    of the scanner; within that limit it is written when passed as a value
    too. *)
Theorem deep_properties_are_written_up_to_the_limit :
  forall n : nat,
    is_ok (ToText (Some (FeaturePtr (deepFeature n))))
    = (N.of_nat n + 2 <=? maxNestingDepth)%N /\
    ((N.of_nat n + 2 <= maxNestingDepth)%N ->
     is_ok (ToText (Some (FeatureValue (deepFeature n)))) = true).
Proof.
  intros n.
  assert (Hw : Feature_writable (deepFeature n) = true).
  { unfold Feature_writable, deepFeature, NewFeature, properties_encodable.
    cbn [Feature_Geometry Properties encodable forallb snd andb].
    now rewrite encodable_nested. }
  assert (Hdepth : Feature_depth (deepFeature n) = (N.of_nat n + 2)%N).
  { unfold Feature_depth, deepFeature, NewFeature.
    cbn [Feature_Geometry Properties any_depth max_depth fold_right snd].
    rewrite any_depth_nested. lia. }
  split; [|intros _; cbn [ToText]; now rewrite is_ok_encodeFeatureValue].
  destruct (N.leb_spec (N.of_nat n + 2) maxNestingDepth) as [Hfit|Hdeep].
  - rewrite <- Hw. cbn [ToText]. apply is_ok_encodeFeatureAddr. now rewrite Hdepth.
  - cbn [ToText]. unfold encodeFeatureAddr.
    destruct (deepFeature_text n) as (t & Ht & ->). cbn [marshalerEncoder].
    set (b := json "{'type':'Feature','geometry':null,'properties':{'a':" ++ t ++ "}}").
    assert (Hkept : kept Outside b = true).
    { apply balanced_kept, (Feature_MarshalJSON_balanced (deepFeature n)).
      destruct (deepFeature_text n) as (t' & Ht' & HM). rewrite Ht in Ht'.
      injection Ht' as <-. exact HM. }
    assert (Herr : err (scan newScanner b) = true).
    { subst b. rewrite scan_app.
      change (scan newScanner (json "{'type':'Feature','geometry':null,'properties':{'a':"))
        with (at_state stateBeginValue [parseObjectValue; parseObjectValue]).
      apply (scan_nested_too_deep n _ _ t); [now left|exact Ht| |];
        cbn [List.length]; unfold maxNestingDepth in *; lia. }
    assert (H : appendCompact b = Err SyntaxError); [|now rewrite H].
    unfold appendCompact.
    destruct (compactLoop_kept b newScanner newScanner_consistent eq_refl Hkept)
      as [-> | [He _]].
    + unfold eof. now rewrite Herr.
    + destruct (compactLoop newScanner 0 b) as [s out]. simpl in He.
      unfold eof. now rewrite He.
Qed.

Lemma deep_properties_are_written_up_to_the_limit_witness :
  is_ok (ToText (Some (FeaturePtr (deepFeature (N.to_nat 9998))))) = true /\
  is_ok (ToText (Some (FeatureValue (deepFeature (N.to_nat 9998))))) = true /\
  is_ok (ToText (Some (FeaturePtr (deepFeature (N.to_nat 9999))))) = false.
Proof.
  destruct (deep_properties_are_written_up_to_the_limit (N.to_nat 9998)) as [Hp Hv].
  destruct (deep_properties_are_written_up_to_the_limit (N.to_nat 9999)) as [Hp' _].
  split; [|split].
  - rewrite Hp. vm_compute. reflexivity.
  - apply Hv. vm_compute. discriminate.
  - rewrite Hp'. vm_compute. reflexivity.
Defined.
